(** * ocrmypdf-auto: the event-coalescing task scheduler

    A shallow embedding of [src/ocrmypdf_auto.py]: the argument list of
    [OcrmypdfConfig], the per-path [OcrTask] state machine, the
    [AutoOcrScheduler] registry and its shutdown, run against a
    [ThreadPoolExecutor] and a clock.

    Objects that the program shares between threads live in a store: the
    tasks in [tasks] (a task id is an index), the pool's futures in
    [futures] (a future id is an index).  The registry [current_tasks] maps
    a path to a task id, so that two names of one task are one object.

    Threads are interleaved at the blocking calls of the worker: the log
    write on entry of [process] (line 145), [time.sleep] (line 162) and the
    external run (line 174).  A callback of the watchdog thread and the
    cancel loop of [shutdown] each run as one step between them. *)

From Stdlib Require Import ZArith QArith Lia.
From stdpp Require Import gmap strings list fin_maps.

Local Open Scope Z_scope.

(** ** Floats, durations and the environment *)

Section Environment.
  (** [float(s)] for a string that names a finite number; [None] when it
      raises ValueError.  Strings that name nan or an infinity are left
      out of the model. *)
Variable float : string -> option Q.
  (** [os.getenv]: [None] when the variable is not set. *)
Variable getenv : string -> option string.
  (** The microseconds of a fraction of a second: [timedelta] multiplies
      the fraction by 1e6 in double arithmetic and rounds half to even. *)
Variable micros : Q -> Z.

  (** [try_float(string, default_value)]: [float(None)] raises TypeError,
      an unparsable string raises ValueError; both give the default. *)
Definition try_float (string : option string) (default_value : option Q)
    : option Q :=
    match string with
    | None => default_value
    | Some s =>
        match float s with
        | Some x => Some x
        | None => default_value
        end
    end.

  (** [timedelta(seconds=x)] for a float [x], in microseconds: the whole
      seconds are kept exactly, the fraction goes through [micros]; beyond
      999999999 days it raises OverflowError, the [None] here. *)
Definition timedelta_seconds (x : Q) : option Z :=
    let whole := Z.quot (Qnum x) (Zpos (Qden x)) in
    let part := Z.rem (Qnum x) (Zpos (Qden x)) in
    let us := whole * 1000000
              + (if part =? 0 then 0 else micros (part # Qden x)%Q) in
    if Z.abs (us / 86400000000) <=? 999999999 then Some us else None.

  (** [OcrTask.COALESCING_DELAY], in microseconds; [None] when the class
      body raises and the module is not loaded. *)
Definition COALESCING_DELAY : option Z :=
    match try_float (getenv "OCR_PROCESSING_DELAY") (Some (3 # 1)%Q) with
    | Some x => timedelta_seconds x
    | None => None
    end.
End Environment.

(** ** OcrmypdfConfig.get_ocrmypdf_arguments *)

Module Config.
Section Args.
  (** The values stored in [options]: strings, paths, floats. *)
Variable value : Type.

  (** One element of the argument list. *)
Inductive arg : Type :=
  | Opt (name : string)
  | Val (v : value)
  | Path (p : string).

  (** [options] is a dict in insertion order; a [None] value is Python's
      [None]. *)
Record OcrmypdfConfig : Type := mkConfig {
    input_path : string;
    output_path : string;
    options : list (string * option value)
  }.

  (** The body of the [for] loop, lines 75-77, on the list so far. *)
Definition append_option (args : list arg) (item : string * option value)
    : list arg :=
    let args := args ++ [Opt (fst item)] in
    match snd item with
    | Some v => args ++ [Val v]
    | None => args
    end.

Definition get_ocrmypdf_arguments (c : OcrmypdfConfig) : list arg :=
    let args := fold_left append_option (options c) [] in
    let args := args ++ [Path (input_path c)] in
    args ++ [Path (output_path c)].

  (** The claim's wording: a key, then its value unless it is [None]. *)
Definition rendered (item : string * option value) : list arg :=
    match snd item with
    | Some v => [Opt (fst item); Val v]
    | None => [Opt (fst item)]
    end.
End Args.
End Config.

Arguments Config.Opt {value}.
Arguments Config.Val {value}.
Arguments Config.Path {value}.
Arguments Config.mkConfig {value}.
Arguments Config.input_path {value}.
Arguments Config.output_path {value}.
Arguments Config.options {value}.
Arguments Config.append_option {value}.
Arguments Config.get_ocrmypdf_arguments {value}.
Arguments Config.rendered {value}.

(** ** The shared store *)

Inductive TaskState : Set := NEW | QUEUED | SLEEPING | ACTIVE | DONE.

#[global] Instance TaskState_eq_dec : EqDecision TaskState.
Proof. solve_decision. Defined.

(** An [OcrTask]; [future] is the id of a future of the pool.  The fields
    [submit_func] and [done_callback] are always the scheduler's
    [threadpool.submit] and [on_task_done] (line 283). *)
Record OcrTask : Set := mkTask {
  path : string;
  last_touch : option Z;
  future : option nat;
  state : TaskState
}.

Inductive exn : Set :=
| KeyError
| AssertionError
| AttributeError
| RuntimeError
| ProcessExecutionError.

#[global] Instance exn_eq_dec : EqDecision exn.
Proof. solve_decision. Defined.

(** Where a worker is blocked inside [process]: before a pass of the
    coalescing loop that may begin at [wake] (after the log write of line
    145, or inside [time.sleep]), or inside the external run. *)
Inductive position : Set :=
| AtLoop (wake : Z)
| InJob.

(** A [concurrent.futures.Future] that runs [process] of the task [work]. *)
Inductive FutureState : Set :=
| PENDING
| RUNNING (at_ : position)
| CANCELLED
| FINISHED
| RAISED (e : exn).

Record Future : Set := mkFuture {
  work : nat;
  fstate : FutureState
}.

Inductive ObserverState : Set := Watching | Stopped.

(** What the outside sees: callbacks delivered by the watchdog handler,
    runs of the external job, the start of shutdown; newest first. *)
Inductive obs : Set :=
| Touched (p : string) (t : Z)
| Deleted (p : string) (t : Z)
| Invoked (tid : nat) (p : string) (t : Z)
| ShuttingDown (t : Z).

Record World : Type := mkWorld {
  now : Z;
  tasks : list OcrTask;
  futures : list Future;
  max_workers : nat;
  pool_shutdown : bool;
  current_tasks : gmap string nat;
  threadpool : bool;
  observer : option ObserverState;
  uncaught : list exn;
  history : list obs
}.

Definition set_now (f : Z -> Z) (w : World) : World :=
  mkWorld (f (now w)) (tasks w) (futures w) (max_workers w) (pool_shutdown w)
    (current_tasks w) (threadpool w) (observer w) (uncaught w) (history w).
Definition set_tasks (f : list OcrTask -> list OcrTask) (w : World) : World :=
  mkWorld (now w) (f (tasks w)) (futures w) (max_workers w) (pool_shutdown w)
    (current_tasks w) (threadpool w) (observer w) (uncaught w) (history w).
Definition set_futures (f : list Future -> list Future) (w : World) : World :=
  mkWorld (now w) (tasks w) (f (futures w)) (max_workers w) (pool_shutdown w)
    (current_tasks w) (threadpool w) (observer w) (uncaught w) (history w).
Definition set_pool_shutdown (b : bool) (w : World) : World :=
  mkWorld (now w) (tasks w) (futures w) (max_workers w) b
    (current_tasks w) (threadpool w) (observer w) (uncaught w) (history w).
Definition set_current_tasks (f : gmap string nat -> gmap string nat)
  (w : World) : World :=
  mkWorld (now w) (tasks w) (futures w) (max_workers w) (pool_shutdown w)
    (f (current_tasks w)) (threadpool w) (observer w) (uncaught w) (history w).
Definition set_threadpool (b : bool) (w : World) : World :=
  mkWorld (now w) (tasks w) (futures w) (max_workers w) (pool_shutdown w)
    (current_tasks w) b (observer w) (uncaught w) (history w).
Definition set_observer (o : option ObserverState) (w : World) : World :=
  mkWorld (now w) (tasks w) (futures w) (max_workers w) (pool_shutdown w)
    (current_tasks w) (threadpool w) o (uncaught w) (history w).
Definition set_uncaught (f : list exn -> list exn) (w : World) : World :=
  mkWorld (now w) (tasks w) (futures w) (max_workers w) (pool_shutdown w)
    (current_tasks w) (threadpool w) (observer w) (f (uncaught w)) (history w).
Definition record (o : obs) (w : World) : World :=
  mkWorld (now w) (tasks w) (futures w) (max_workers w) (pool_shutdown w)
    (current_tasks w) (threadpool w) (observer w) (uncaught w) (o :: history w).

(** Field assignments on a task of the store. *)
Definition with_last_touch (v : option Z) (t : OcrTask) : OcrTask :=
  mkTask (path t) v (future t) (state t).
Definition with_future (v : option nat) (t : OcrTask) : OcrTask :=
  mkTask (path t) (last_touch t) v (state t).
Definition with_state (v : TaskState) (t : OcrTask) : OcrTask :=
  mkTask (path t) (last_touch t) (future t) v.

Definition update_task (tid : nat) (f : OcrTask -> OcrTask) (w : World)
  : World :=
  set_tasks (alter f tid) w.

Definition with_fstate (v : FutureState) (f : Future) : Future :=
  mkFuture (work f) v.

(** ** A method: runs on the store, may raise; the writes made before an
    exception stay. *)
Definition M : Type := World -> option exn * World.

Definition ret : M := fun w => (None, w).
Definition raise (e : exn) : M := fun w => (Some e, w).
Definition modify (f : World -> World) : M := fun w => (None, f w).
Definition seq (m1 m2 : M) : M :=
  fun w => match m1 w with
           | (None, w') => m2 w'
           | r => r
           end.
Declare Scope M_scope.
Delimit Scope M_scope with M.
Bind Scope M_scope with M.
Notation "m1 ;; m2" := (seq m1 m2%M)
  (at level 100, m2 at level 200, right associativity) : M_scope.
Local Open Scope M_scope.

(** Reads a task of the store; a task id always names a stored task. *)
Definition on_task (tid : nat) (k : OcrTask -> M) : M :=
  fun w => match tasks w !! tid with
           | Some t => k t w
           | None => (None, w)
           end.

Definition for_each (f : nat -> M) (l : list nat) : M :=
  fold_right (fun x k => f x ;; k) ret l.

(** ** The worker pool: [ThreadPoolExecutor.submit] and [Future.cancel] *)

(** [submit(fn)]: raises RuntimeError after [shutdown]; otherwise queues a
    new pending future and returns it. *)
Definition submit (tid : nat) (k : nat -> M) : M :=
  fun w =>
    if pool_shutdown w then (Some RuntimeError, w)
    else k (length (futures w))
           (set_futures (fun fs => fs ++ [mkFuture tid PENDING]) w).

(** [Future.cancel()]: only a pending future is cancelled; the result is
    dropped by the caller (line 134). *)
Definition future_cancel (fid : nat) : M :=
  modify (set_futures (alter (fun f =>
    match fstate f with
    | PENDING => with_fstate CANCELLED f
    | _ => f
    end) fid)).

(** ** OcrTask and AutoOcrScheduler *)

(** [AutoOcrScheduler.on_task_done]: [del self.current_tasks[task.path]]. *)
Definition on_task_done (tid : nat) : M :=
  on_task tid (fun t w =>
    match current_tasks w !! path t with
    | Some _ => (None, set_current_tasks (delete (path t)) w)
    | None => (Some KeyError, w)
    end).

(** [OcrTask.enqueue] *)
Definition enqueue (tid : nat) : M :=
  on_task tid (fun t =>
    if bool_decide (state t = NEW \/ state t = ACTIVE) then
      modify (update_task tid (with_state QUEUED)) ;;
      submit tid (fun fid =>
        modify (update_task tid (with_future (Some fid))))
    else raise AssertionError).

(** [OcrTask.touch] *)
Definition touch (tid : nat) : M :=
  (fun w => modify (update_task tid (with_last_touch (Some (now w)))) w) ;;
  on_task tid (fun t =>
    if bool_decide (state t = NEW) then enqueue tid else ret).

(** [OcrTask.done] *)
Definition done (tid : nat) : M :=
  modify (update_task tid (with_state DONE)) ;;
  on_task_done tid.

(** [OcrTask.cancel] *)
Definition cancel (tid : nat) : M :=
  modify (update_task tid (with_last_touch None)) ;;
  on_task tid (fun t =>
    if bool_decide (state t = QUEUED) then
      match future t with
      | Some fid => future_cancel fid ;; done tid
      | None => raise AttributeError
      end
    else ret).

(** [OcrTask.__init__]: a new object in the store, then [self.touch()]. *)
Definition OcrTask_new (p : string) : OcrTask := mkTask p None None NEW.

Definition OcrTask_init (p : string) (k : nat -> M) : M :=
  fun w =>
    let tid := length (tasks w) in
    (modify (set_tasks (fun ts => ts ++ [OcrTask_new p])) ;;
     touch tid ;;
     k tid) w.

(** [AutoOcrScheduler.on_file_touched] *)
Definition on_file_touched (p : string) : M :=
  (fun w => modify (record (Touched p (now w))) w) ;;
  (fun w =>
     match current_tasks w !! p with
     | Some tid => touch tid w
     | None =>
         OcrTask_init p (fun tid =>
           modify (set_current_tasks (insert p tid))) w
     end).

(** [AutoOcrScheduler.on_file_deleted] *)
Definition on_file_deleted (p : string) : M :=
  (fun w => modify (record (Deleted p (now w))) w) ;;
  (fun w =>
     match current_tasks w !! p with
     | Some tid => cancel tid w
     | None => (None, w)
     end).

(** [AutoOcrWatchdogHandler]: the four events of watchdog on a file that
    matches the pattern; both callbacks are set (line 239). *)
Inductive fs_event : Set :=
| FileMoved (src_path dest_path : string)
| FileCreated (src_path : string)
| FileDeleted (src_path : string)
| FileModified (src_path : string).

Definition dispatch (e : fs_event) : M :=
  match e with
  | FileMoved src dest => on_file_deleted src ;; on_file_touched dest
  | FileCreated src => on_file_touched src
  | FileDeleted src => on_file_deleted src
  | FileModified src => on_file_touched src
  end.

(** ** OcrTask.process, cut at its blocking calls *)

(** How a piece of [process] ends: it returns, raises, or blocks. *)
Inductive ending : Set :=
| Returns
| Raises (e : exn)
| Blocks (at_ : position).

Definition finish (r : option exn * World) : ending * World :=
  match r with
  | (None, w) => (Returns, w)
  | (Some e, w) => (Raises e, w)
  end.

Section Process.
  (** [OcrTask.COALESCING_DELAY], microseconds. *)
Variable delay : Z.

  (** One pass of the [while] loop (the pool calls [process] with
      [skip_delay=False]), lines 149-162, and on [break] lines 165-174 up
      to the external run. *)
Definition process_loop (tid : nat) (w : World) : ending * World :=
    match tasks w !! tid with
    | None => (Returns, w)
    | Some t =>
        match last_touch t with
        | None => finish (done tid w)
        | Some lt =>
            let due := lt + delay in
            let wait_span := due - now w in
            if wait_span <=? 0 then
              (Blocks InJob,
               record (Invoked tid (path t) (now w))
                 (update_task tid (with_last_touch None)
                    (update_task tid (with_state ACTIVE) w)))
            else
              (Blocks (AtLoop (now w + wait_span)),
               update_task tid (with_state SLEEPING) w)
        end
    end.

  (** The end of the external run with exit status [rc], line 174:
      [run()] of plumbum checks the status against 0 and raises
      ProcessExecutionError otherwise, which nothing in [process] catches.
      After a status 0, lines 175-187. *)
Definition process_return (tid : nat) (rc : Z) (w : World)
    : ending * World :=
    if decide (rc = 0) then
      match tasks w !! tid with
      | None => (Returns, w)
      | Some t =>
          match last_touch t with
          | Some _ => finish (enqueue tid w)
          | None => finish (done tid w)
          end
      end
    else (Raises ProcessExecutionError, w).

  (** The worker thread stores how the call ended in its future. *)
Definition settle (fid : nat) (r : ending * World) : World :=
    let st := match fst r with
              | Returns => FINISHED
              | Raises e => RAISED e
              | Blocks p => RUNNING p
              end in
    set_futures (alter (with_fstate st) fid) (snd r).

  (** ** AutoOcrScheduler.__init__ and shutdown *)

Definition AutoOcrScheduler_init : World :=
    mkWorld 0 [] [] 3 false ∅ true (Some Watching) [] [].

Definition is_live (f : Future) : bool :=
    match fstate f with
    | PENDING | RUNNING _ => true
    | _ => false
    end.

Definition is_running (f : Future) : bool :=
    match fstate f with
    | RUNNING _ => true
    | _ => false
    end.

Definition is_pending (f : Future) : bool :=
    match fstate f with
    | PENDING => true
    | _ => false
    end.

  (** Lines 249-263, up to where [threadpool.shutdown()] waits for the
      workers. *)
Definition shutdown_begin : M :=
    (fun w => modify (record (ShuttingDown (now w))) w) ;;
    (fun w => match observer w with
              | Some _ => modify (set_observer (Some Stopped)) w
              | None => (None, w)
              end) ;;
    (fun w => for_each cancel (map snd (map_to_list (current_tasks w))) w) ;;
    (fun w => if threadpool w then modify (set_pool_shutdown true) w
              else (None, w)).

  (** Lines 263-270, once the workers are gone. *)
Definition shutdown_end : M :=
    (fun w => if threadpool w then modify (set_threadpool false) w
              else (None, w)) ;;
    (fun w => match observer w with
              | Some _ => modify (set_observer None) w
              | None => (None, w)
              end).

  (** ** The interleavings *)

Inductive action : Set :=
  | Tick (d : Z)
  | Deliver (e : fs_event)
  | Start
  | Resume (fid : nat)
  | JobExit (fid : nat) (rc : Z)
  | Shutdown
  | ShutdownReturn.

  (** A callback outside the workers: an exception leaves its thread. *)
Definition outside (m : M) (w : World) : World :=
    match m w with
    | (None, w') => w'
    | (Some e, w') => set_uncaught (cons e) w'
    end.

  (** The first work item of the queue that was not cancelled. *)
Fixpoint first_pending (fs : list Future) : option nat :=
    match fs with
    | [] => None
    | f :: fs' =>
        if is_pending f then Some 0%nat
        else S <$> first_pending fs'
    end.

Definition running_count (w : World) : nat :=
    length (filter (fun f => is_running f = true) (futures w)).

  (** One step; [None] when the step cannot happen in [w]. *)
Definition step (a : action) (w : World) : option World :=
    match a with
    | Tick d =>
        if 0 <=? d then Some (set_now (fun t => t + d) w) else None
    | Deliver e =>
        match observer w with
        | Some Watching => Some (outside (dispatch e) w)
        | _ => None
        end
    | Start =>
        if bool_decide (running_count w < max_workers w)%nat then
          fid ← first_pending (futures w);
          Some (set_futures
                  (alter (with_fstate (RUNNING (AtLoop (now w)))) fid) w)
        else None
    | Resume fid =>
        f ← futures w !! fid;
        match fstate f with
        | RUNNING (AtLoop wake) =>
            if wake <=? now w
            then Some (settle fid (process_loop (work f) w))
            else None
        | _ => None
        end
    | JobExit fid rc =>
        f ← futures w !! fid;
        match fstate f with
        | RUNNING InJob => Some (settle fid (process_return (work f) rc w))
        | _ => None
        end
    | Shutdown =>
        if pool_shutdown w then None
        else Some (outside shutdown_begin w)
    | ShutdownReturn =>
        if pool_shutdown w && threadpool w
           && bool_decide (Forall (fun f => is_live f = false) (futures w))
        then Some (outside shutdown_end w)
        else None
    end.

Fixpoint run (acts : list action) (w : World) : option World :=
    match acts with
    | [] => Some w
    | a :: acts' => w' ← step a w; run acts' w'
    end.

Definition reachable (w : World) : Prop :=
    exists acts, run acts AutoOcrScheduler_init = Some w.
End Process.

(** ** Well-formed worlds *)

(** What the state of a future says about the task it runs. *)
Definition fut_ok (t : OcrTask) (fid : nat) (st : FutureState) : Prop :=
  match st with
  | PENDING => state t = QUEUED /\ future t = Some fid
  | RUNNING (AtLoop _) =>
      state t = QUEUED \/ state t = SLEEPING
      \/ (state t = DONE /\ last_touch t = None)
  | RUNNING InJob => state t = ACTIVE
  | _ => True
  end.

Definition has_live (w : World) (tid : nat) : Prop :=
  exists fid f, futures w !! fid = Some f /\ work f = tid /\ is_live f = true.

Record wf (w : World) : Prop := mk_wf {
  (** a registered task carries the path of its key and is not finished *)
  wf_reg : forall p tid, current_tasks w !! p = Some tid ->
    exists t, tasks w !! tid = Some t /\ path t = p /\ state t <> DONE;
  (** a future agrees with its task *)
  wf_fut : forall fid f, futures w !! fid = Some f ->
    exists t, tasks w !! work f = Some t /\ fut_ok t fid (fstate f);
  (** a task has at most one future that is queued or running *)
  wf_one : forall fid1 fid2 f1 f2,
    futures w !! fid1 = Some f1 -> futures w !! fid2 = Some f2 ->
    is_live f1 = true -> is_live f2 = true -> work f1 = work f2 ->
    fid1 = fid2;
  (** no stored task is left in NEW *)
  wf_new : forall tid t, tasks w !! tid = Some t -> state t <> NEW;
  (** the future that a task holds runs that task *)
  wf_own : forall tid t fid, tasks w !! tid = Some t ->
    future t = Some fid ->
    exists f, futures w !! fid = Some f /\ work f = tid
}.

(** ** Predicates of the specification and the runs used as examples *)

Definition cancel_pending (f : Future) : Future :=
  match fstate f with
  | PENDING => with_fstate CANCELLED f
  | _ => f
  end.

(** A method keeps a relation between the store before and after it, also
    when it raises. *)
Definition preserves (R : World -> World -> Prop) (m : M) : Prop :=
  forall w, R w (snd (m w)).

Definition running (fs : list Future) : nat :=
  length (filter (fun f => is_running f = true) fs).

Definition same_pool (w w' : World) : Prop :=
  max_workers w' = max_workers w
  /\ running (futures w') = running (futures w)
  /\ forall fid f, futures w !! fid = Some f -> is_running f = true ->
       futures w' !! fid = Some f.

Definition pool_bounded (w : World) : Prop :=
  max_workers w = 3%nat /\ (running (futures w) <= max_workers w)%nat.

#[global] Instance position_eq_dec : EqDecision position.
Proof. solve_decision. Defined.

#[global] Instance FutureState_eq_dec : EqDecision FutureState.
Proof. solve_decision. Defined.

Definition in_job (fs : list Future) : nat :=
  length (filter (fun f => fstate f = RUNNING InJob) fs).

Definition four_files : list action :=
  [Deliver (FileCreated "a.pdf"); Deliver (FileCreated "b.pdf");
   Deliver (FileCreated "c.pdf"); Deliver (FileCreated "d.pdf");
   Start; Start; Start; Tick 3000000;
   Resume 0; Resume 1; Resume 2].

Definition world_after (delay : Z) (acts : list action) : World :=
  default AutoOcrScheduler_init (run delay acts AutoOcrScheduler_init).

(** The world after [done] of a task whose run has ended. *)
Definition finished_world (fid : nat) (t : OcrTask) (tid : nat) (w : World)
  : World :=
  set_futures
    (alter (with_fstate (match current_tasks w !! path t with
                         | Some _ => FINISHED
                         | None => RAISED KeyError
                         end)) fid)
    (set_current_tasks (delete (path t))
       (update_task tid (with_state DONE) w)).

Definition job_running : list action :=
  [Deliver (FileCreated "a.pdf"); Start; Tick 3000000; Resume 0].

Definition never_asserts (m : M) : Prop :=
  forall w, fst (m w) <> Some AssertionError.

Definition asserted (f : Future) : Prop := fstate f = RAISED AssertionError.

Definition no_assert (w : World) : Prop :=
  (forall fid f, futures w !! fid = Some f -> ~ asserted f)
  /\ AssertionError ∉ uncaught w.

(** No future turns to a failed assertion, no exception leaves a thread. *)
Definition no_new_assert (w w' : World) : Prop :=
  (forall fid f', futures w' !! fid = Some f' -> asserted f' ->
     exists f, futures w !! fid = Some f /\ asserted f)
  /\ uncaught w' = uncaught w.

(** The world after [enqueue] of the task [tid] while the pool takes
    work. *)
Definition enqueued_world (tid : nat) (w : World) : World :=
  update_task tid (with_future (Some (length (futures w))))
    (set_futures (fun fs => fs ++ [mkFuture tid PENDING])
       (update_task tid (with_state QUEUED) w)).

(** The world after the external run of [fid] has returned and its task
    [tid], touched meanwhile, was queued again. *)
Definition chained_world (fid tid : nat) (w : World) : World :=
  set_futures (alter (with_fstate FINISHED) fid) (enqueued_world tid w).

Definition touched_while_running : list action :=
  [Deliver (FileCreated "a.pdf"); Start; Tick 3000000; Resume 0;
   Tick 1000000; Deliver (FileModified "a.pdf")].

(** The runs of the external job that the history shows for a task. *)
Definition invocations (tid : nat) (h : list obs) : list Z :=
  omap (fun o => match o with
                 | Invoked tid' _ t => if decide (tid' = tid) then Some t
                                       else None
                 | _ => None
                 end) h.

(** The runs of the external job on a path. *)
Definition runs_on (p : string) (h : list obs) : list Z :=
  omap (fun o => match o with
                 | Invoked _ p' t => if decide (p' = p) then Some t else None
                 | _ => None
                 end) h.

Definition task_state (w : World) (tid : nat) : option TaskState :=
  state <$> tasks w !! tid.

Definition future_state (w : World) (fid : nat) : option FutureState :=
  fstate <$> futures w !! fid.

(** A file is created and the pool starts its job: the task is still
    QUEUED while its future runs. *)
Definition started : list action :=
  [Deliver (FileCreated "a.pdf"); Start].

(** The world after [cancel] of a QUEUED task of path [p]. *)
Definition cancelled_world (p : string) (tid fid : nat) (w : World) : World :=
  set_current_tasks (delete p)
    (update_task tid (with_state DONE)
       (set_futures (alter cancel_pending fid)
          (update_task tid (with_last_touch None)
             (record (Deleted p (now w)) w)))).

(** The delete of C3 followed by a new file of the same name, before the
    started job of the first task has made its first check. *)
Definition stale_done : list action :=
  [Deliver (FileCreated "a.pdf"); Start; Deliver (FileDeleted "a.pdf");
   Deliver (FileCreated "a.pdf"); Resume 0].

(** Nothing touches the task [tid], no future enters the external run,
    and the history shows no new run of [tid]. *)
Definition quiet (tid : nat) (w w' : World) : Prop :=
  (forall t, tasks w !! tid = Some t ->
     exists t', tasks w' !! tid = Some t' /\ path t' = path t
                /\ (last_touch t = None -> last_touch t' = None))
  /\ (forall fid f', futures w' !! fid = Some f' -> work f' = tid ->
        fstate f' = RUNNING InJob -> futures w !! fid = Some f')
  /\ invocations tid (history w') = invocations tid (history w).

(** An action that is no touch of the path [p]. *)
Definition avoids (p : string) (a : action) : Prop :=
  match a with
  | Deliver (FileCreated q) | Deliver (FileModified q)
  | Deliver (FileMoved _ q) => q <> p
  | _ => True
  end.

Definition calm (tid : nat) (w : World) : Prop :=
  (exists t, tasks w !! tid = Some t /\ last_touch t = None)
  /\ (forall fid f, futures w !! fid = Some f -> work f = tid ->
        fstate f <> RUNNING InJob).

Definition handled (w : World) : Prop :=
  forall p tid t, current_tasks w !! p = Some tid ->
    tasks w !! tid = Some t -> is_Some (future t).

(** No task loses its future or its path, no path enters the registry. *)
Definition kept (w w' : World) : Prop :=
  (forall tid t, tasks w !! tid = Some t ->
     exists t', tasks w' !! tid = Some t'
                /\ (is_Some (future t) -> is_Some (future t')))
  /\ (forall p tid, current_tasks w' !! p = Some tid ->
        current_tasks w !! p = Some tid).

(** A task that [cancel] can be called on: when it is QUEUED it holds a
    future and its path is registered for it. *)
Definition cancellable (w : World) (tid : nat) : Prop :=
  exists t, tasks w !! tid = Some t
    /\ (state t = QUEUED ->
        is_Some (future t) /\ current_tasks w !! path t = Some tid).

(** A worker of the task is in the coalescing loop. *)
Definition has_loop (w : World) (tid : nat) : Prop :=
  exists fid f wake, futures w !! fid = Some f /\ work f = tid
                     /\ fstate f = RUNNING (AtLoop wake).

(** What the state of the task [tid] asks of the pool. *)
Definition staffed (w : World) (tid : nat) : Prop :=
  forall t, tasks w !! tid = Some t ->
    (state t = SLEEPING -> has_loop w tid)
    /\ (state t = QUEUED -> pool_shutdown w = false -> has_live w tid).

Definition manned (w : World) : Prop := forall tid, staffed w tid.

(** All tasks but [tid]. *)
Definition manned_but (tid : nat) (w : World) : Prop :=
  forall tid', tid' <> tid -> staffed w tid'.

(** The futures of the tasks but [tid] are kept. *)
Definition keeps_but (tid : nat) (fs fs' : list Future) : Prop :=
  forall fid f, fs !! fid = Some f -> work f <> tid -> fs' !! fid = Some f.

(** A method of the object [tid]: it changes the task [tid] and futures
    of [tid], adds tasks that are not waiting and futures, and does not
    open the pool again. *)
Definition acts_on (tid : nat) (w w' : World) : Prop :=
  (forall tid' t', tid' <> tid -> tasks w' !! tid' = Some t' ->
     tasks w !! tid' = Some t')
  /\ keeps_but tid (futures w) (futures w')
  /\ (pool_shutdown w' = false -> pool_shutdown w = false).

(** The times at which [on_file_touched p] ran, newest first. *)
Definition touches (p : string) (h : list obs) : list Z :=
  omap (fun o => match o with
                 | Touched q t => if decide (q = p) then Some t else None
                 | _ => None
                 end) h.

(** Neither a delete of [p] nor a shutdown is in the history. *)
Definition undisturbed (p : string) (h : list obs) : Prop :=
  Forall (fun o => match o with
                   | Deleted q _ => q <> p
                   | ShuttingDown _ => False
                   | _ => True
                   end) h.

(** Each touch (newest first) is less than [delay] after the one before. *)
Fixpoint spaced (delay : Z) (ts : list Z) : Prop :=
  match ts with
  | t1 :: (t0 :: _) as rest => t1 - t0 < delay /\ spaced delay rest
  | _ => True
  end.

(** What does not concern the path [p] may change. *)
Definition apart (p : string) (w w' : World) : Prop :=
  (forall tid t, tasks w !! tid = Some t -> path t = p ->
     tasks w' !! tid = Some t)
  /\ (forall tid t', tasks w' !! tid = Some t' -> path t' = p ->
        tasks w !! tid = Some t')
  /\ current_tasks w' !! p = current_tasks w !! p
  /\ runs_on p (history w') = runs_on p (history w)
  /\ touches p (history w') = touches p (history w)
  /\ now w' = now w
  /\ pool_shutdown w' = pool_shutdown w.

(** The task [tid] is not a task of the path [p]. *)
Definition other (p : string) (tid : nat) (w : World) : Prop :=
  forall t, tasks w !! tid = Some t -> path t <> p.

(** The history only grows. *)
Definition extends (w w' : World) : Prop :=
  exists new, history w' = new ++ history w.

(** The only task of the path [p] is [tid]. *)
Definition owner (p : string) (tid : nat) (w : World) : Prop :=
  forall tid' t', tasks w !! tid' = Some t' -> path t' = p -> tid' = tid.

(** Waiting: no run yet, the task is registered and holds the last touch. *)
Definition waiting (p : string) (lt : Z) (tid : nat) (t : OcrTask)
  (w : World) : Prop :=
  runs_on p (history w) = [] /\ current_tasks w !! p = Some tid
  /\ last_touch t = Some lt /\ (state t = QUEUED \/ state t = SLEEPING).

(** Served: one run, not before the last touch plus the delay. *)
Definition served (p : string) (delay lt : Z) (tid : nat) (t : OcrTask)
  (w : World) : Prop :=
  exists r, runs_on p (history w) = [r] /\ lt + delay <= r /\ r <= now w
            /\ last_touch t = None
            /\ (current_tasks w !! p = Some tid \/ current_tasks w !! p = None).

Definition coalesced (p : string) (delay : Z) (w : World) : Prop :=
  pool_shutdown w = false
  /\ match touches p (history w) with
     | [] => runs_on p (history w) = [] /\ current_tasks w !! p = None
             /\ forall tid, other p tid w
     | lt :: _ =>
         exists tid t, tasks w !! tid = Some t /\ path t = p
                       /\ owner p tid w
                       /\ (waiting p lt tid t w \/ served p delay lt tid t w)
     end.

(** The run the claim is about: the path is touched at short intervals and
    is neither deleted nor shut down. *)
Definition burst (p : string) (delay : Z) (h : list obs) : Prop :=
  undisturbed p h /\ spaced delay (touches p h).

(** Steps of the clock and of the workers only. *)
Definition unattended (a : action) : Prop :=
  match a with
  | Tick _ | Start | Resume _ | JobExit _ _ => True
  | _ => False
  end.

(** Steps of the clock and of the workers in which every external job
    that ends has exit status 0. *)
Definition untroubled (a : action) : Prop :=
  match a with
  | Tick _ | Start | Resume _ => True
  | JobExit _ rc => rc = 0
  | _ => False
  end.

(** The pending work items in front of the item [n]. *)
Fixpoint ahead (n : nat) (fs : list Future) : nat :=
  match n, fs with
  | S n', f :: fs' => ((if is_pending f then 1 else 0) + ahead n' fs')%nat
  | _, _ => 0%nat
  end.

Definition ended (st : FutureState) : Prop :=
  st = FINISHED \/ exists e, st = RAISED e.

(** The wait that brings a sleeping worker to its run. *)
Definition wait_for (delay wake : Z) (tid : nat) (w : World) : Z :=
  let due := match tasks w !! tid with
             | Some t => match last_touch t with
                         | Some lt => lt + delay
                         | None => 0
                         end
             | None => 0
             end in
  Z.max 0 (Z.max wake due - now w).

(** A stored task stays stored, under its path. *)
Definition rooted (w w' : World) : Prop :=
  forall tid t, tasks w !! tid = Some t ->
    exists t', tasks w' !! tid = Some t' /\ path t' = path t.

(** A file that is created, deleted at once and created again while the
    worker of its first task has not made its first check, and then
    written once more a second later. *)
Definition rewritten : list action :=
  [Deliver (FileCreated "a.pdf"); Start; Deliver (FileDeleted "a.pdf");
   Deliver (FileCreated "a.pdf"); Resume 0;
   Tick 1000000; Deliver (FileModified "a.pdf");
   Start; Start; Tick 2000000; Resume 1; Resume 2;
   Tick 1000000; Resume 2].

(** A file written in two steps, one second apart. *)
Definition written_twice : list action :=
  [Deliver (FileCreated "a.pdf"); Tick 1000000;
   Deliver (FileModified "a.pdf")].

Definition same_service (w w' : World) : Prop :=
  observer w' = observer w /\ pool_shutdown w' = pool_shutdown w.

(** The pool is shut down only after the observer was stopped. *)
Definition attended (w : World) : Prop :=
  observer w = Some Watching -> pool_shutdown w = false.

(** A file that is deleted one second after it appeared, while the worker
    of its task sleeps. *)
Definition deleted_early : list action :=
  [Deliver (FileCreated "b.pdf"); Start; Resume 0; Tick 1000000].

(** The task [s] is ACTIVE and no work item of the pool, queued or
    running, is for it; [k] are the runs of the external job that the
    history shows for it. *)
Definition stranded (s : nat) (k : list Z) (w : World) : Prop :=
  task_state w s = Some ACTIVE
  /\ (forall fid f, futures w !! fid = Some f -> work f = s ->
        is_live f = false)
  /\ invocations s (history w) = k.

(** The world after the external run of the worker [fid] has raised. *)
Definition failed_world (fid : nat) (w : World) : World :=
  set_futures (alter (with_fstate (RAISED ProcessExecutionError)) fid) w.

(** [str.lower()]: the letters A-Z.  A character beyond ASCII is left as
    it is; Python lowers none of them to a letter of the words that
    [set_default_options] compares with. *)
Definition lower_ascii (c : Ascii.ascii) : Ascii.ascii :=
  let n := Ascii.nat_of_ascii c in
  if (65 <=? n)%nat && (n <=? 90)%nat then Ascii.ascii_of_nat (n + 32) else c.

Fixpoint lower (s : string) : string :=
  match s with
  | EmptyString => EmptyString
  | String c s' => String (lower_ascii c) (lower s')
  end.

(** [needle in hay] on two strings: [needle] occurs in [hay]. *)
Fixpoint contains (hay needle : string) : bool :=
  String.prefix needle hay
  || match hay with
     | EmptyString => false
     | String _ hay' => contains hay' needle
     end.

(** [looks_like_yes], lines 30-31. *)
Definition looks_like_yes (string : option string) : bool :=
  match string with
  | None => false
  | Some s => bool_decide (lower s ∈ ["1"; "y"; "yes"; "on"; "t"; "true"])
  end.

(** What [options] holds: a string of the environment, a path, a float. *)
Inductive option_value : Type :=
| Str (s : string)
| PathValue (p : string)
| Float (x : Q).

(** [options[k] = v] on a dict in insertion order: a key that is there
    keeps its place. *)
Fixpoint set_item {V : Type} (k : string) (v : V) (d : list (string * V))
  : list (string * V) :=
  match d with
  | [] => [(k, v)]
  | (k', v') :: d' =>
      if decide (k' = k) then (k, v) :: d' else (k', v') :: set_item k v d'
  end.

Section Defaults.
  (** [float(s)]: [None] when it raises ValueError. *)
Variable float : string -> option Q.
  (** [os.getenv]: [None] when the variable is not set. *)
Variable getenv : string -> option string.
  (** [LocalPath.with_suffix] of plumbum. *)
Variable with_suffix : string -> string -> string.

  (** [os.getenv(name, default)] *)
Definition getenv_or (name default_value : string) : string :=
    default default_value (getenv name).

Definition Options : Type := list (string * option option_value).

Definition set_language (o : Options) : Options :=
    match getenv "OCR_LANGUAGES" with
    | Some langs => set_item "--language" (Some (Str langs)) o
    | None => o
    end.

Definition set_sidecar (output_path : string) (o : Options) : Options :=
    if looks_like_yes (Some (getenv_or "OCR_GENERATE_SIDECAR" "0"))
    then set_item "--sidecar"
           (Some (PathValue (with_suffix output_path ".txt"))) o
    else o.

Definition set_jobs (o : Options) : Options :=
    set_item "--jobs" (Some (Str (getenv_or "OCR_CPUS_PER_JOB" "1"))) o.

Definition set_rotate (o : Options) : Options :=
    if looks_like_yes (Some (getenv_or "OCR_ROTATE" "0")) then
      let o := set_item "--rotate-pages" None o in
      match try_float float (getenv "OCR_ROTATE_CONFIDENCE") None with
      | Some x => set_item "--rotate-pages-threshold" (Some (Float x)) o
      | None => o
      end
    else o.

Definition set_deskew (o : Options) : Options :=
    if looks_like_yes (Some (getenv_or "OCR_DESKEW" "0"))
    then set_item "--deskew" None o else o.

  (** Lines 58-62; [('final')] is the string, so [in] looks for a
      substring. *)
Definition set_clean (o : Options) : Options :=
    let clean := getenv_or "OCR_CLEAN" "0" in
    if looks_like_yes (Some clean) then set_item "--clean" None o
    else if contains "final" (lower clean)
         then set_item "--clean-final" None o
         else o.

Definition set_skip_text (o : Options) : Options :=
    if looks_like_yes (Some (getenv_or "OCR_SKIP_TEXT" "0"))
    then set_item "--skip-text" None o else o.

  (** [set_default_options], lines 29-66, on the options so far. *)
Definition set_default_options (output_path : string) (o : Options)
    : Options :=
    set_skip_text
      (set_clean
         (set_deskew
            (set_rotate
               (set_jobs
                  (set_sidecar output_path
                     (set_language o)))))).

  (** [OcrmypdfConfig(input_path, output_path)]; [parse_config_file] is
      [pass]. *)
Definition OcrmypdfConfig_init (input_path output_path : string)
    : Config.OcrmypdfConfig option_value :=
    Config.mkConfig input_path output_path
      (set_default_options output_path []).

  (** The arguments that [process] passes to ocrmypdf, lines 171-173. *)
Definition ocrmypdf_arguments (input_path output_path : string)
    : list (Config.arg option_value) :=
    Config.get_ocrmypdf_arguments (OcrmypdfConfig_init input_path output_path).
End Defaults.

(** The keys that [set_default_options] can set, in the order of its
    assignments. *)
Definition option_keys : list string :=
  ["--language"; "--sidecar"; "--jobs"; "--rotate-pages";
   "--rotate-pages-threshold"; "--deskew"; "--clean"; "--clean-final";
   "--skip-text"].

(** Deciding by computation: [l1] is [l2] with some keys left out. *)
Fixpoint sublistb (l1 l2 : list string) : bool :=
  match l1, l2 with
  | [], _ => true
  | _, [] => false
  | x :: l1', y :: l2' =>
      if String.eqb x y then sublistb l1' l2' else sublistb l1 l2'
  end.

Definition memb (x : string) (l : list string) : bool :=
  existsb (String.eqb x) l.

Definition keys_ok (ks : list string) : bool :=
  sublistb ks option_keys
  && negb (memb "--clean" ks && memb "--clean-final" ks)
  && (negb (memb "--rotate-pages-threshold" ks) || memb "--rotate-pages" ks).

Definition same_uncaught (w w' : World) : Prop := uncaught w' = uncaught w.

Definition settled (w w' : World) : Prop :=
  forall fid f, futures w !! fid = Some f -> is_live f = false ->
    futures w' !! fid = Some f.

(** A file that is deleted before the pool has started its work item:
    the work item is cancelled, and the pool passes it by. *)
Definition deleted_at_once : list action :=
  [Deliver (FileCreated "a.pdf"); Deliver (FileDeleted "a.pdf")].

(** A finished task holds no touch. *)
Definition spent (w : World) : Prop :=
  forall tid t, tasks w !! tid = Some t -> state t = DONE ->
    last_touch t = None.

(** The finished tasks of [w] are in [w'] as they were. *)
Definition grave (w w' : World) : Prop :=
  forall tid t, tasks w !! tid = Some t -> state t = DONE ->
    last_touch t = None -> tasks w' !! tid = Some t.

Definition still (w w' : World) : Prop :=
  (spent w -> spent w') /\ grave w w'.

(** ** Proof automation for lookups in the store *)

Definition learnt (P : Prop) : Prop := True.

Ltac learn H :=
  let T := type of H in
  lazymatch goal with
  | _ : learnt T |- _ => fail
  | _ => pose proof H; assert (learnt T) by exact I
  end.

Ltac saturate w Hwf :=
  repeat match goal with
  | H : futures w !! ?i = Some ?f |- _ => learn (wf_fut w Hwf i f H)
  | H : current_tasks w !! ?p = Some ?t |- _ => learn (wf_reg w Hwf p t H)
  | H : tasks w !! ?i = Some ?t |- _ => learn (wf_new w Hwf i t H)
  | H : tasks w !! ?i = Some ?t, H' : future ?t = Some ?fid |- _ =>
      learn (wf_own w Hwf i t fid H H')
  | H1 : futures w !! ?i = Some ?f, H2 : futures w !! ?j = Some ?g |- _ =>
      learn (wf_one w Hwf i j f g H1 H2)
  | H : _ !! _ = Some _ |- _ => learn (lookup_lt_Some _ _ _ H)
  end.

Ltac lookups :=
  repeat match goal with
  | H : context [alter _ _ _ !! _] |- _ => rewrite list_lookup_alter in H
  | H : context [delete _ _ !! _] |- _ => rewrite lookup_delete in H
  | H : context [<[_:=_]> _ !! _] |- _ => rewrite lookup_insert in H
  | H : (_ ++ [_]) !! _ = Some _ |- _ => apply lookup_snoc_Some in H
  | H : _ <$> _ = Some _ |- _ => apply fmap_Some in H
  | H : ex _ |- _ => destruct H
  | H : _ /\ _ |- _ => destruct H
  | H : _ \/ _ |- _ => destruct H
  | |- context [alter _ _ _ !! _] => rewrite list_lookup_alter
  | |- context [(?l ++ [_]) !! length ?l] =>
      rewrite (list_lookup_middle l []) by done
  | |- context [(_ ++ [_]) !! _] => rewrite lookup_app
  | |- context [?l !! length ?l] =>
      rewrite (lookup_ge_None_2 l (length l)) by lia
  | |- context [(?n - ?n)%nat] => rewrite Nat.sub_diag
  | |- context [delete _ _ !! _] => rewrite lookup_delete
  | |- context [<[_:=_]> _ !! _] => rewrite lookup_insert
  | _ => case_decide; subst; simplify_eq
  | H : ?a = Some _ |- context [?a] => rewrite H
  end.

Ltac crush w Hwf :=
  intros; cbn in *; lookups; subst; simplify_eq;
  repeat (progress (cbn in *; saturate w Hwf); lookups; subst; simplify_eq);
  cbn in *;
  repeat match goal with
  | f : Future |- _ => destruct f as [? [| [?|] | | |]]; cbn in *
  end; simplify_eq; lookups; cbn in *;
  try solve [exfalso; congruence | exfalso; lia
            | naive_solver eauto with lia].

(** ** The methods keep worlds well formed *)

Lemma enqueue_open w tid t :
  tasks w !! tid = Some t -> state t = NEW \/ state t = ACTIVE ->
  pool_shutdown w = false ->
  enqueue tid w =
    (None, update_task tid (with_future (Some (length (futures w))))
             (set_futures (fun fs => fs ++ [mkFuture tid PENDING])
                (update_task tid (with_state QUEUED) w))).
Proof.
  intros Ht Hs Hp. unfold enqueue, on_task. rewrite Ht.
  rewrite bool_decide_eq_true_2 by done.
  unfold seq, modify, submit. cbn. by rewrite Hp.
Qed.

Lemma enqueue_shut w tid t :
  tasks w !! tid = Some t -> state t = NEW \/ state t = ACTIVE ->
  pool_shutdown w = true ->
  enqueue tid w = (Some RuntimeError, update_task tid (with_state QUEUED) w).
Proof.
  intros Ht Hs Hp. unfold enqueue, on_task. rewrite Ht.
  rewrite bool_decide_eq_true_2 by done.
  unfold seq, modify, submit. cbn. by rewrite Hp.
Qed.

Lemma done_eq w tid t :
  tasks w !! tid = Some t ->
  done tid w =
    match current_tasks w !! path t with
    | Some _ => (None, set_current_tasks (delete (path t))
                         (update_task tid (with_state DONE) w))
    | None => (Some KeyError, update_task tid (with_state DONE) w)
    end.
Proof.
  intros Ht. unfold done, seq, modify, on_task_done, on_task. cbn.
  rewrite list_lookup_alter_eq, Ht. cbn. by destruct (_ !! path t).
Qed.

Lemma wf_touch w tid t :
  wf w -> tasks w !! tid = Some t -> state t <> DONE ->
  touch tid w = (None, update_task tid (with_last_touch (Some (now w))) w)
  /\ wf (snd (touch tid w)).
Proof.
  intros Hwf Ht Hd. pose proof (wf_new w Hwf tid t Ht) as Hn.
  unfold touch, seq, modify, on_task; cbn.
  rewrite list_lookup_alter_eq, Ht; cbn.
  case_bool_decide; [done|]. cbn. split; [done|].
  split; crush w Hwf.
Qed.

Lemma wf_record w o : wf w -> wf (record o w).
Proof. intros Hwf. split; crush w Hwf. Qed.

Lemma wf_on_file_touched w p : wf w -> wf (snd (on_file_touched p w)).
Proof.
  intros Hwf. unfold on_file_touched, seq, modify; cbn -[touch OcrTask_init].
  destruct (current_tasks w !! p) as [tid|] eqn:Hr.
  - destruct (wf_reg w Hwf p tid Hr) as (t & Ht & _ & Hd).
    by destruct (wf_touch (record (Touched p (now w)) w) tid t
                   (wf_record _ _ Hwf) Ht Hd) as (_ & H).
  - unfold OcrTask_init, touch, seq, modify, on_task; cbn -[enqueue].
    rewrite list_lookup_alter_eq, list_lookup_middle by done.
    cbn -[enqueue]. rewrite bool_decide_eq_true_2 by done.
    destruct (pool_shutdown w) eqn:Hs.
    + rewrite (enqueue_shut _ _ (with_last_touch (Some (now w)) (OcrTask_new p)));
        [| by cbn; rewrite list_lookup_alter_eq, list_lookup_middle
         | by left | done].
      split; crush w Hwf.
    + rewrite (enqueue_open _ _ (with_last_touch (Some (now w)) (OcrTask_new p)));
        [| by cbn; rewrite list_lookup_alter_eq, list_lookup_middle
         | by left | done].
      split; crush w Hwf.
Qed.

Lemma wf_cancel w tid : wf w -> wf (snd (cancel tid w)).
Proof.
  intros Hwf. unfold cancel, seq, modify, on_task; cbn.
  rewrite list_lookup_alter_eq.
  destruct (tasks w !! tid) as [t|] eqn:Ht; cbn.
  2:{ split; crush w Hwf. }
  case_bool_decide as Hq; cbn in *.
  - destruct (future t) as [fid|] eqn:Hf; cbn.
    + unfold done, seq, modify, on_task_done, on_task; cbn.
      rewrite !list_lookup_alter_eq, Ht. cbn.
      destruct (current_tasks w !! path t) eqn:Hr; cbn.
      * split; crush w Hwf.
      * split; crush w Hwf.
    + split; crush w Hwf.
  - split; crush w Hwf.
Qed.

Lemma wf_same w w' :
  tasks w' = tasks w -> futures w' = futures w ->
  current_tasks w' = current_tasks w -> wf w -> wf w'.
Proof.
  intros Ht Hf Hr Hwf. split; rewrite ?Ht, ?Hf, ?Hr; apply Hwf.
Qed.

Lemma wf_on_file_deleted w p : wf w -> wf (snd (on_file_deleted p w)).
Proof.
  intros Hwf. unfold on_file_deleted, seq, modify; cbn -[cancel].
  destruct (current_tasks w !! p) as [tid|] eqn:Hr.
  - apply wf_cancel, wf_record, Hwf.
  - apply wf_record, Hwf.
Qed.

Lemma wf_dispatch w e : wf w -> wf (snd (dispatch e w)).
Proof.
  intros Hwf. destruct e; cbn -[on_file_deleted on_file_touched];
    auto using wf_on_file_deleted, wf_on_file_touched.
  unfold seq.
  pose proof (wf_on_file_deleted w src_path Hwf) as H.
  destruct (on_file_deleted src_path w) as [[e|] w1]; cbn in *; auto.
  by apply wf_on_file_touched.
Qed.

Lemma wf_outside m w : wf (snd (m w)) -> wf (outside m w).
Proof.
  unfold outside. destruct (m w) as [[e|] w1]; cbn; auto.
  apply wf_same; done.
Qed.

Lemma first_pending_Some fs fid :
  first_pending fs = Some fid ->
  exists f, fs !! fid = Some f /\ fstate f = PENDING.
Proof.
  revert fid. induction fs as [|f fs IH]; intros fid; cbn; [done|].
  unfold is_pending. destruct (fstate f) eqn:Hf.
  1:{ intros [= <-]. eauto. }
  all: intros H; apply fmap_Some in H; destruct H as (n & Hn & ->);
    destruct (IH n Hn) as (g & ? & ?); eauto.
Qed.

Lemma wf_start w fid f :
  wf w -> futures w !! fid = Some f -> fstate f = PENDING ->
  wf (set_futures (alter (with_fstate (RUNNING (AtLoop (now w)))) fid) w).
Proof. intros Hwf Hf Hp. split; crush w Hwf. Qed.

Lemma wf_resume delay w fid f wake :
  wf w -> futures w !! fid = Some f -> fstate f = RUNNING (AtLoop wake) ->
  wf (settle fid (process_loop delay (work f) w)).
Proof.
  intros Hwf Hf Hst.
  destruct (wf_fut w Hwf fid f Hf) as (t & Ht & Hok).
  rewrite Hst in Hok. cbn in Hok.
  unfold process_loop. rewrite Ht.
  destruct (last_touch t) as [lt|] eqn:Hlt.
  - destruct (lt + delay - now w <=? 0) eqn:Hdue; unfold settle; cbn.
    + split; crush w Hwf.
    + split; crush w Hwf.
  - rewrite (done_eq w (work f) t Ht).
    destruct (current_tasks w !! path t) eqn:Hr; unfold settle; cbn.
    + split; crush w Hwf.
    + split; crush w Hwf.
Qed.

Lemma wf_job_exit w fid f rc :
  wf w -> futures w !! fid = Some f -> fstate f = RUNNING InJob ->
  wf (settle fid (process_return (work f) rc w)).
Proof.
  intros Hwf Hf Hst.
  destruct (wf_fut w Hwf fid f Hf) as (t & Ht & Hok).
  rewrite Hst in Hok. cbn in Hok.
  unfold process_return. destruct (decide (rc = 0)) as [Hrc|Hrc].
  2:{ unfold settle; cbn. split; crush w Hwf. }
  rewrite Ht.
  destruct (last_touch t) as [lt|] eqn:Hlt.
  - destruct (pool_shutdown w) eqn:Hs.
    + rewrite (enqueue_shut w (work f) t) by auto. unfold settle; cbn.
      split; crush w Hwf.
    + rewrite (enqueue_open w (work f) t) by auto. unfold settle; cbn.
      split; crush w Hwf.
  - rewrite (done_eq w (work f) t Ht).
    destruct (current_tasks w !! path t) eqn:Hr; unfold settle; cbn.
    + split; crush w Hwf.
    + split; crush w Hwf.
Qed.

Lemma wf_for_each_cancel l w : wf w -> wf (snd (for_each cancel l w)).
Proof.
  revert w. induction l as [|tid l IH]; intros w Hwf; [done|].
  change (for_each cancel (tid :: l)) with (seq (cancel tid) (for_each cancel l)).
  unfold seq. pose proof (wf_cancel w tid Hwf) as H.
  destruct (cancel tid w) as [[e|] w1]; [exact H | apply IH, H].
Qed.

Lemma wf_shutdown_begin w : wf w -> wf (snd (shutdown_begin w)).
Proof.
  intros Hwf. unfold shutdown_begin, seq, modify. cbn -[for_each].
  set (w1 := match observer w with
             | Some _ => _ | None => _ end).
  assert (Hw1 : wf (snd w1)).
  { subst w1. destruct (observer w); cbn;
      [apply (wf_same (record (ShuttingDown (now w)) w)); try done|];
      by apply wf_record. }
  assert (Hn : fst w1 = None) by (subst w1; by destruct (observer w)).
  destruct w1 as [o w1]. cbn in Hn, Hw1. subst o.
  pose proof (wf_for_each_cancel
                (map snd (map_to_list (current_tasks w1))) w1 Hw1) as H.
  destruct (for_each _ _ _) as [[e|] w2]; cbn in *; auto.
  destruct (threadpool w2); cbn; auto.
  apply (wf_same w2); done.
Qed.

Lemma wf_shutdown_end w : wf w -> wf (snd (shutdown_end w)).
Proof.
  intros Hwf. unfold shutdown_end, seq, modify.
  destruct (threadpool w); cbn; destruct (observer w);
    apply (wf_same w); done.
Qed.

Lemma wf_init : wf AutoOcrScheduler_init.
Proof. split; cbn; intros *; rewrite ?lookup_empty, ?lookup_nil; done. Qed.

Lemma wf_step delay a w w' : wf w -> step delay a w = Some w' -> wf w'.
Proof.
  intros Hwf. destruct a; cbn -[dispatch shutdown_begin shutdown_end].
  - case_match; [|done]. intros [= <-]. revert Hwf. by apply wf_same.
  - destruct (observer w) as [[]|]; try done. intros [= <-].
    by apply wf_outside, wf_dispatch.
  - case_bool_decide; [|done].
    destruct (first_pending (futures w)) as [fid|] eqn:Hfp; [|done].
    cbn. intros [= <-].
    destruct (first_pending_Some _ _ Hfp) as (f & Hf & Hp).
    by eapply wf_start.
  - destruct (futures w !! fid) as [f|] eqn:Hf; [|done]. cbn.
    destruct (fstate f) as [|[wake|]| | |] eqn:Hst; try done.
    case_match; [|done]. intros [= <-]. by eapply wf_resume.
  - destruct (futures w !! fid) as [f|] eqn:Hf; [|done]. cbn.
    destruct (fstate f) as [|[wake|]| | |] eqn:Hst; try done.
    intros [= <-]. by eapply wf_job_exit.
  - destruct (pool_shutdown w); [done|]. intros [= <-].
    by apply wf_outside, wf_shutdown_begin.
  - case_match; [|done]. intros [= <-].
    by apply wf_outside, wf_shutdown_end.
Qed.

Lemma run_app delay a1 a2 w :
  run delay (a1 ++ a2) w = w' ← run delay a1 w; run delay a2 w'.
Proof.
  revert w. induction a1 as [|a a1 IH]; intros w; cbn; [done|].
  destruct (step delay a w); cbn; auto.
Qed.

Lemma wf_run delay acts w w' : wf w -> run delay acts w = Some w' -> wf w'.
Proof.
  revert w. induction acts as [|a acts IH]; intros w Hwf; cbn.
  - by intros [= <-].
  - destruct (step delay a w) as [w1|] eqn:Hs; [|done]. cbn.
    eauto using wf_step.
Qed.

Lemma wf_reachable delay w : reachable delay w -> wf w.
Proof. intros [acts H]. eapply wf_run; [apply wf_init | exact H]. Qed.

Lemma fold_append_option {value} (l : list (string * option value)) acc :
  fold_left Config.append_option l acc
  = acc ++ concat (map Config.rendered l).
Proof.
  revert acc. induction l as [|[k v] l IH]; intros acc; cbn.
  - by rewrite app_nil_r.
  - rewrite IH. unfold Config.append_option, Config.rendered. cbn.
    destruct v; cbn; by rewrite <- ?app_assoc.
Qed.

(** C10: the argument list is, for each option in turn, its key followed
    by its value unless the value is None, and then the input path and the
    output path as the last two elements. *)
Theorem get_ocrmypdf_arguments_layout {value}
  (c : Config.OcrmypdfConfig value) :
  Config.get_ocrmypdf_arguments c
  = concat (map Config.rendered (Config.options c))
    ++ [Config.Path (Config.input_path c); Config.Path (Config.output_path c)]
  /\ (2 <= length (Config.get_ocrmypdf_arguments c))%nat
  /\ Config.get_ocrmypdf_arguments c
       !! (length (Config.get_ocrmypdf_arguments c) - 2)%nat
     = Some (Config.Path (Config.input_path c))
  /\ Config.get_ocrmypdf_arguments c
       !! (length (Config.get_ocrmypdf_arguments c) - 1)%nat
     = Some (Config.Path (Config.output_path c)).
Proof.
  assert (E : Config.get_ocrmypdf_arguments c
    = concat (map Config.rendered (Config.options c))
      ++ [Config.Path (Config.input_path c);
          Config.Path (Config.output_path c)]).
  { unfold Config.get_ocrmypdf_arguments. rewrite fold_append_option. cbn.
    by rewrite <- app_assoc. }
  split; [exact E|]. rewrite E.
  set (pre := concat _). rewrite length_app. cbn.
  split; [lia|]. split.
  - rewrite lookup_app_r by lia.
    by replace (length pre + 2 - 2 - length pre)%nat with 0%nat by lia.
  - rewrite lookup_app_r by lia.
    by replace (length pre + 2 - 1 - length pre)%nat with 1%nat by lia.
Qed.

Example get_ocrmypdf_arguments_example :
  Config.get_ocrmypdf_arguments
    (Config.mkConfig "/input/a.pdf" "/output/a.pdf"
       [("--language", Some "deu"); ("--jobs", Some "1");
        ("--rotate-pages", None); ("--deskew", None)])
  = [Config.Opt "--language"; Config.Val "deu"; Config.Opt "--jobs";
     Config.Val "1"; Config.Opt "--rotate-pages"; Config.Opt "--deskew";
     Config.Path "/input/a.pdf"; Config.Path "/output/a.pdf"].
Proof. reflexivity. Qed.

(** ** Relations that every method keeps *)

Section Preserves.
Variable R : World -> World -> Prop.
Hypothesis R_refl : forall w, R w w.
Hypothesis R_trans : forall a b c, R a b -> R b c -> R a c.
Hypothesis R_state : forall tid v w,
    R w (update_task tid (with_state v) w).
Hypothesis R_future : forall tid fid w,
    R w (update_task tid (with_future (Some fid)) w).
Hypothesis R_untouch : forall tid w,
    R w (update_task tid (with_last_touch None) w).
Hypothesis R_touch : forall tid t w,
    R w (update_task tid (with_last_touch (Some t)) w).
Hypothesis R_tasks_new : forall t w, R w (set_tasks (fun ts => ts ++ [t]) w).
Hypothesis R_unregister : forall p w,
    R w (set_current_tasks (delete p) w).
Hypothesis R_register : forall p tid w,
    R w (set_current_tasks (insert p tid) w).
Hypothesis R_touched : forall p t w, R w (record (Touched p t) w).
Hypothesis R_deleted : forall p t w, R w (record (Deleted p t) w).
Hypothesis R_submit : forall tid w,
    R w (set_futures (fun fs => fs ++ [mkFuture tid PENDING]) w).
Hypothesis R_cancel : forall fid w,
    R w (set_futures (alter cancel_pending fid) w).

Lemma preserves_ret : preserves R ret.
  Proof. intros w. apply R_refl. Qed.

Lemma preserves_raise e : preserves R (raise e).
  Proof. intros w. apply R_refl. Qed.

Lemma preserves_modify f : (forall w, R w (f w)) -> preserves R (modify f).
  Proof. intros H w. apply H. Qed.

Lemma preserves_seq m1 m2 :
    preserves R m1 -> preserves R m2 -> preserves R (seq m1 m2).
  Proof.
    intros H1 H2 w. unfold seq. specialize (H1 w).
    destruct (m1 w) as [[e|] w1]; cbn in *; [done|].
    eapply R_trans; [exact H1 | apply H2].
  Qed.

Lemma preserves_on_task tid k :
    (forall t, preserves R (k t)) -> preserves R (on_task tid k).
  Proof.
    intros H w. unfold on_task. destruct (tasks w !! tid); [apply H|].
    apply R_refl.
  Qed.

Lemma preserves_enqueue tid : preserves R (enqueue tid).
  Proof.
    apply preserves_on_task. intros t. case_bool_decide.
    - apply preserves_seq; [apply preserves_modify, R_state|].
      intros w. unfold submit. destruct (pool_shutdown w); [apply R_refl|].
      cbn. eapply R_trans; [apply R_submit | apply R_future].
    - apply preserves_raise.
  Qed.

Lemma preserves_touch tid : preserves R (touch tid).
  Proof.
    apply preserves_seq.
    - intros w. apply R_touch.
    - apply preserves_on_task. intros t. case_bool_decide;
        [apply preserves_enqueue | apply preserves_ret].
  Qed.

Lemma preserves_done tid : preserves R (done tid).
  Proof.
    apply preserves_seq; [apply preserves_modify, R_state|].
    apply preserves_on_task. intros t w.
    destruct (current_tasks w !! path t); cbn;
      [apply R_unregister | apply R_refl].
  Qed.

Lemma preserves_cancel tid : preserves R (cancel tid).
  Proof.
    apply preserves_seq; [apply preserves_modify, R_untouch|].
    apply preserves_on_task. intros t. case_bool_decide.
    - destruct (future t); [|apply preserves_raise].
      apply preserves_seq; [|apply preserves_done].
      apply preserves_modify. intros w. apply R_cancel.
    - apply preserves_ret.
  Qed.

Lemma preserves_on_file_touched p : preserves R (on_file_touched p).
  Proof.
    apply preserves_seq.
    - intros w. apply R_touched.
    - intros w. destruct (current_tasks w !! p) eqn:Hr.
      + apply preserves_touch.
      + unfold OcrTask_init.
        apply (preserves_seq (modify _) (seq (touch _) (modify _))).
        * apply preserves_modify. intros w1. apply R_tasks_new.
        * apply preserves_seq; [apply preserves_touch|].
          apply preserves_modify. intros w1. apply R_register.
  Qed.

Lemma preserves_on_file_deleted p : preserves R (on_file_deleted p).
  Proof.
    apply preserves_seq.
    - intros w. apply R_deleted.
    - intros w. destruct (current_tasks w !! p) eqn:Hr.
      + apply preserves_cancel.
      + apply R_refl.
  Qed.

Lemma preserves_dispatch e : preserves R (dispatch e).
  Proof.
    destruct e; cbn;
      auto using preserves_seq, preserves_on_file_touched,
        preserves_on_file_deleted.
  Qed.

Lemma preserves_for_each f l :
    (forall x, preserves R (f x)) -> preserves R (for_each f l).
  Proof.
    intros H. induction l as [|x l IH]; [apply preserves_ret|].
    apply (preserves_seq (f x) (for_each f l)); auto.
  Qed.
End Preserves.

Section PreservesShutdown.
Variable R : World -> World -> Prop.
Hypothesis R_refl : forall w, R w w.
Hypothesis R_trans : forall a b c, R a b -> R b c -> R a c.
Hypothesis R_shutting : forall t w, R w (record (ShuttingDown t) w).
Hypothesis R_observer : forall o w, R w (set_observer o w).
Hypothesis R_shut : forall b w, R w (set_pool_shutdown b w).
Hypothesis R_threadpool : forall b w, R w (set_threadpool b w).
Hypothesis R_cancel_task : forall tid, preserves R (cancel tid).

Lemma preserves_shutdown_begin : preserves R shutdown_begin.
  Proof.
    unfold shutdown_begin.
    repeat apply preserves_seq; auto.
    - intros w. apply R_shutting.
    - intros w. destruct (observer w); [apply R_observer | apply R_refl].
    - intros w. by apply preserves_for_each.
    - intros w. destruct (threadpool w); [apply R_shut | apply R_refl].
  Qed.

Lemma preserves_shutdown_end : preserves R shutdown_end.
  Proof.
    unfold shutdown_end. apply preserves_seq; auto.
    - intros w. destruct (threadpool w); [apply R_threadpool | apply R_refl].
    - intros w. destruct (observer w); [apply R_observer | apply R_refl].
  Qed.

Lemma preserves_outside m w : preserves R m ->
    (forall e w, R w (set_uncaught (cons e) w)) -> R w (outside m w).
  Proof.
    intros H Hu. unfold outside. specialize (H w).
    destruct (m w) as [[e|] w1]; cbn in *; [|done].
    eapply R_trans; [exact H | apply Hu].
  Qed.
End PreservesShutdown.

(** ** The pool never runs more than [max_workers] futures *)

Arguments running : simpl never.

Lemma running_cons f fs :
  running (f :: fs) = ((if is_running f then 1 else 0) + running fs)%nat.
Proof.
  unfold running. rewrite filter_cons.
  destruct (is_running f); by case_decide.
Qed.

Lemma running_snoc fs x :
  running (fs ++ [x]) = (running fs + if is_running x then 1 else 0)%nat.
Proof.
  induction fs as [|f fs IH]; cbn [app]; rewrite !running_cons;
    [unfold running; cbn; lia | rewrite IH; lia].
Qed.

Lemma running_lookup fs i f :
  fs !! i = Some f -> is_running f = true -> (1 <= running fs)%nat.
Proof.
  revert i. induction fs as [|a fs IH]; intros [|i] Hf Hr; try done;
    rewrite running_cons.
  - cbn in Hf. simplify_eq. rewrite Hr. lia.
  - specialize (IH i Hf Hr). lia.
Qed.

Lemma running_alter g i fs :
  running (alter g i fs)
  = match fs !! i with
    | Some f =>
        (running fs + (if is_running (g f) then 1 else 0)
         - (if is_running f then 1 else 0))%nat
    | None => running fs
    end.
Proof.
  revert i. induction fs as [|f fs IH]; intros [|i]; try done.
  - change (alter g 0%nat (f :: fs)) with (g f :: fs).
    change ((f :: fs) !! 0%nat) with (Some f).
    rewrite !running_cons.
    destruct (is_running (g f)), (is_running f); lia.
  - change (alter g (S i) (f :: fs)) with (f :: alter g i fs).
    change ((f :: fs) !! S i) with (fs !! i).
    rewrite !running_cons, IH.
    destruct (fs !! i) as [f'|] eqn:Hf; [|done].
    pose proof (running_lookup fs i f' Hf).
    destruct (is_running (g f')), (is_running f'); lia.
Qed.

Lemma same_pool_trans a b c : same_pool a b -> same_pool b c -> same_pool a c.
Proof.
  unfold same_pool. intros (?&?&H1) (?&?&H2).
  repeat split; [congruence..|]. eauto.
Qed.

Lemma same_pool_submit tid w :
  same_pool w (set_futures (fun fs => fs ++ [mkFuture tid PENDING]) w).
Proof.
  repeat split; [|cbn; intros; by apply lookup_app_l_Some].
  cbn. rewrite running_snoc. cbn. lia.
Qed.

Lemma same_pool_cancel fid w :
  same_pool w (set_futures (alter cancel_pending fid) w).
Proof.
  repeat split; cbn.
  - rewrite running_alter.
    destruct (futures w !! fid) as [[tid []]|]; cbn; lia.
  - intros fid' f Hf Hr. rewrite list_lookup_alter. case_decide; [|done].
    subst. rewrite Hf. cbn. unfold cancel_pending.
    by destruct f as [? []].
Qed.

Lemma same_pool_refl w : same_pool w w.
Proof. done. Qed.

Ltac same_pool_side :=
  first [ done | apply same_pool_trans | apply same_pool_submit
        | apply same_pool_cancel ].

Lemma same_pool_done tid : preserves same_pool (done tid).
Proof. apply preserves_done; same_pool_side. Qed.

Lemma same_pool_enqueue tid : preserves same_pool (enqueue tid).
Proof. apply preserves_enqueue; same_pool_side. Qed.

Lemma same_pool_cancel_task tid : preserves same_pool (cancel tid).
Proof. apply preserves_cancel; same_pool_side. Qed.

Lemma same_pool_dispatch e : preserves same_pool (dispatch e).
Proof. apply preserves_dispatch; same_pool_side. Qed.

Lemma same_pool_shutdown_begin : preserves same_pool shutdown_begin.
Proof.
  apply preserves_shutdown_begin; try same_pool_side.
  apply same_pool_cancel_task.
Qed.

Lemma same_pool_shutdown_end : preserves same_pool shutdown_end.
Proof. apply preserves_shutdown_end; same_pool_side. Qed.

Lemma pool_bounded_same w w' : same_pool w w' -> pool_bounded w ->
  pool_bounded w'.
Proof. unfold same_pool, pool_bounded. intros (-> & -> & _). done. Qed.

Lemma same_pool_loop delay tid w :
  same_pool w (snd (process_loop delay tid w)).
Proof.
  unfold process_loop. destruct (tasks w !! tid) as [t|]; [|done].
  destruct (last_touch t) as [lt|].
  - case_match; done.
  - pose proof (same_pool_done tid w) as H.
    unfold finish. by destruct (done tid w) as [[e|] w1].
Qed.

Lemma same_pool_return tid rc w :
  same_pool w (snd (process_return tid rc w)).
Proof.
  unfold process_return. destruct (decide (rc = 0)) as [Hrc|Hrc];
    [|done]. destruct (tasks w !! tid) as [t|]; [|done].
  destruct (last_touch t) as [lt|].
  - pose proof (same_pool_enqueue tid w) as H.
    unfold finish. by destruct (enqueue tid w) as [[e|] w1].
  - pose proof (same_pool_done tid w) as H.
    unfold finish. by destruct (done tid w) as [[e|] w1].
Qed.

Lemma pool_bounded_settle fid f r w :
  futures w !! fid = Some f -> is_running f = true ->
  same_pool w (snd r) -> pool_bounded w -> pool_bounded (settle fid r).
Proof.
  intros Hf Hr (Hm & Hrun & Hk) [H3 Hle]. unfold settle, pool_bounded. cbn.
  rewrite running_alter, Hm, Hrun. split; [done|].
  rewrite (Hk fid f Hf Hr), Hr.
  destruct (is_running (with_fstate _ f)); lia.
Qed.

Lemma pool_bounded_step delay a w w' :
  pool_bounded w -> step delay a w = Some w' -> pool_bounded w'.
Proof.
  intros Hb. destruct a; cbn -[dispatch shutdown_begin shutdown_end].
  - case_match; [|done]. by intros [= <-].
  - destruct (observer w) as [[]|]; try done. intros [= <-].
    eapply pool_bounded_same; [|exact Hb].
    apply preserves_outside; try same_pool_side.
    apply same_pool_dispatch.
  - case_bool_decide as Hlt; [|done].
    destruct (first_pending (futures w)) as [fid|] eqn:Hfp; [|done].
    cbn. intros [= <-].
    destruct (first_pending_Some _ _ Hfp) as (f & Hf & Hp).
    destruct Hb as [H3 Hle]. split; [done|]. cbn.
    rewrite running_alter, Hf. unfold is_running at 2. rewrite Hp. cbn.
    change (running (futures w) < max_workers w)%nat in Hlt. cbn. lia.
  - destruct (futures w !! fid) as [f|] eqn:Hf; [|done]. cbn.
    destruct (fstate f) as [|[wake|]| | |] eqn:Hst; try done.
    case_match; [|done]. intros [= <-].
    eapply pool_bounded_settle; eauto using same_pool_loop.
    unfold is_running. by rewrite Hst.
  - destruct (futures w !! fid) as [f|] eqn:Hf; [|done]. cbn.
    destruct (fstate f) as [|[wake|]| | |] eqn:Hst; try done.
    intros [= <-].
    eapply pool_bounded_settle; eauto using same_pool_return.
    unfold is_running. by rewrite Hst.
  - destruct (pool_shutdown w); [done|]. intros [= <-].
    eapply pool_bounded_same; [|exact Hb].
    apply preserves_outside; try same_pool_side.
    apply same_pool_shutdown_begin.
  - case_match; [|done]. intros [= <-].
    eapply pool_bounded_same; [|exact Hb].
    apply preserves_outside; try same_pool_side.
    apply same_pool_shutdown_end.
Qed.

Lemma pool_bounded_reachable delay w : reachable delay w -> pool_bounded w.
Proof.
  intros [acts H]. revert H.
  assert (Hi : pool_bounded AutoOcrScheduler_init) by (split; unfold running; cbn; lia).
  revert Hi. generalize AutoOcrScheduler_init as w0. revert w.
  induction acts as [|a acts IH]; intros w w0 Hi; cbn.
  - by intros [= <-].
  - destruct (step delay a w0) as [w1|] eqn:Hs; [|done]. cbn.
    eauto using pool_bounded_step.
Qed.

Lemma in_job_le_running fs : (in_job fs <= running fs)%nat.
Proof.
  unfold in_job. induction fs as [|f fs IH]; [unfold running; cbn; lia|].
  rewrite running_cons, filter_cons.
  case_decide as H; cbn; [|lia]. unfold is_running. rewrite H. lia.
Qed.

(** C8 (as amended): the pool has exactly three workers, whatever the
    configuration, and in every reachable world at most three futures run
    and at most three external jobs execute at once. *)
Theorem pool_runs_at_most_three_jobs (delay : Z) (w : World) :
  reachable delay w ->
  max_workers w = 3%nat
  /\ (running_count w <= 3)%nat
  /\ (in_job (futures w) <= 3)%nat.
Proof.
  intros Hr. destruct (pool_bounded_reachable delay w Hr) as [H3 Hle].
  pose proof (in_job_le_running (futures w)).
  change (running_count w) with (running (futures w)).
  repeat split; lia.
Qed.

(** C8 as stated fails: no configuration gives a pool of another size. *)
Lemma pool_size_is_not_configurable :
  ~ exists (delay : Z) (w : World),
      reachable delay w /\ max_workers w <> 3%nat.
Proof.
  intros (delay & w & Hr & Hne).
  by destruct (pool_bounded_reachable delay w Hr).
Qed.

Lemma reachable_world_after delay acts :
  is_Some (run delay acts AutoOcrScheduler_init) ->
  reachable delay (world_after delay acts).
Proof. intros [w H]. exists acts. unfold world_after. by rewrite H. Qed.

Lemma pool_runs_at_most_three_jobs_witness :
  in_job (futures (world_after 3000000 four_files)) = 3%nat
  /\ step 3000000 Start (world_after 3000000 four_files) = None
  /\ (max_workers (world_after 3000000 four_files) = 3%nat
      /\ (running_count (world_after 3000000 four_files) <= 3)%nat
      /\ (in_job (futures (world_after 3000000 four_files)) <= 3)%nat).
Proof.
  split; [vm_compute; reflexivity|]. split; [vm_compute; reflexivity|].
  apply (pool_runs_at_most_three_jobs 3000000).
  apply reachable_world_after. vm_compute. eauto.
Defined.

Lemma world_eq (a b : World) :
  now a = now b -> tasks a = tasks b -> futures a = futures b ->
  max_workers a = max_workers b -> pool_shutdown a = pool_shutdown b ->
  current_tasks a = current_tasks b -> threadpool a = threadpool b ->
  observer a = observer b -> uncaught a = uncaught b ->
  history a = history b -> a = b.
Proof. destruct a, b; cbn; intros; by subst. Qed.

(** ** The assertion of [enqueue] *)

Lemma never_asserts_seq m1 m2 :
  never_asserts m1 -> never_asserts m2 -> never_asserts (seq m1 m2).
Proof.
  intros H1 H2 w. unfold seq. specialize (H1 w).
  destruct (m1 w) as [[e|] w1]; [done|]. apply H2.
Qed.

Lemma never_asserts_done tid : never_asserts (done tid).
Proof.
  intros w. unfold done, seq, modify, on_task_done, on_task. cbn.
  destruct (_ !! tid); [|done]. by destruct (_ !! path _).
Qed.

Lemma never_asserts_cancel tid : never_asserts (cancel tid).
Proof.
  intros w. unfold cancel, seq, modify, on_task. cbn.
  destruct (_ !! tid) as [t|]; [|done]. case_bool_decide; [|done].
  destruct (future t); [|done]. unfold future_cancel, modify.
  apply never_asserts_done.
Qed.

Lemma enqueue_asserts tid w :
  fst (enqueue tid w) = Some AssertionError <->
  exists t, tasks w !! tid = Some t /\ state t <> NEW /\ state t <> ACTIVE.
Proof.
  unfold enqueue, on_task. destruct (tasks w !! tid) as [t|] eqn:Ht.
  - case_bool_decide as Hs.
    + unfold seq, modify, submit. cbn.
      destruct (pool_shutdown w); cbn; naive_solver.
    + cbn. naive_solver.
  - cbn. naive_solver.
Qed.

Lemma never_asserts_touch tid : never_asserts (touch tid).
Proof.
  intros w. unfold touch, seq, modify, on_task. cbn.
  destruct (_ !! tid) as [t|] eqn:Ht; [|done].
  case_bool_decide as Hs; [|done].
  intros (t' & Ht' & Hn & _)%enqueue_asserts. cbn in Ht'. congruence.
Qed.

Lemma never_asserts_on_file_touched p : never_asserts (on_file_touched p).
Proof.
  apply never_asserts_seq; [done|]. intros w.
  destruct (current_tasks w !! p); [apply never_asserts_touch|].
  unfold OcrTask_init.
  apply (never_asserts_seq (modify _) (seq (touch _) (modify _))); [done|].
  apply never_asserts_seq; [apply never_asserts_touch | done].
Qed.

Lemma never_asserts_on_file_deleted p : never_asserts (on_file_deleted p).
Proof.
  apply never_asserts_seq; [done|]. intros w.
  destruct (current_tasks w !! p); [apply never_asserts_cancel | done].
Qed.

Lemma never_asserts_dispatch e : never_asserts (dispatch e).
Proof.
  destruct e; cbn;
    auto using never_asserts_seq, never_asserts_on_file_touched,
      never_asserts_on_file_deleted.
Qed.

Lemma never_asserts_for_each_cancel l : never_asserts (for_each cancel l).
Proof.
  induction l as [|x l IH]; [done|].
  apply (never_asserts_seq (cancel x) (for_each cancel l));
    auto using never_asserts_cancel.
Qed.

Lemma never_asserts_shutdown_begin : never_asserts shutdown_begin.
Proof.
  unfold shutdown_begin. repeat apply never_asserts_seq; try done.
  - intros w. by destruct (observer w).
  - intros w. apply never_asserts_for_each_cancel.
  - intros w. by destruct (threadpool w).
Qed.

Lemma never_asserts_shutdown_end : never_asserts shutdown_end.
Proof.
  unfold shutdown_end. apply never_asserts_seq.
  - intros w. by destruct (threadpool w).
  - intros w. by destruct (observer w).
Qed.

Lemma no_new_assert_refl w : no_new_assert w w.
Proof. split; eauto. Qed.

Lemma no_new_assert_trans a b c :
  no_new_assert a b -> no_new_assert b c -> no_new_assert a c.
Proof.
  intros [H1 E1] [H2 E2]. split; [|congruence].
  intros fid f' Hf Ha. destruct (H2 fid f' Hf Ha) as (g & Hg & Hga). eauto.
Qed.

Lemma no_new_assert_submit tid w :
  no_new_assert w (set_futures (fun fs => fs ++ [mkFuture tid PENDING]) w).
Proof.
  split; [|done]. cbn. intros fid f' Hf Ha.
  apply lookup_snoc_Some in Hf. destruct Hf as [[_ Hf]|[_ <-]]; [eauto|done].
Qed.

Lemma no_new_assert_cancel fid w :
  no_new_assert w (set_futures (alter cancel_pending fid) w).
Proof.
  split; [|done]. cbn. intros fid' f' Hf Ha.
  rewrite list_lookup_alter in Hf. case_decide; [|eauto]. subst.
  apply fmap_Some in Hf. destruct Hf as (f & Hf & ->). exists f.
  split; [done|]. unfold cancel_pending, asserted in *.
  by destruct f as [? []].
Qed.

Ltac no_new_assert_side :=
  first [ by split; eauto | apply no_new_assert_trans
        | apply no_new_assert_submit | apply no_new_assert_cancel ].

Lemma no_assert_next w w' :
  no_new_assert w w' -> no_assert w -> no_assert w'.
Proof.
  intros [H E] [Hf Hu]. split; [|by rewrite E].
  intros fid f' Hl Ha. destruct (H fid f' Hl Ha) as (f & ? & ?).
  by eapply Hf.
Qed.

Lemma no_assert_outside m w :
  preserves no_new_assert m -> never_asserts m ->
  no_assert w -> no_assert (outside m w).
Proof.
  intros Hp Hn Hw. unfold outside. specialize (Hp w). specialize (Hn w).
  destruct (m w) as [[e|] w1]; cbn in *; [|by eapply no_assert_next].
  destruct (no_assert_next _ _ Hp Hw) as [Hf Hu]. split; [done|].
  cbn. rewrite elem_of_cons. intros [?|]; [congruence|done].
Qed.

Lemma no_assert_settle fid r w :
  no_new_assert w (snd r) -> fst r <> Raises AssertionError ->
  no_assert w -> no_assert (settle fid r).
Proof.
  intros Hp Hn Hw. destruct (no_assert_next _ _ Hp Hw) as [Hf Hu].
  split; [|done]. unfold settle. cbn. intros fid' f' Hl Ha.
  rewrite list_lookup_alter in Hl. case_decide; [|by eapply Hf].
  subst. apply fmap_Some in Hl. destruct Hl as (f & Hl & ->).
  unfold asserted in Ha. cbn in Ha.
  destruct (fst r) as [|e|]; simplify_eq.
Qed.

Lemma finish_fst r e : fst (finish r) = Raises e <-> fst r = Some e.
Proof. destruct r as [[e'|] w]; cbn; naive_solver. Qed.

Lemma finish_snd r : snd (finish r) = snd r.
Proof. by destruct r as [[e'|] w]. Qed.

Lemma no_assert_step delay a w w' :
  wf w -> no_assert w -> step delay a w = Some w' -> no_assert w'.
Proof.
  intros Hwf Hn. destruct a; cbn -[dispatch shutdown_begin shutdown_end].
  - case_match; [|done]. by intros [= <-].
  - destruct (observer w) as [[]|]; try done. intros [= <-].
    apply no_assert_outside; auto using never_asserts_dispatch.
    apply preserves_dispatch; no_new_assert_side.
  - case_bool_decide as Hlt; [|done].
    destruct (first_pending (futures w)) as [fid|] eqn:Hfp; [|done].
    cbn. intros [= <-]. destruct Hn as [Hf Hu]. split; [|done]. cbn.
    intros fid' f' Hl Ha. rewrite list_lookup_alter in Hl.
    case_decide; [|by eapply Hf]. subst.
    apply fmap_Some in Hl. by destruct Hl as (f & Hl & ->).
  - destruct (futures w !! fid) as [f|] eqn:Hf; [|done]. cbn.
    destruct (fstate f) as [|[wake|]| | |] eqn:Hst; try done.
    case_match; [|done]. intros [= <-].
    destruct (wf_fut w Hwf fid f Hf) as (t & Ht & _).
    apply (no_assert_settle _ _ w); auto; unfold process_loop; rewrite Ht;
      destruct (last_touch t).
    + case_match; by split; eauto.
    + rewrite finish_snd. apply preserves_done; no_new_assert_side.
    + by case_match.
    + rewrite finish_fst. apply never_asserts_done.
  - destruct (futures w !! fid) as [f|] eqn:Hf; [|done]. cbn.
    destruct (fstate f) as [|[wake|]| | |] eqn:Hst; try done.
    intros [= <-].
    destruct (wf_fut w Hwf fid f Hf) as (t & Ht & Hok).
    rewrite Hst in Hok. cbn in Hok.
    unfold process_return. destruct (decide (rc = 0)) as [Hrc|Hrc];
      [|apply (no_assert_settle _ _ w); auto using no_new_assert_refl].
    apply (no_assert_settle _ _ w); auto; rewrite Ht;
      destruct (last_touch t).
    + rewrite finish_snd. apply preserves_enqueue; no_new_assert_side.
    + rewrite finish_snd. apply preserves_done; no_new_assert_side.
    + rewrite finish_fst, enqueue_asserts. intros (t' & ? & ? & ?).
      congruence.
    + rewrite finish_fst. apply never_asserts_done.
  - destruct (pool_shutdown w); [done|]. intros [= <-].
    apply no_assert_outside; auto using never_asserts_shutdown_begin.
    apply preserves_shutdown_begin; try no_new_assert_side.
    apply preserves_cancel; no_new_assert_side.
  - case_match; [|done]. intros [= <-].
    apply no_assert_outside; auto using never_asserts_shutdown_end.
    apply preserves_shutdown_end; no_new_assert_side.
Qed.

Lemma no_assert_run delay acts w w' :
  wf w -> no_assert w -> run delay acts w = Some w' -> no_assert w'.
Proof.
  revert w. induction acts as [|a acts IH]; intros w Hwf Hn; cbn.
  - by intros [= <-].
  - destruct (step delay a w) as [w1|] eqn:Hs; [|done]. cbn.
    eauto using no_assert_step, wf_step.
Qed.

Lemma no_assert_init : no_assert AutoOcrScheduler_init.
Proof. split; cbn; [by intros ?? [=]%lookup_nil_Some || done|]. by intros ?%elem_of_nil. Qed.

(** C7: in every reachable world no assertion of [enqueue] has failed, in
    a worker or outside; the call at the end of [process] finds the task
    ACTIVE (the call in [touch] is guarded by NEW); and [enqueue] on a NEW
    or ACTIVE task sets it to QUEUED and submits one pending future for it
    to the pool. *)
Theorem enqueue_assertion_never_fails (delay : Z) (w : World) :
  reachable delay w ->
  (forall fid f, futures w !! fid = Some f ->
     fstate f <> RAISED AssertionError)
  /\ AssertionError ∉ uncaught w
  /\ (forall fid f, futures w !! fid = Some f -> fstate f = RUNNING InJob ->
        exists t, tasks w !! work f = Some t /\ state t = ACTIVE)
  /\ (forall a w', step delay a w = Some w' ->
        (forall fid f, futures w' !! fid = Some f ->
           fstate f <> RAISED AssertionError)
        /\ AssertionError ∉ uncaught w')
  /\ (forall tid t, tasks w !! tid = Some t ->
        state t = NEW \/ state t = ACTIVE -> pool_shutdown w = false ->
        enqueue tid w = (None, enqueued_world tid w)
        /\ tasks (enqueued_world tid w) !! tid
           = Some (mkTask (path t) (last_touch t)
                     (Some (length (futures w))) QUEUED)
        /\ futures (enqueued_world tid w)
           = futures w ++ [mkFuture tid PENDING]).
Proof.
  intros Hr. pose proof (wf_reachable delay w Hr) as Hwf.
  assert (Hn : no_assert w).
  { destruct Hr as [acts Hr].
    exact (no_assert_run delay acts _ w wf_init no_assert_init Hr). }
  destruct Hn as [Hf Hu]. repeat split; auto.
  - intros fid f Hl Hst. destruct (wf_fut w Hwf fid f Hl) as (t & Ht & Hok).
    rewrite Hst in Hok. eauto.
  - intros fid f Hl. eapply (no_assert_step delay a w w'); eauto. by split.
  - eapply (no_assert_step delay a w w'); eauto. by split.
  - by apply (enqueue_open w tid t).
  - unfold enqueued_world. cbn.
    rewrite !list_lookup_alter_eq, H. by destruct t.
Qed.

Lemma enqueue_assertion_never_fails_witness :
  let w := world_after 3000000 job_running in
  (forall fid f, futures w !! fid = Some f ->
     fstate f <> RAISED AssertionError)
  /\ AssertionError ∉ uncaught w
  /\ (forall fid f, futures w !! fid = Some f -> fstate f = RUNNING InJob ->
        exists t, tasks w !! work f = Some t /\ state t = ACTIVE)
  /\ (forall a w', step 3000000 a w = Some w' ->
        (forall fid f, futures w' !! fid = Some f ->
           fstate f <> RAISED AssertionError)
        /\ AssertionError ∉ uncaught w')
  /\ (forall tid t, tasks w !! tid = Some t ->
        state t = NEW \/ state t = ACTIVE -> pool_shutdown w = false ->
        enqueue tid w = (None, enqueued_world tid w)
        /\ tasks (enqueued_world tid w) !! tid
           = Some (mkTask (path t) (last_touch t)
                     (Some (length (futures w))) QUEUED)
        /\ futures (enqueued_world tid w)
           = futures w ++ [mkFuture tid PENDING]).
Proof.
  intros w. apply (enqueue_assertion_never_fails 3000000).
  apply reachable_world_after. vm_compute. eauto.
Defined.

(** C3 as stated fails: cancelled in that window, the task does not go on
    as if it had not been cancelled; the external job, which runs once
    without the delete, does not run at all. *)
Lemma cancel_after_start_is_not_ignored :
  let w := world_after 3000000 started in
  task_state w 0 = Some QUEUED
  /\ future_state w 0 = Some (RUNNING (AtLoop 0))
  /\ (runs_on "a.pdf" ∘ history
      <$> run 3000000 [Tick 3000000; Resume 0; JobExit 0 0] w)
     = Some [3000000]
  /\ (runs_on "a.pdf" ∘ history
      <$> run 3000000 [Deliver (FileDeleted "a.pdf"); Tick 3000000; Resume 0] w)
     = Some []
  /\ run 3000000 [Deliver (FileDeleted "a.pdf"); Tick 3000000; Resume 0;
                  JobExit 0 0] w = None.
Proof. vm_compute. repeat split; reflexivity. Qed.

(** C3 (as amended): a delete that reaches a QUEUED task whose job the
    pool has already started cannot cancel the future, but the cancel
    takes effect all the same: the task goes to DONE at once and leaves
    the registry, and the started job, at its first check, finds
    last_touch cleared and ends without running the external job. *)
Theorem cancel_after_start_still_cancels (delay : Z) (w : World)
  (p : string) (tid fid : nat) (t : OcrTask) (f : Future) (wake : Z) :
  wf w -> observer w = Some Watching ->
  current_tasks w !! p = Some tid -> tasks w !! tid = Some t ->
  state t = QUEUED -> future t = Some fid ->
  futures w !! fid = Some f -> fstate f = RUNNING (AtLoop wake) ->
  wake <= now w ->
  step delay (Deliver (FileDeleted p)) w
    = Some (cancelled_world p tid fid w)
  /\ tasks (cancelled_world p tid fid w) !! tid
     = Some (mkTask p None (Some fid) DONE)
  /\ current_tasks (cancelled_world p tid fid w) !! p = None
  /\ futures (cancelled_world p tid fid w) !! fid = Some f
  /\ exists w2,
       step delay (Resume fid) (cancelled_world p tid fid w) = Some w2
       /\ runs_on p (history w2) = runs_on p (history w)
       /\ history w2 = Deleted p (now w) :: history w
       /\ tasks w2 !! tid = Some (mkTask p None (Some fid) DONE)
       /\ current_tasks w2 !! p = None
       /\ (is_live <$> futures w2 !! fid) = Some false.
Proof.
  intros Hwf Hobs Hr Ht Hq Hfut Hf Hst Hwake.
  destruct (wf_reg w Hwf p tid Hr) as (t0 & Ht0 & Hp & _).
  assert (t0 = t) as -> by congruence.
  destruct (wf_own w Hwf tid t fid Ht Hfut) as (f0 & Hf0 & Hw).
  assert (f0 = f) as -> by congruence.
  destruct t as [tp tl tf ts], f as [fw fs]. cbn in Hp, Hw, Hq, Hfut, Hst.
  subst tp fw ts tf fs.
  set (f := {| work := tid; fstate := RUNNING (AtLoop wake) |}) in *.
  set (w1 := cancelled_world p tid fid w).
  assert (E1 : futures w1 !! fid = Some f).
  { subst w1. cbn. by rewrite list_lookup_alter_eq, Hf. }
  assert (E2 : tasks w1 !! tid = Some (mkTask p None (Some fid) DONE)).
  { subst w1. cbn. by rewrite !list_lookup_alter_eq, Ht. }
  assert (E3 : current_tasks w1 !! p = None) by apply lookup_delete_eq.
  assert (E0 : step delay (Deliver (FileDeleted p)) w = Some w1).
  { cbn. rewrite Hobs. f_equal. unfold outside, on_file_deleted, seq, modify.
    cbn. rewrite Hr. unfold cancel, seq, modify, on_task. cbn.
    rewrite list_lookup_alter_eq, Ht. cbn.
    unfold on_task_done, on_task. cbn.
    rewrite bool_decide_eq_true_2 by done. cbn.
    rewrite !list_lookup_alter_eq, Ht. cbn. by rewrite Hr. }
  assert (En : now w1 = now w) by done.
  assert (Eh : history w1 = Deleted p (now w) :: history w) by done.
  clearbody w1.
  split; [done|split; [done|split; [done|split; [done|]]]].
  unfold step. rewrite E1. cbn. rewrite En, (proj2 (Z.leb_le _ _) Hwake).
  eexists. split; [done|].
  unfold process_loop. cbn [work f]. rewrite E2. cbn [last_touch].
  rewrite (done_eq w1 tid _ E2). cbn. rewrite E3. unfold settle. cbn.
  rewrite !list_lookup_alter_eq, E1, E2, Eh. cbn. done.
Qed.

Lemma cancel_after_start_still_cancels_witness :
  let w := world_after 3000000 started in
  step 3000000 (Deliver (FileDeleted "a.pdf")) w
    = Some (cancelled_world "a.pdf" 0 0 w)
  /\ tasks (cancelled_world "a.pdf" 0 0 w) !! 0%nat
     = Some (mkTask "a.pdf" None (Some 0%nat) DONE)
  /\ current_tasks (cancelled_world "a.pdf" 0 0 w) !! "a.pdf" = None
  /\ futures (cancelled_world "a.pdf" 0 0 w) !! 0%nat
     = Some (mkFuture 0 (RUNNING (AtLoop 0)))
  /\ exists w2,
       step 3000000 (Resume 0) (cancelled_world "a.pdf" 0 0 w) = Some w2
       /\ runs_on "a.pdf" (history w2) = runs_on "a.pdf" (history w)
       /\ history w2 = Deleted "a.pdf" (now w) :: history w
       /\ tasks w2 !! 0%nat = Some (mkTask "a.pdf" None (Some 0%nat) DONE)
       /\ current_tasks w2 !! "a.pdf" = None
       /\ (is_live <$> futures w2 !! 0%nat) = Some false.
Proof.
  intros w.
  apply (cancel_after_start_still_cancels 3000000 w "a.pdf" 0 0
           (mkTask "a.pdf" (Some 0) (Some 0%nat) QUEUED)
           (mkFuture 0 (RUNNING (AtLoop 0))) 0);
    try reflexivity.
  apply (wf_reachable 3000000), reachable_world_after. vm_compute. eauto.
Defined.

(** The first task calls [done] a second time and [on_task_done] deletes
    the entry of its path, which by then belongs to the second task: that
    task is QUEUED, its job is pending, and its path is no longer in the
    registry. *)
Lemma stale_done_unregisters_live_task :
  let w := world_after 3000000 stale_done in
  run 3000000 stale_done AutoOcrScheduler_init = Some w
  /\ task_state w 0 = Some DONE
  /\ task_state w 1 = Some QUEUED
  /\ future_state w 1 = Some PENDING
  /\ current_tasks w !! "a.pdf" = None
  /\ (current_tasks <$> run 3000000 (removelast stale_done)
                          AutoOcrScheduler_init)
     = Some {["a.pdf" := 1%nat]}.
Proof. vm_compute. repeat split; reflexivity. Qed.

(** Shutdown in that world: the second task is QUEUED when shutdown
    starts, is not in the snapshot of the registry, is not cancelled, and
    its job runs while the pool shuts down. *)
Lemma shutdown_misses_unregistered_task :
  let w := world_after 3000000 stale_done in
  task_state w 1 = Some QUEUED
  /\ (history <$> run 3000000
        [Shutdown; Start; Resume 1; Tick 3000000; Resume 1; JobExit 1 0;
         ShutdownReturn] w)
     = Some [Invoked 1 "a.pdf" 3000000; ShuttingDown 0;
             Touched "a.pdf" 0; Deleted "a.pdf" 0; Touched "a.pdf" 0].
Proof. vm_compute. repeat split; reflexivity. Qed.

(** ** A cancelled task stays cancelled until it is touched again *)

Lemma quiet_refl tid w : quiet tid w w.
Proof. repeat split; eauto. Qed.

Lemma quiet_trans tid a b c : quiet tid a b -> quiet tid b c -> quiet tid a c.
Proof.
  intros (T1 & F1 & I1) (T2 & F2 & I2). repeat split.
  - intros t Ht. destruct (T1 t Ht) as (t1 & Ht1 & P1 & L1).
    destruct (T2 t1 Ht1) as (t2 & Ht2 & P2 & L2).
    exists t2. repeat split; [done|congruence|auto].
  - eauto.
  - congruence.
Qed.

Lemma quiet_update tid tid' g w :
  (forall t, path (g t) = path t) ->
  (tid' = tid -> forall t, last_touch t = None -> last_touch (g t) = None) ->
  quiet tid w (update_task tid' g w).
Proof.
  intros Hp Hl. repeat split; [|done].
  intros t Ht. cbn. rewrite list_lookup_alter. case_decide.
  - subst. rewrite Ht. cbn. eauto.
  - eauto.
Qed.

Lemma quiet_futures tid g w :
  (forall fs fid f', g fs !! fid = Some f' -> fstate f' = RUNNING InJob ->
     fs !! fid = Some f') ->
  quiet tid w (set_futures g w).
Proof. intros H. repeat split; eauto. Qed.

Lemma quiet_submit tid tid' w :
  quiet tid w (set_futures (fun fs => fs ++ [mkFuture tid' PENDING]) w).
Proof.
  apply quiet_futures. intros fs fid f' Hf Hst.
  apply lookup_snoc_Some in Hf. destruct Hf as [[_ Hf]|[_ <-]]; done.
Qed.

Lemma quiet_cancel_future tid fid w :
  quiet tid w (set_futures (alter cancel_pending fid) w).
Proof.
  apply quiet_futures. intros fs fid' f' Hf Hst.
  rewrite list_lookup_alter in Hf. case_decide; [|done]. subst.
  apply fmap_Some in Hf. destruct Hf as (f & Hf & ->). rewrite Hf. f_equal.
  unfold cancel_pending in *. by destruct f as [? []].
Qed.

Ltac quiet_side :=
  first [ apply quiet_refl | apply quiet_trans | apply quiet_submit
        | apply quiet_cancel_future | by intros; apply quiet_update
        | by intros; repeat split; eauto ].

Lemma quiet_enqueue tid tid' : preserves (quiet tid) (enqueue tid').
Proof. apply preserves_enqueue; quiet_side. Qed.

Lemma quiet_done tid tid' : preserves (quiet tid) (done tid').
Proof. apply preserves_done; quiet_side. Qed.

Lemma quiet_cancel tid tid' : preserves (quiet tid) (cancel tid').
Proof. apply preserves_cancel; quiet_side. Qed.

Lemma quiet_on_file_deleted tid p : preserves (quiet tid) (on_file_deleted p).
Proof. apply preserves_on_file_deleted; quiet_side. Qed.

Lemma quiet_shutdown_begin tid : preserves (quiet tid) shutdown_begin.
Proof.
  apply preserves_shutdown_begin; try quiet_side.
  apply quiet_cancel.
Qed.

Lemma quiet_shutdown_end tid : preserves (quiet tid) shutdown_end.
Proof. apply preserves_shutdown_end; quiet_side. Qed.

Lemma quiet_touch_other tid tid' w :
  tid' <> tid -> quiet tid w (snd (touch tid' w)).
Proof.
  intros Hne. unfold touch, seq, modify. cbn.
  eapply quiet_trans;
    [apply (quiet_update tid tid' (with_last_touch (Some (now w)))); by intros|].
  unfold on_task. destruct (_ !! tid') as [t|]; [|apply quiet_refl].
  case_bool_decide; [apply quiet_enqueue | apply quiet_refl].
Qed.

Lemma quiet_outside tid m w : quiet tid w (snd (m w)) ->
  quiet tid w (outside m w).
Proof.
  unfold outside. destruct (m w) as [[e|] w1]; cbn; [|done].
  intros (T & F & I). repeat split; eauto.
Qed.

Lemma quiet_on_file_touched tid t q w :
  wf w -> tasks w !! tid = Some t -> path t <> q ->
  quiet tid w (snd (on_file_touched q w)).
Proof.
  intros Hwf Ht Hq. unfold on_file_touched, seq, modify.
  cbn -[touch OcrTask_init].
  apply (quiet_trans _ _ (record (Touched q (now w)) w));
    [by repeat split; eauto|].
  destruct (current_tasks w !! q) as [tid'|] eqn:Hr.
  - apply quiet_touch_other. intros ->.
    destruct (wf_reg w Hwf q tid Hr) as (t' & Ht' & Hp & _). congruence.
  - unfold OcrTask_init, seq, modify. cbn -[touch].
    set (w1 := set_tasks _ _).
    assert (Hne : length (tasks w) <> tid).
    { apply lookup_lt_Some in Ht. lia. }
    assert (Q1 : quiet tid (record (Touched q (now w)) w) w1).
    { repeat split; [|done..]. intros t0 Ht0. exists t0.
      split; [|done]. subst w1. cbn. by apply lookup_app_l_Some. }
    pose proof (quiet_touch_other tid (length (tasks w)) w1 Hne) as Q2.
    destruct (touch _ w1) as [[e|] w2]; cbn in *.
    + by eapply quiet_trans.
    + eapply quiet_trans; [exact Q1|]. eapply quiet_trans; [exact Q2|].
      by repeat split; eauto.
Qed.

Lemma calm_next tid w w' : quiet tid w w' -> calm tid w -> calm tid w'.
Proof.
  intros (T & F & I) [(t & Ht & Hl) Hf]. split.
  - destruct (T t Ht) as (t' & Ht' & _ & Hl'). eauto.
  - intros fid f' Hf' Hw Hst. by eapply (Hf fid f'); eauto.
Qed.

Lemma quiet_dispatch tid t e w :
  wf w -> tasks w !! tid = Some t -> avoids (path t) (Deliver e) ->
  quiet tid w (snd (dispatch e w)).
Proof.
  intros Hwf Ht Ha. destruct e; cbn -[on_file_deleted on_file_touched] in *.
  - unfold seq. pose proof (quiet_on_file_deleted tid src_path w) as Q.
    pose proof (wf_on_file_deleted w src_path Hwf) as Hwf1.
    destruct (on_file_deleted src_path w) as [[e|] w1]; [done|]. cbn in *.
    pose proof Q as (T & F & I). destruct (T t Ht) as (t1 & Ht1 & Hp & _).
    apply (quiet_trans _ _ w1); [exact Q|].
    eapply quiet_on_file_touched; eauto. congruence.
  - eapply quiet_on_file_touched; eauto.
  - apply quiet_on_file_deleted.
  - eapply quiet_on_file_touched; eauto.
Qed.

Lemma quiet_invoked tid tid' p t w :
  tid' <> tid -> quiet tid w (record (Invoked tid' p t) w).
Proof.
  intros Hne. repeat split; eauto. unfold invocations. cbn.
  by case_decide.
Qed.

Lemma quiet_settle tid fid r w :
  quiet tid w (snd r) ->
  (forall f, futures (snd r) !! fid = Some f -> work f = tid ->
     fst r <> Blocks InJob) ->
  quiet tid w (settle fid r).
Proof.
  intros (T & F & I) H. repeat split; [done| |done].
  unfold settle. cbn. intros fid' f' Hf Hw Hst.
  rewrite list_lookup_alter in Hf. case_decide as E; [|eauto]. subst fid'.
  apply fmap_Some in Hf. destruct Hf as (f & Hf & ->). cbn in *.
  specialize (H f Hf Hw). by destruct (fst r) as [| |[]].
Qed.

Lemma quiet_step delay tid t a w w' :
  wf w -> tasks w !! tid = Some t -> calm tid w -> avoids (path t) a ->
  step delay a w = Some w' -> quiet tid w w'.
Proof.
  intros Hwf Ht [(t0 & Ht0 & Hl) Hc] Ha.
  assert (t0 = t) as -> by congruence.
  destruct a; cbn -[dispatch shutdown_begin shutdown_end].
  - case_match; [|done]. intros [= <-]. by repeat split; eauto.
  - destruct (observer w) as [[]|]; try done. intros [= <-].
    by eapply quiet_outside, quiet_dispatch.
  - case_bool_decide as Hlt; [|done].
    destruct (first_pending (futures w)) as [fid|] eqn:Hfp; [|done].
    cbn. intros [= <-]. apply quiet_futures. intros fs fid' f' Hf Hst.
    rewrite list_lookup_alter in Hf. case_decide; [|done]. subst.
    apply fmap_Some in Hf. by destruct Hf as (f & Hf & ->).
  - destruct (futures w !! fid) as [f|] eqn:Hf; [|done]. cbn.
    destruct (fstate f) as [|[wake|]| | |] eqn:Hst; try done.
    case_match; [|done]. intros [= <-].
    unfold process_loop.
    destruct (tasks w !! work f) as [t1|] eqn:Ht1;
      [|by apply quiet_settle; [apply quiet_refl|]].
    destruct (last_touch t1) as [lt|] eqn:Hlt.
    + assert (Hne : work f <> tid) by (intros E; congruence).
      case_match; apply quiet_settle; cbn; try done.
      * eapply quiet_trans;
          [apply (quiet_update tid (work f) (with_state ACTIVE)); by intros|].
        eapply quiet_trans;
          [apply (quiet_update tid (work f) (with_last_touch None));
           by intros|].
        by apply quiet_invoked.
      * intros f' Hf' Hw. congruence.
      * apply (quiet_update tid (work f) (with_state SLEEPING)); by intros.
    + apply quiet_settle; rewrite ?finish_snd; [apply quiet_done|].
      intros f' _ _ E. apply finish_fst in E || (by destruct (done _ _) as [[?|] ?]).
  - destruct (futures w !! fid) as [f|] eqn:Hf; [|done]. cbn.
    destruct (fstate f) as [|[wake|]| | |] eqn:Hst; try done.
    intros [= <-]. unfold process_return.
    destruct (decide (rc = 0)) as [Hrc|Hrc];
      [|by apply quiet_settle; [apply quiet_refl|]].
    destruct (tasks w !! work f) as [t1|] eqn:Ht1;
      [|by apply quiet_settle; [apply quiet_refl|]].
    destruct (last_touch t1) as [lt|] eqn:Hlt;
      (apply quiet_settle; rewrite ?finish_snd;
       [first [apply quiet_enqueue | apply quiet_done]|]);
      intros f' _ _ E;
      match type of E with
      | context [finish ?r] => by destruct r as [[?|] ?]
      end.
  - destruct (pool_shutdown w); [done|]. intros [= <-].
    apply quiet_outside, quiet_shutdown_begin.
  - case_match; [|done]. intros [= <-].
    apply quiet_outside, quiet_shutdown_end.
Qed.

(** ** A registered task holds a future *)

Lemma kept_refl w : kept w w.
Proof. split; eauto. Qed.

Lemma kept_trans a b c : kept a b -> kept b c -> kept a c.
Proof.
  intros [T1 R1] [T2 R2]. split; [|eauto].
  intros tid t Ht. destruct (T1 tid t Ht) as (t1 & Ht1 & F1).
  destruct (T2 tid t1 Ht1) as (t2 & Ht2 & F2). eauto.
Qed.

Lemma kept_update tid g w :
  (forall t, is_Some (future t) -> is_Some (future (g t))) ->
  kept w (update_task tid g w).
Proof.
  intros Hg. split; [|done]. intros tid' t Ht. cbn.
  rewrite list_lookup_alter. case_decide; [|eauto]. subst.
  rewrite Ht. cbn. eauto.
Qed.

Lemma kept_unregister p w : kept w (set_current_tasks (delete p) w).
Proof.
  split; [eauto|]. cbn. intros q tid. rewrite lookup_delete_Some. tauto.
Qed.

Ltac kept_side :=
  first [ apply kept_refl | apply kept_trans | apply kept_unregister
        | by intros; apply kept_update | by intros; split; eauto ].

Lemma kept_enqueue tid : preserves kept (enqueue tid).
Proof. apply preserves_enqueue; kept_side. Qed.

Lemma kept_done tid : preserves kept (done tid).
Proof. apply preserves_done; kept_side. Qed.

Lemma kept_cancel tid : preserves kept (cancel tid).
Proof. apply preserves_cancel; kept_side. Qed.

Lemma kept_touch tid : preserves kept (touch tid).
Proof. apply preserves_touch; kept_side. Qed.

Lemma kept_on_file_deleted p : preserves kept (on_file_deleted p).
Proof. apply preserves_on_file_deleted; kept_side. Qed.

Lemma kept_shutdown_begin : preserves kept shutdown_begin.
Proof.
  apply preserves_shutdown_begin; try kept_side. apply kept_cancel.
Qed.

Lemma kept_shutdown_end : preserves kept shutdown_end.
Proof. apply preserves_shutdown_end; kept_side. Qed.

Lemma handled_next w w' : wf w -> kept w w' -> handled w -> handled w'.
Proof.
  intros Hwf [T R] H p tid t' Hr Ht'. specialize (R p tid Hr).
  destruct (wf_reg w Hwf p tid R) as (t & Ht & _).
  destruct (T tid t Ht) as (t1 & Ht1 & F). simplify_eq. eauto.
Qed.

Lemma handled_on_file_touched p w :
  wf w -> handled w -> handled (snd (on_file_touched p w)).
Proof.
  intros Hwf H. unfold on_file_touched, seq, modify.
  cbn -[touch OcrTask_init].
  destruct (current_tasks w !! p) as [tid|] eqn:Hr.
  - apply (handled_next (record (Touched p (now w)) w));
      [by apply wf_record | apply kept_touch | done].
  - unfold OcrTask_init, touch, seq, modify, on_task; cbn -[enqueue].
    rewrite list_lookup_alter_eq, list_lookup_middle by done.
    cbn -[enqueue]. rewrite bool_decide_eq_true_2 by done.
    destruct (pool_shutdown w) eqn:Hs.
    + rewrite (enqueue_shut _ _ (with_last_touch (Some (now w)) (OcrTask_new p)));
        [| by cbn; rewrite list_lookup_alter_eq, list_lookup_middle
         | by left | done].
      cbn. intros q tid t Hq. cbn. rewrite !list_lookup_alter.
      destruct (wf_reg w Hwf q tid Hq) as (t0 & Ht0 & _).
      apply lookup_lt_Some in Ht0 as Hlt.
      rewrite !decide_False by lia. rewrite lookup_app_l by done.
      by eapply H.
    + rewrite (enqueue_open _ _ (with_last_touch (Some (now w)) (OcrTask_new p)));
        [| by cbn; rewrite list_lookup_alter_eq, list_lookup_middle
         | by left | done].
      cbn. intros q tid t. cbn. rewrite lookup_insert_Some.
      intros [[<- <-]|[Hne Hq]].
      * rewrite !list_lookup_alter_eq, list_lookup_middle by done. cbn.
        intros [= <-]. cbn. eauto.
      * rewrite !list_lookup_alter.
        destruct (wf_reg w Hwf q tid Hq) as (t0 & Ht0 & _).
        apply lookup_lt_Some in Ht0 as Hlt.
        rewrite !decide_False by lia. rewrite lookup_app_l by done.
        by eapply H.
Qed.

Lemma kept_outside m w : kept w (snd (m w)) -> kept w (outside m w).
Proof.
  unfold outside. destruct (m w) as [[e|] w1]; cbn; [|done].
  intros [T R]. split; eauto.
Qed.

Lemma handled_outside m w : handled (snd (m w)) -> handled (outside m w).
Proof. unfold outside. by destruct (m w) as [[e|] w1]. Qed.

Lemma kept_settle fid r w : kept w (snd r) -> kept w (settle fid r).
Proof. intros [T R]. split; eauto. Qed.

Lemma kept_loop delay tid w : kept w (snd (process_loop delay tid w)).
Proof.
  unfold process_loop. destruct (tasks w !! tid) as [t|]; [|apply kept_refl].
  destruct (last_touch t).
  - case_match; cbn.
    + apply (kept_trans _ (update_task tid (with_state ACTIVE) w));
        [by apply kept_update|].
      apply (kept_trans _ (update_task tid (with_last_touch None)
                             (update_task tid (with_state ACTIVE) w)));
        [by apply kept_update | by split; eauto].
    + by apply kept_update.
  - rewrite finish_snd. apply kept_done.
Qed.

Lemma kept_return tid rc w : kept w (snd (process_return tid rc w)).
Proof.
  unfold process_return. destruct (decide (rc = 0)) as [Hrc|Hrc];
    [|apply kept_refl].
  destruct (tasks w !! tid) as [t|]; [|apply kept_refl].
  destruct (last_touch t); rewrite finish_snd;
    [apply kept_enqueue | apply kept_done].
Qed.

Lemma handled_step delay a w w' :
  wf w -> handled w -> step delay a w = Some w' -> handled w'.
Proof.
  intros Hwf H. destruct a; cbn -[dispatch shutdown_begin shutdown_end].
  - case_match; [|done]. by intros [= <-].
  - destruct (observer w) as [[]|]; try done. intros [= <-].
    apply handled_outside. destruct e; cbn -[on_file_deleted on_file_touched].
    + unfold seq.
      pose proof (kept_on_file_deleted src_path w) as K.
      pose proof (wf_on_file_deleted w src_path Hwf) as Hwf1.
      destruct (on_file_deleted src_path w) as [[e|] w1]; cbn in *;
        [by apply (handled_next w)|].
      apply handled_on_file_touched; [done|]. by apply (handled_next w).
    + by apply handled_on_file_touched.
    + apply (handled_next w); [done|apply kept_on_file_deleted|done].
    + by apply handled_on_file_touched.
  - case_bool_decide as Hlt; [|done].
    destruct (first_pending (futures w)) as [fid|] eqn:Hfp; [|done].
    cbn. by intros [= <-].
  - destruct (futures w !! fid) as [f|] eqn:Hf; [|done]. cbn.
    destruct (fstate f) as [|[wake|]| | |] eqn:Hst; try done.
    case_match; [|done]. intros [= <-].
    apply (handled_next w); [done|apply kept_settle, kept_loop|done].
  - destruct (futures w !! fid) as [f|] eqn:Hf; [|done]. cbn.
    destruct (fstate f) as [|[wake|]| | |] eqn:Hst; try done.
    intros [= <-].
    apply (handled_next w); [done|apply kept_settle, kept_return|done].
  - destruct (pool_shutdown w); [done|]. intros [= <-].
    apply (handled_next w); [done| |done].
    apply kept_outside, kept_shutdown_begin.
  - case_match; [|done]. intros [= <-].
    apply (handled_next w); [done| |done].
    apply kept_outside, kept_shutdown_end.
Qed.

Lemma handled_reachable delay w : reachable delay w -> handled w.
Proof.
  intros [acts H]. revert H.
  assert (Hi : handled AutoOcrScheduler_init).
  { intros p tid t. cbn. by rewrite lookup_empty. }
  pose proof wf_init as Hwf. revert Hwf Hi.
  generalize AutoOcrScheduler_init as w0. revert w.
  induction acts as [|a acts IH]; intros w w0 Hwf Hi; cbn.
  - by intros [= <-].
  - destruct (step delay a w0) as [w1|] eqn:Hs; [|done]. cbn.
    eauto using handled_step, wf_step.
Qed.

(** ** C4 *)

Lemma quiet_run delay tid acts : forall t w w',
  wf w -> tasks w !! tid = Some t -> calm tid w ->
  Forall (avoids (path t)) acts -> run delay acts w = Some w' ->
  quiet tid w w' /\ calm tid w' /\ wf w'.
Proof.
  induction acts as [|a acts IH]; intros t w w' Hwf Ht Hc Ha; cbn.
  - intros [= <-]. split; [apply quiet_refl | done].
  - destruct (step delay a w) as [w1|] eqn:Hs; [|done]. cbn. intros Hr.
    apply Forall_cons in Ha as [Ha1 Ha2].
    pose proof (quiet_step delay tid t a w w1 Hwf Ht Hc Ha1 Hs) as Q.
    pose proof Q as (T & _ & _). destruct (T t Ht) as (t1 & Ht1 & Hp & _).
    rewrite <- Hp in Ha2.
    destruct (IH t1 w1 w' (wf_step _ _ _ _ Hwf Hs) Ht1
                (calm_next _ _ _ Q Hc) Ha2 Hr) as (Q' & Hc' & Hwf').
    split; [by eapply quiet_trans | done].
Qed.

(** ** What [cancel] does *)

Lemma cancel_queued tid t fid w :
  tasks w !! tid = Some t -> state t = QUEUED -> future t = Some fid ->
  is_Some (current_tasks w !! path t) ->
  cancel tid w
  = (None,
     set_current_tasks (delete (path t))
       (update_task tid (with_state DONE)
          (set_futures (alter cancel_pending fid)
             (update_task tid (with_last_touch None) w)))).
Proof.
  intros Ht Hq Hf [x Hx]. unfold cancel, seq, modify, on_task. cbn.
  rewrite list_lookup_alter_eq, Ht. cbn.
  rewrite bool_decide_eq_true_2 by done. rewrite Hf.
  unfold future_cancel, done, on_task_done, on_task, seq, modify. cbn.
  rewrite !list_lookup_alter_eq, Ht. cbn. by rewrite Hx.
Qed.

Lemma cancel_other tid t w :
  tasks w !! tid = Some t -> state t <> QUEUED ->
  cancel tid w = (None, update_task tid (with_last_touch None) w).
Proof.
  intros Ht Hq. unfold cancel, seq, modify, on_task. cbn.
  rewrite list_lookup_alter_eq, Ht. cbn.
  by rewrite bool_decide_eq_false_2.
Qed.

Lemma cancel_returns tid w :
  cancellable w tid ->
  fst (cancel tid w) = None
  /\ forall tid', cancellable w tid' -> cancellable (snd (cancel tid w)) tid'.
Proof.
  intros (t & Ht & Hq).
  destruct (decide (state t = QUEUED)) as [E|Hne].
  - destruct (Hq E) as [[fid Hf] Hreg].
    rewrite (cancel_queued tid t fid w Ht E Hf) by eauto.
    split; [done|]. intros tid' (t' & Ht' & Hq'). unfold cancellable. cbn.
    destruct (decide (tid' = tid)) as [->|Hd].
    + rewrite !list_lookup_alter_eq, Ht. cbn. eexists. split; [done|]. done.
    + rewrite !list_lookup_alter_ne, Ht' by done.
      exists t'. split; [done|]. intros E'.
      destruct (Hq' E') as [Hf' Hr']. split; [done|].
      rewrite lookup_delete_ne; [done|]. intros Hp. congruence.
  - rewrite (cancel_other tid t w Ht Hne). split; [done|].
    intros tid' (t' & Ht' & Hq'). unfold cancellable. cbn.
    destruct (decide (tid' = tid)) as [->|Hd].
    + rewrite list_lookup_alter_eq, Ht. cbn. eexists. split; [done|]. cbn.
      intros E'. assert (t' = t) as -> by congruence. done.
    + rewrite list_lookup_alter_ne, Ht' by done. by exists t'.
Qed.

Lemma registered_cancellable w p tid :
  wf w -> handled w -> current_tasks w !! p = Some tid -> cancellable w tid.
Proof.
  intros Hwf Hh Hr. destruct (wf_reg w Hwf p tid Hr) as (t & Ht & Hp & _).
  exists t. split; [done|]. intros _. split; [by eapply Hh|congruence].
Qed.

(** ** A sleeping task has its worker, a queued task its work item *)

Lemma manned_manned_but tid w : manned w -> manned_but tid w.
Proof. intros H tid' _. apply H. Qed.

Lemma manned_but_manned tid w :
  manned_but tid w -> staffed w tid -> manned w.
Proof.
  intros H Ht tid'. destruct (decide (tid' = tid)) as [->|Hne]; auto.
Qed.

Lemma keeps_has_loop tid tid' w w' :
  keeps_but tid (futures w) (futures w') -> tid' <> tid ->
  has_loop w tid' -> has_loop w' tid'.
Proof.
  intros K Hne (fid & f & wake & Hf & Hw & Hs).
  exists fid, f, wake. split; [|done]. apply K; congruence.
Qed.

Lemma keeps_has_live tid tid' w w' :
  keeps_but tid (futures w) (futures w') -> tid' <> tid ->
  has_live w tid' -> has_live w' tid'.
Proof.
  intros K Hne (fid & f & Hf & Hw & Hs).
  exists fid, f. split; [|done]. apply K; congruence.
Qed.

Lemma acts_on_refl tid w : acts_on tid w w.
Proof. split; [|split]; try done. by intros fid f. Qed.

Lemma acts_on_trans tid a b c :
  acts_on tid a b -> acts_on tid b c -> acts_on tid a c.
Proof.
  intros (T1 & K1 & P1) (T2 & K2 & P2). split; [|split]; auto.
  intros fid f Hf Hw. auto.
Qed.

Lemma acts_on_manned_but tid w w' :
  acts_on tid w w' -> manned_but tid w -> manned_but tid w'.
Proof.
  intros (T & K & P) H tid' Hne t' Ht'.
  destruct (H tid' Hne t' (T tid' t' Hne Ht')) as [H1 H2]. split.
  - intros Hs. eapply keeps_has_loop; eauto.
  - intros Hs Hp. eapply keeps_has_live; eauto.
Qed.

Lemma acts_on_same tid w w' :
  tasks w' = tasks w -> futures w' = futures w ->
  (pool_shutdown w' = false -> pool_shutdown w = false) ->
  acts_on tid w w'.
Proof.
  intros Et Ef P. split; [|split]; try done.
  - intros tid' t' _. by rewrite Et.
  - intros fid f Hf _. by rewrite Ef.
Qed.

Lemma acts_on_update tid g w : acts_on tid w (update_task tid g w).
Proof.
  split; [|split]; try done; [|by intros fid f].
  intros tid' t' Hne. cbn. by rewrite list_lookup_alter_ne.
Qed.

Lemma acts_on_submit tid x w :
  acts_on tid w (set_futures (fun fs => fs ++ [x]) w).
Proof.
  split; [|split]; try done.
  intros fid f Hf _. cbn. by apply lookup_app_l_Some.
Qed.

Lemma acts_on_alter tid g fid w :
  (forall f, futures w !! fid = Some f -> work f = tid) ->
  acts_on tid w (set_futures (alter g fid) w).
Proof.
  intros Hw. split; [|split]; try done.
  intros fid' f Hf Hne. cbn. rewrite list_lookup_alter_ne; [done|].
  intros ->. by apply Hne, Hw.
Qed.

Ltac acts_on_side :=
  first [ apply acts_on_refl | apply acts_on_update | apply acts_on_submit
        | by apply acts_on_same ].

Lemma acts_on_done tid w : acts_on tid w (snd (done tid w)).
Proof.
  unfold done, seq, modify, on_task_done, on_task. cbn.
  apply (acts_on_trans _ _ (update_task tid (with_state DONE) w));
    [apply acts_on_update|].
  destruct (alter _ _ _ !! _); [|apply acts_on_refl].
  destruct (_ !! _); cbn; by apply acts_on_same.
Qed.

Lemma acts_on_enqueue tid w : acts_on tid w (snd (enqueue tid w)).
Proof.
  unfold enqueue, on_task. destruct (tasks w !! tid) as [t|];
    [|apply acts_on_refl].
  case_bool_decide; [|apply acts_on_refl].
  unfold seq, modify, submit. cbn.
  destruct (pool_shutdown w) eqn:Hp; cbn; [apply acts_on_update|].
  eapply acts_on_trans; [apply acts_on_update|].
  eapply acts_on_trans; [apply acts_on_submit|]. apply acts_on_update.
Qed.

Lemma acts_on_touch tid w : acts_on tid w (snd (touch tid w)).
Proof.
  unfold touch, seq, modify, on_task. cbn.
  eapply acts_on_trans; [apply acts_on_update|].
  destruct (alter _ _ _ !! _) as [t|]; [|apply acts_on_refl].
  case_bool_decide; [apply acts_on_enqueue | apply acts_on_refl].
Qed.

Lemma acts_on_cancel tid w : wf w -> acts_on tid w (snd (cancel tid w)).
Proof.
  intros Hwf. unfold cancel, seq, modify, on_task. cbn.
  rewrite list_lookup_alter_eq.
  destruct (tasks w !! tid) as [t|] eqn:Ht; cbn; [|apply acts_on_update].
  case_bool_decide; [|apply acts_on_update].
  destruct (future t) as [fid|] eqn:Hf; cbn; [|apply acts_on_update].
  eapply acts_on_trans; [apply acts_on_update|].
  eapply acts_on_trans; [|apply acts_on_done].
  apply acts_on_alter. cbn. intros f Hfu.
  destruct (wf_own w Hwf tid t fid Ht Hf) as (f' & Hf' & Hw). congruence.
Qed.

(** The task [tid] as the steps leave it. *)
Lemma staffed_kept tid w w' :
  staffed w tid ->
  (forall t', tasks w' !! tid = Some t' ->
     exists t, tasks w !! tid = Some t /\ state t' = state t) ->
  (forall fid f, futures w !! fid = Some f -> futures w' !! fid = Some f) ->
  (pool_shutdown w' = false -> pool_shutdown w = false) ->
  staffed w' tid.
Proof.
  intros H T K P t' Ht'. destruct (T t' Ht') as (t & Ht & Es).
  destruct (H t Ht) as [H1 H2]. rewrite Es. split.
  - intros Hs. destruct (H1 Hs) as (fid & f & wake & Hf & Hr).
    exists fid, f, wake. split; [by apply K|done].
  - intros Hs Hp. destruct (H2 Hs (P Hp)) as (fid & f & Hf & Hr).
    exists fid, f. split; [by apply K|done].
Qed.

Lemma staffed_idle tid w :
  (forall t, tasks w !! tid = Some t ->
     state t <> SLEEPING /\ state t <> QUEUED) ->
  staffed w tid.
Proof. intros H t Ht. destruct (H t Ht). split; congruence. Qed.

Lemma manned_done tid w : manned w -> manned (snd (done tid w)).
Proof.
  intros H. apply (manned_but_manned tid).
  - eapply acts_on_manned_but; [apply acts_on_done|].
    by apply manned_manned_but.
  - apply staffed_idle. intros t'.
    destruct (tasks w !! tid) as [t|] eqn:Ht.
    + rewrite (done_eq w tid t Ht).
      destruct (_ !! path t); cbn; rewrite list_lookup_alter_eq, Ht; cbn;
        intros [= <-]; done.
    + unfold done, seq, modify, on_task_done, on_task. cbn.
      rewrite list_lookup_alter_eq, Ht. cbn.
      by rewrite list_lookup_alter_eq, Ht.
Qed.

Lemma staffed_enqueue tid w :
  staffed w tid -> staffed (snd (enqueue tid w)) tid.
Proof.
  intros H. unfold enqueue, on_task.
  destruct (tasks w !! tid) as [t|] eqn:Ht; [|done].
  case_bool_decide as Hs; [|done].
  unfold seq, modify, submit. cbn.
  destruct (pool_shutdown w) eqn:Hp; cbn.
  - intros t'. cbn. rewrite list_lookup_alter_eq, Ht. cbn.
    intros [= <-]. cbn. split; [done|congruence].
  - intros t'. cbn. rewrite !list_lookup_alter_eq, Ht. cbn.
    intros [= <-]. cbn. split; [done|]. intros _ _.
    exists (length (futures w)), (mkFuture tid PENDING). cbn.
    by rewrite (list_lookup_middle (futures w) []).
Qed.

Lemma manned_enqueue tid w : manned w -> manned (snd (enqueue tid w)).
Proof.
  intros H. apply (manned_but_manned tid).
  - eapply acts_on_manned_but; [apply acts_on_enqueue|].
    by apply manned_manned_but.
  - by apply staffed_enqueue.
Qed.

Lemma staffed_untouched tid g w :
  (forall t, state (g t) = state t) ->
  staffed w tid -> staffed (update_task tid g w) tid.
Proof.
  intros Hg H. apply (staffed_kept tid w); try done.
  intros t'. cbn. rewrite list_lookup_alter_eq.
  destruct (tasks w !! tid) as [t|]; cbn; [|done].
  intros [= <-]. eauto.
Qed.

Lemma manned_touch tid w : manned w -> manned (snd (touch tid w)).
Proof.
  intros H. apply (manned_but_manned tid).
  - eapply acts_on_manned_but; [apply acts_on_touch|].
    by apply manned_manned_but.
  - unfold touch, seq, modify, on_task. cbn.
    pose proof (staffed_untouched tid (with_last_touch (Some (now w))) w
                  (fun _ => eq_refl) (H tid)) as H1.
    destruct (alter _ _ _ !! _) as [t|]; [|done].
    case_bool_decide; [by apply staffed_enqueue | done].
Qed.

Lemma manned_cancel tid w : wf w -> manned w -> manned (snd (cancel tid w)).
Proof.
  intros Hwf H. apply (manned_but_manned tid).
  - eapply acts_on_manned_but; [by apply acts_on_cancel|].
    by apply manned_manned_but.
  - pose proof (staffed_untouched tid (with_last_touch None) w
                  (fun _ => eq_refl) (H tid)) as H1.
    unfold cancel, seq, modify, on_task. cbn.
    rewrite list_lookup_alter_eq.
    destruct (tasks w !! tid) as [t|] eqn:Ht; cbn; [|done].
    case_bool_decide; [|done].
    destruct (future t) as [fid|] eqn:Hf; cbn; [|done].
    apply staffed_idle. intros t'.
    unfold done, seq, modify, on_task_done, on_task. cbn.
    rewrite !list_lookup_alter_eq, Ht. cbn.
    destruct (_ !! path t); cbn; rewrite !list_lookup_alter_eq, Ht; cbn;
      intros [= <-]; cbn; split; congruence.
Qed.

Lemma manned_same w w' :
  tasks w' = tasks w -> futures w' = futures w ->
  (pool_shutdown w' = false -> pool_shutdown w = false) ->
  manned w -> manned w'.
Proof.
  intros Et Ef P H tid. apply (staffed_kept tid w); auto.
  - intros t'. rewrite Et. eauto.
  - intros fid f. by rewrite Ef.
Qed.

Lemma manned_new t w :
  state t = NEW -> manned w -> manned (set_tasks (fun ts => ts ++ [t]) w).
Proof.
  intros Hn H tid t'. cbn. intros [[_ Ht]|[_ <-]]%lookup_snoc_Some.
  - apply (H tid t' Ht).
  - split; congruence.
Qed.

Lemma manned_on_file_touched p w :
  manned w -> manned (snd (on_file_touched p w)).
Proof.
  intros H. unfold on_file_touched, seq, modify.
  cbn -[touch OcrTask_init].
  assert (H0 : manned (record (Touched p (now w)) w))
    by (by apply (manned_same w)).
  destruct (current_tasks w !! p) as [tid|]; [by apply manned_touch|].
  unfold OcrTask_init, seq, modify. cbn -[touch].
  set (w1 := set_tasks _ _).
  assert (H1 : manned w1) by (by apply manned_new).
  pose proof (manned_touch (length (tasks w)) w1 H1) as H2.
  destruct (touch (length (tasks w)) w1) as [[e|] w2]; cbn in *; [done|].
  by apply (manned_same w2).
Qed.

Lemma manned_on_file_deleted p w :
  wf w -> manned w -> manned (snd (on_file_deleted p w)).
Proof.
  intros Hwf H. unfold on_file_deleted, seq, modify. cbn -[cancel].
  assert (H0 : manned (record (Deleted p (now w)) w))
    by (by apply (manned_same w)).
  destruct (current_tasks w !! p) as [tid|]; [|done].
  apply manned_cancel; [by apply wf_record | done].
Qed.

Lemma manned_dispatch e w : wf w -> manned w -> manned (snd (dispatch e w)).
Proof.
  intros Hwf H.
  destruct e; cbn -[on_file_deleted on_file_touched];
    auto using manned_on_file_touched, manned_on_file_deleted.
  unfold seq.
  pose proof (manned_on_file_deleted src_path w Hwf H) as H1.
  destruct (on_file_deleted src_path w) as [[e|] w1]; cbn in *; [done|].
  by apply manned_on_file_touched.
Qed.

Lemma manned_outside m w : manned (snd (m w)) -> manned (outside m w).
Proof.
  unfold outside. destruct (m w) as [[e|] w1]; cbn; [|done].
  by apply manned_same.
Qed.

Lemma manned_for_each_cancel l : forall w,
  wf w -> manned w -> manned (snd (for_each cancel l w)).
Proof.
  induction l as [|tid l IH]; intros w Hwf H; [done|].
  change (for_each cancel (tid :: l)) with (seq (cancel tid) (for_each cancel l)).
  unfold seq. pose proof (wf_cancel w tid Hwf) as Hwf1.
  pose proof (manned_cancel tid w Hwf H) as H1.
  destruct (cancel tid w) as [[e|] w1]; cbn in *; [done|]. by apply IH.
Qed.

Lemma manned_shutdown_begin w :
  wf w -> manned w -> manned (snd (shutdown_begin w)).
Proof.
  intros Hwf H. unfold shutdown_begin, seq, modify. cbn -[for_each].
  set (w1 := match observer w with Some _ => _ | None => _ end).
  assert (Hw1 : fst w1 = None /\ wf (snd w1) /\ manned (snd w1)).
  { subst w1. destruct (observer w); cbn; (split; [done|]); split;
      try (by apply (wf_same w)); by apply (manned_same w). }
  destruct w1 as [o w1]. destruct Hw1 as (Ho & Hwf1 & H1). cbn in *. subst o.
  pose proof (manned_for_each_cancel
                (map snd (map_to_list (current_tasks w1))) w1 Hwf1 H1) as H2.
  destruct (for_each cancel _ w1) as [[e|] w2]; cbn in *; [done|].
  destruct (threadpool w2); cbn; [|done].
  intros tid t Ht. cbn in *. destruct (H2 tid t Ht) as [A B].
  split; [exact A|done].
Qed.

Lemma futures_done tid w : futures (snd (done tid w)) = futures w.
Proof.
  unfold done, seq, modify, on_task_done, on_task. cbn.
  destruct (alter _ _ _ !! _); [|done]. by destruct (_ !! _).
Qed.

(** The steps of the workers. *)
Lemma acts_on_settle tid fid f r w :
  futures w !! fid = Some f -> work f = tid ->
  futures (snd r) !! fid = Some f ->
  acts_on tid w (snd r) -> acts_on tid w (settle fid r).
Proof.
  intros Hf Hw Hf' H. eapply acts_on_trans; [exact H|].
  unfold settle. apply acts_on_alter. intros f0 Hf0. congruence.
Qed.

Lemma manned_loop delay fid f w :
  manned w -> futures w !! fid = Some f ->
  manned (settle fid (process_loop delay (work f) w)).
Proof.
  intros H Hf. apply (manned_but_manned (work f)).
  - apply (acts_on_manned_but _ w); [|by apply manned_manned_but].
    apply (acts_on_settle _ _ f); try done.
    + unfold process_loop. destruct (tasks w !! work f) as [t|]; [|done].
      destruct (last_touch t); [by case_match|].
      by rewrite finish_snd, futures_done.
    + unfold process_loop.
      destruct (tasks w !! work f) as [t|]; [|apply acts_on_refl].
      destruct (last_touch t).
      * case_match; cbn; [|apply acts_on_update].
        eapply acts_on_trans; [apply acts_on_update|].
        eapply acts_on_trans; [apply acts_on_update|]. by apply acts_on_same.
      * rewrite finish_snd. apply acts_on_done.
  - unfold process_loop.
    destruct (tasks w !! work f) as [t|] eqn:Ht.
    2:{ intros t'. unfold settle. cbn. by rewrite Ht. }
    destruct (last_touch t) as [lt|].
    + case_match; unfold settle; cbn.
      * apply staffed_idle. intros t'. cbn.
        rewrite !list_lookup_alter_eq, Ht. cbn. intros [= <-]. done.
      * intros t'. cbn. rewrite list_lookup_alter_eq, Ht. cbn.
        intros [= <-]. cbn. split; [|done]. intros _.
        exists fid, (with_fstate (RUNNING (AtLoop (now w + (lt + delay - now w)))) f),
          (now w + (lt + delay - now w)).
        cbn. by rewrite list_lookup_alter_eq, Hf.
    + apply staffed_idle. intros t'. unfold settle.
      rewrite finish_snd, (done_eq w (work f) t Ht).
      destruct (_ !! path t); cbn; rewrite list_lookup_alter_eq, Ht; cbn;
        intros [= <-]; done.
Qed.

Lemma manned_return fid f rc w t :
  manned w -> futures w !! fid = Some f ->
  tasks w !! work f = Some t -> state t = ACTIVE ->
  manned (settle fid (process_return (work f) rc w)).
Proof.
  intros H Hf Ht Hs. apply lookup_lt_Some in Hf as Hlt.
  unfold process_return. destruct (decide (rc = 0)) as [Hrc|Hrc].
  2:{ apply (manned_but_manned (work f)).
      - apply (acts_on_manned_but _ w); [|by apply manned_manned_but].
        unfold settle. apply acts_on_alter. cbn. congruence.
      - apply staffed_idle. intros t'. unfold settle. cbn. rewrite Ht.
        intros [= <-]. split; congruence. }
  rewrite Ht. destruct (last_touch t) as [lt|].
  - destruct (pool_shutdown w) eqn:Hp.
    + rewrite (enqueue_shut w (work f) t) by auto.
      apply (manned_but_manned (work f)).
      * apply (acts_on_manned_but _ w); [|by apply manned_manned_but].
        unfold settle. cbn.
        eapply acts_on_trans; [apply acts_on_update|].
        apply acts_on_alter. cbn. congruence.
      * intros t'. unfold settle. cbn. rewrite list_lookup_alter_eq, Ht.
        cbn. intros [= <-]. cbn. split; [done|]. rewrite Hp. done.
    + rewrite (enqueue_open w (work f) t) by auto.
      apply (manned_but_manned (work f)).
      * apply (acts_on_manned_but _ w); [|by apply manned_manned_but].
        unfold settle. cbn.
        eapply acts_on_trans; [apply acts_on_update|].
        eapply acts_on_trans; [apply acts_on_submit|].
        eapply acts_on_trans; [apply acts_on_update|].
        apply acts_on_alter. cbn.
        intros f0 [[_ E]|[E _]]%lookup_snoc_Some; [congruence|lia].
      * intros t'. unfold settle. cbn.
        rewrite !list_lookup_alter_eq, Ht. cbn. intros [= <-]. cbn.
        split; [done|]. intros _ _.
        exists (length (futures w)), (mkFuture (work f) PENDING). cbn.
        rewrite list_lookup_alter_ne by lia.
        by rewrite (list_lookup_middle (futures w) []).
  - apply (manned_but_manned (work f)).
    + apply (acts_on_manned_but _ w); [|by apply manned_manned_but].
      unfold settle. rewrite finish_snd.
      eapply acts_on_trans; [apply acts_on_done|].
      apply acts_on_alter. rewrite futures_done. congruence.
    + apply staffed_idle. intros t'. unfold settle.
      rewrite finish_snd, (done_eq w (work f) t Ht).
      destruct (_ !! path t); cbn; rewrite list_lookup_alter_eq, Ht; cbn;
        intros [= <-]; done.
Qed.

Lemma manned_step delay a w w' :
  wf w -> manned w -> step delay a w = Some w' -> manned w'.
Proof.
  intros Hwf H. destruct a; cbn -[dispatch shutdown_begin shutdown_end].
  - case_match; [|done]. intros [= <-]. by apply (manned_same w).
  - destruct (observer w) as [[]|]; try done. intros [= <-].
    by apply manned_outside, manned_dispatch.
  - case_bool_decide; [|done].
    destruct (first_pending _) as [fid|] eqn:Hfp; [|done].
    cbn. intros [= <-].
    destruct (first_pending_Some _ _ Hfp) as (g & Hg & Hgs).
    intros tid t Ht. destruct (H tid t Ht) as [A B]. split.
    + intros Hs. destruct (A Hs) as (fid' & f' & wake & Hf' & Hw' & Hs').
      exists fid', f', wake. split; [|done]. cbn.
      rewrite list_lookup_alter_ne; [done|]. intros ->. congruence.
    + intros Hs Hp. destruct (B Hs Hp) as (fid' & f' & Hf' & Hw' & Hl').
      cbn. destruct (decide (fid' = fid)) as [->|Hne].
      * exists fid, (with_fstate (RUNNING (AtLoop (now w))) f'). cbn.
        rewrite list_lookup_alter_eq, Hf'. done.
      * exists fid', f'. cbn. by rewrite list_lookup_alter_ne.
  - destruct (futures w !! fid) as [f|] eqn:Hf; [|done]. cbn.
    destruct (fstate f) as [|[wake|]| | |] eqn:Hst; try done.
    case_match; [|done]. intros [= <-]. by apply manned_loop.
  - destruct (futures w !! fid) as [f|] eqn:Hf; [|done]. cbn.
    destruct (fstate f) as [|[wake|]| | |] eqn:Hst; try done.
    intros [= <-].
    destruct (wf_fut w Hwf fid f Hf) as (t & Ht & Hok).
    rewrite Hst in Hok. by apply (manned_return fid f rc w t).
  - destruct (pool_shutdown w); [done|]. intros [= <-].
    by apply manned_outside, manned_shutdown_begin.
  - case_match; [|done]. intros [= <-]. apply (manned_same w); try done;
      unfold outside, shutdown_end, seq, modify;
      destruct (threadpool w); cbn; by destruct (observer w).
Qed.

Lemma manned_reachable delay w : reachable delay w -> manned w.
Proof.
  intros [acts Hr].
  assert (H : forall w0, wf w0 -> manned w0 ->
              run delay acts w0 = Some w -> manned w).
  { clear Hr. induction acts as [|a acts IH]; intros w0 Hwf Hm; cbn.
    - by intros [= <-].
    - destruct (step delay a w0) as [w1|] eqn:Hs; [|done]. cbn.
      apply IH; [by eapply wf_step | by eapply manned_step]. }
  apply (H AutoOcrScheduler_init); [apply wf_init| |done].
  intros tid t. cbn. by rewrite lookup_nil.
Qed.

Lemma cancel_clears tid t w :
  tasks w !! tid = Some t ->
  exists t', tasks (snd (cancel tid w)) !! tid = Some t'
             /\ last_touch t' = None
             /\ (state t = QUEUED -> is_Some (future t) -> state t' = DONE).
Proof.
  intros Ht. unfold cancel, seq, modify, on_task. cbn.
  rewrite list_lookup_alter_eq, Ht. cbn. case_bool_decide as Hq; cbn.
  - destruct (future t) as [fid|] eqn:Hf; cbn.
    + unfold on_task_done, on_task. cbn.
      rewrite !list_lookup_alter_eq, Ht. cbn.
      destruct (current_tasks w !! path t); cbn;
        rewrite !list_lookup_alter_eq, Ht; cbn; eauto.
    + rewrite list_lookup_alter_eq, Ht. cbn. eexists.
      split; [done|]. split; [done|]. by intros _ [? [=]].
  - rewrite list_lookup_alter_eq, Ht. cbn. eexists.
    split; [done|]. split; [done|]. by intros ?.
Qed.

Lemma cancel_unregisters tid t w :
  tasks w !! tid = Some t -> state t = QUEUED -> is_Some (future t) ->
  current_tasks (snd (cancel tid w)) !! path t = None.
Proof.
  intros Ht Hq [fid Hf]. unfold cancel, seq, modify, on_task. cbn.
  rewrite list_lookup_alter_eq, Ht. cbn.
  rewrite bool_decide_eq_true_2 by done. rewrite Hf. cbn.
  unfold on_task_done, on_task. cbn.
  rewrite !list_lookup_alter_eq, Ht. cbn.
  destruct (current_tasks w !! path t) eqn:Hr; cbn;
    [apply lookup_delete_eq | done].
Qed.

Lemma resume_cancelled delay tid t fid f w w' :
  tasks w !! tid = Some t -> last_touch t = None ->
  futures w !! fid = Some f -> work f = tid ->
  step delay (Resume fid) w = Some w' ->
  task_state w' tid = Some DONE /\ history w' = history w.
Proof.
  intros Ht Hl Hf Hw. cbn. rewrite Hf. cbn.
  destruct (fstate f) as [|[wake|]| | |]; try done.
  case_match; [|done]. intros [= <-].
  unfold process_loop. rewrite Hw, Ht, Hl, (done_eq w tid t Ht).
  unfold task_state.
  destruct (current_tasks w !! path t); unfold settle; cbn;
    by rewrite list_lookup_alter_eq, Ht.
Qed.

(** A delete that reaches the task of a path before its job has started
    clears its last_touch; a QUEUED task is DONE and out of the registry at
    once; and in every continuation in which the path is not touched again
    the external job is never run for the task, and a waking worker of the
    task ends it as DONE. *)
Lemma delete_before_due_frame (delay : Z) (w : World) (p : string)
  (tid : nat) (t : OcrTask) :
  reachable delay w -> observer w = Some Watching ->
  current_tasks w !! p = Some tid -> tasks w !! tid = Some t ->
  state t <> ACTIVE ->
  exists w1,
    step delay (Deliver (FileDeleted p)) w = Some w1
    /\ (last_touch <$> tasks w1 !! tid) = Some None
    /\ (state t = QUEUED ->
        task_state w1 tid = Some DONE /\ current_tasks w1 !! p = None)
    /\ forall acts w2,
         Forall (avoids p) acts -> run delay acts w1 = Some w2 ->
         invocations tid (history w2) = invocations tid (history w)
         /\ (last_touch <$> tasks w2 !! tid) = Some None
         /\ forall fid f w3,
              futures w2 !! fid = Some f -> work f = tid ->
              step delay (Resume fid) w2 = Some w3 ->
              task_state w3 tid = Some DONE
              /\ invocations tid (history w3) = invocations tid (history w).
Proof.
  intros Hr Hobs Hreg Ht Hna.
  pose proof (wf_reachable delay w Hr) as Hwf.
  pose proof (handled_reachable delay w Hr p tid t Hreg Ht) as Hfut.
  destruct (wf_reg w Hwf p tid Hreg) as (t0 & Ht0 & Hp & _).
  assert (t0 = t) as -> by congruence.
  exists (outside (on_file_deleted p) w).
  assert (Hs : step delay (Deliver (FileDeleted p)) w
               = Some (outside (on_file_deleted p) w)).
  { cbn -[on_file_deleted]. by rewrite Hobs. }
  set (w1 := outside (on_file_deleted p) w) in *.
  pose proof (wf_step delay _ w w1 Hwf Hs) as Hwf1.
  assert (Q : quiet tid w w1).
  { apply quiet_outside, quiet_on_file_deleted. }
  assert (E : tasks w1 = tasks (snd (cancel tid (record (Deleted p (now w)) w)))
              /\ current_tasks w1
                 = current_tasks (snd (cancel tid (record (Deleted p (now w)) w)))).
  { subst w1. unfold outside, on_file_deleted, seq, modify.
    cbn -[cancel]. rewrite Hreg.
    by destruct (cancel tid _) as [[e|] w']. }
  destruct E as [Et Ec].
  destruct (cancel_clears tid t (record (Deleted p (now w)) w) Ht)
    as (t1 & Ht1 & Hl1 & Hd1).
  rewrite <- Et in Ht1.
  assert (Hc : calm tid w1).
  { split; [eauto|]. intros fid f Hf Hw Hst.
    destruct Q as (_ & F & _). specialize (F fid f Hf Hw Hst).
    destruct (wf_fut w Hwf fid f F) as (t' & Ht' & Hok).
    rewrite Hst in Hok. rewrite Hw in Ht'. cbn in Hok. congruence. }
  split; [done|]. split; [by rewrite Ht1; cbn; rewrite Hl1|]. split.
  - intros Hq. unfold task_state. rewrite Ht1. cbn.
    split; [by rewrite Hd1|]. rewrite Ec, <- Hp.
    by apply (cancel_unregisters tid t).
  - intros acts w2 Ha Hrun.
    assert (Hp1 : path t1 = p).
    { destruct Q as (T & _ & _). destruct (T t Ht) as (t' & Ht' & Hp' & _).
      congruence. }
    rewrite <- Hp1 in Ha.
    destruct (quiet_run delay tid acts t1 w1 w2 Hwf1 Ht1 Hc Ha Hrun)
      as (Q2 & [(t2 & Ht2 & Hl2) Hc2] & Hwf2).
    destruct Q as (_ & _ & I). destruct Q2 as (_ & _ & I2).
    split; [congruence|]. split; [by rewrite Ht2; cbn; rewrite Hl2|].
    intros fid f w3 Hf Hw Hs3.
    destruct (resume_cancelled delay tid t2 fid f w2 w3 Ht2 Hl2 Hf Hw Hs3)
      as [Hd Hh].
    split; [done|]. rewrite Hh. congruence.
Qed.

(** ** Coalescing: the touches of one path *)

Lemma apart_refl p w : apart p w w.
Proof. by repeat split. Qed.

Lemma apart_trans p a b c : apart p a b -> apart p b c -> apart p a c.
Proof.
  intros (A1 & B1 & C1 & D1 & E1 & F1 & G1) (A2 & B2 & C2 & D2 & E2 & F2 & G2).
  repeat split; eauto; congruence.
Qed.

Lemma other_next p tid w w' : apart p w w' -> other p tid w -> other p tid w'.
Proof.
  intros (_ & B & _) H t' Ht' Hp. by eapply (H t'); eauto.
Qed.

Lemma apart_update p tid g w :
  other p tid w -> (forall t, path (g t) = path t) ->
  apart p w (update_task tid g w).
Proof.
  intros Ho Hg. split; [|split; [|by repeat split]]; cbn.
  - intros tid' t Ht Hp. rewrite list_lookup_alter. case_decide; [|done].
    subst tid'. by destruct (Ho t Ht Hp).
  - intros tid' t' Ht' Hp. rewrite list_lookup_alter in Ht'.
    case_decide; [|done]. subst tid'.
    apply fmap_Some in Ht'. destruct Ht' as (t & Ht & ->).
    rewrite Hg in Hp. by destruct (Ho t Ht Hp).
Qed.

Lemma apart_futures p g w : apart p w (set_futures g w).
Proof. by repeat split. Qed.

Lemma apart_unregister p q w :
  q <> p -> apart p w (set_current_tasks (delete q) w).
Proof. intros Hne. repeat split; cbn; eauto. by apply lookup_delete_ne. Qed.

Lemma apart_register p q tid w :
  q <> p -> apart p w (set_current_tasks (insert q tid) w).
Proof. intros Hne. repeat split; cbn; eauto. by apply lookup_insert_ne. Qed.

Lemma apart_enqueue p tid w : other p tid w -> apart p w (snd (enqueue tid w)).
Proof.
  intros Ho. unfold enqueue, on_task.
  destruct (tasks w !! tid) as [t|] eqn:Ht; [|apply apart_refl].
  case_bool_decide; [|apply apart_refl]. unfold seq, modify, submit. cbn.
  destruct (pool_shutdown w); cbn.
  - by apply apart_update.
  - apply (apart_trans _ _ (update_task tid (with_state QUEUED) w));
      [by apply apart_update|].
    eapply apart_trans; [apply apart_futures|].
    apply apart_update; [|done]. cbn.
    eapply (other_next _ _ w); [|done]. by apply apart_update.
Qed.

Lemma apart_done p tid w : other p tid w -> apart p w (snd (done tid w)).
Proof.
  intros Ho. destruct (tasks w !! tid) as [t|] eqn:Ht.
  - rewrite (done_eq w tid t Ht).
    destruct (current_tasks w !! path t); cbn.
    + eapply apart_trans; [by apply (apart_update p tid (with_state DONE))|].
      apply apart_unregister. by apply Ho.
    + by apply apart_update.
  - unfold done, seq, modify, on_task_done, on_task. cbn.
    rewrite list_lookup_alter_eq, Ht. cbn. by apply apart_update.
Qed.

Lemma apart_cancel p tid w : other p tid w -> apart p w (snd (cancel tid w)).
Proof.
  intros Ho. unfold cancel, seq, modify. cbn.
  set (w1 := update_task tid (with_last_touch None) w).
  assert (A1 : apart p w w1) by by apply apart_update.
  pose proof (other_next p tid w w1 A1 Ho) as Ho1.
  unfold on_task. destruct (tasks w1 !! tid) as [t|]; [|done].
  case_bool_decide; [|done]. destruct (future t) as [fid|]; [|done].
  unfold seq, future_cancel, modify.
  eapply apart_trans; [exact A1|].
  eapply apart_trans; [apply apart_futures|]. apply apart_done.
  eapply other_next; [apply apart_futures | exact Ho1].
Qed.

Lemma apart_touch p tid w : other p tid w -> apart p w (snd (touch tid w)).
Proof.
  intros Ho. unfold touch, seq, modify. cbn.
  set (w1 := update_task tid _ w).
  assert (A1 : apart p w w1) by by apply apart_update.
  pose proof (other_next p tid w w1 A1 Ho) as Ho1.
  unfold on_task. destruct (tasks w1 !! tid) as [t|]; [|done].
  case_bool_decide; [|done].
  eapply apart_trans; [exact A1 | by apply apart_enqueue].
Qed.

Lemma apart_history p o w :
  match o with
  | Touched q _ => q <> p
  | Invoked _ q _ => q <> p
  | _ => True
  end -> apart p w (record o w).
Proof.
  intros H. repeat split; eauto; cbn; unfold runs_on, touches; cbn;
    destruct o; try done; by case_decide.
Qed.

Lemma apart_loop p delay tid w :
  other p tid w -> apart p w (snd (process_loop delay tid w)).
Proof.
  intros Ho. unfold process_loop.
  destruct (tasks w !! tid) as [t|] eqn:Ht; [|apply apart_refl].
  destruct (last_touch t).
  - case_match; cbn.
    + set (w1 := update_task tid (with_state ACTIVE) w).
      assert (A1 : apart p w w1) by by apply apart_update.
      eapply apart_trans; [exact A1|].
      eapply apart_trans;
        [apply (apart_update p tid (with_last_touch None));
         [by eapply other_next|done]|].
      apply apart_history. by apply Ho.
    + by apply apart_update.
  - rewrite finish_snd. by apply apart_done.
Qed.

Lemma apart_return p tid rc w :
  other p tid w -> apart p w (snd (process_return tid rc w)).
Proof.
  intros Ho. unfold process_return. destruct (decide (rc = 0)) as [Hrc|Hrc];
    [|apply apart_refl].
  destruct (tasks w !! tid) as [t|] eqn:Ht; [|apply apart_refl].
  destruct (last_touch t); rewrite finish_snd;
    [by apply apart_enqueue | by apply apart_done].
Qed.

Lemma apart_settle p fid r w : apart p w (snd r) -> apart p w (settle fid r).
Proof. intros H. eapply apart_trans; [exact H | apply apart_futures]. Qed.

Lemma apart_outside p m w : apart p w (snd (m w)) -> apart p w (outside m w).
Proof.
  unfold outside. destruct (m w) as [[e|] w1]; cbn; [|done].
  intros H. eapply apart_trans; [exact H | by repeat split].
Qed.

Lemma apart_on_file_deleted p q w :
  wf w -> q <> p -> apart p w (snd (on_file_deleted q w)).
Proof.
  intros Hwf Hne. unfold on_file_deleted, seq, modify. cbn -[cancel].
  assert (A1 : apart p w (record (Deleted q (now w)) w))
    by by apply apart_history.
  destruct (current_tasks w !! q) as [tid|] eqn:Hr; [|done].
  eapply apart_trans; [exact A1|]. apply apart_cancel.
  intros t Ht. destruct (wf_reg w Hwf q tid Hr) as (t' & Ht' & Hp & _).
  cbn in Ht. congruence.
Qed.

Lemma apart_on_file_touched p q w :
  wf w -> q <> p -> apart p w (snd (on_file_touched q w)).
Proof.
  intros Hwf Hne. unfold on_file_touched, seq, modify.
  cbn -[touch OcrTask_init].
  assert (A1 : apart p w (record (Touched q (now w)) w))
    by by apply apart_history.
  eapply apart_trans; [exact A1|].
  destruct (current_tasks w !! q) as [tid|] eqn:Hr.
  - apply apart_touch.
    intros t Ht. destruct (wf_reg w Hwf q tid Hr) as (t' & Ht' & Hp & _).
    cbn in Ht. congruence.
  - unfold OcrTask_init, seq, modify. cbn -[touch].
    set (w1 := set_tasks _ _).
    assert (A2 : apart p (record (Touched q (now w)) w) w1).
    { subst w1. split; [|split; [|by repeat split]]; cbn.
      - intros tid t Ht _. by apply lookup_app_l_Some.
      - intros tid t' Ht' Hp. apply lookup_snoc_Some in Ht'.
        destruct Ht' as [[_ Ht']|[_ <-]]; [done|]. cbn in Hp. congruence. }
    assert (Ho : other p (length (tasks w)) w1).
    { intros t. subst w1. cbn. rewrite list_lookup_middle by done.
      intros [= <-]. done. }
    pose proof (apart_touch p (length (tasks w)) w1 Ho) as A3.
    destruct (touch _ w1) as [[e|] w2]; cbn in *.
    + by eapply apart_trans.
    + eapply apart_trans; [exact A2|]. eapply apart_trans; [exact A3|].
      by apply apart_register.
Qed.

Lemma extends_refl w : extends w w.
Proof. by exists []. Qed.

Lemma extends_trans a b c : extends a b -> extends b c -> extends a c.
Proof.
  intros [n1 E1] [n2 E2]. exists (n2 ++ n1). by rewrite E2, E1, app_assoc.
Qed.

Lemma extends_record o w : extends w (record o w).
Proof. by exists [o]. Qed.

Ltac extends_side :=
  first [ apply extends_refl | apply extends_trans
        | intros; apply extends_record | by intros; exists [] ].

Lemma extends_step delay a w w' : step delay a w = Some w' -> extends w w'.
Proof.
  destruct a; cbn -[dispatch shutdown_begin shutdown_end].
  - case_match; [|done]. intros [= <-]. by exists [].
  - destruct (observer w) as [[]|]; try done. intros [= <-].
    apply preserves_outside; try extends_side.
    apply preserves_dispatch; extends_side.
  - case_bool_decide; [|done]. destruct (first_pending _); [|done].
    cbn. intros [= <-]. by exists [].
  - destruct (futures w !! fid) as [f|]; [|done]. cbn.
    destruct (fstate f) as [|[wake|]| | |]; try done.
    case_match; [|done]. intros [= <-].
    apply (extends_trans _ (snd (process_loop delay (work f) w)));
      [|by exists []].
    unfold process_loop. destruct (tasks w !! work f) as [t|]; [|by exists []].
    destruct (last_touch t).
    + case_match; cbn; [by eexists [_] | by exists []].
    + rewrite finish_snd. apply preserves_done; extends_side.
  - destruct (futures w !! fid) as [f|]; [|done]. cbn.
    destruct (fstate f) as [|[wake|]| | |]; try done. intros [= <-].
    apply (extends_trans _ (snd (process_return (work f) rc w)));
      [|by exists []].
    unfold process_return. destruct (decide (rc = 0)) as [Hrc|Hrc];
    [|by exists []].
    destruct (tasks w !! work f) as [t|]; [|by exists []].
    destruct (last_touch t); rewrite finish_snd;
      [apply preserves_enqueue | apply preserves_done]; extends_side.
  - destruct (pool_shutdown w); [done|]. intros [= <-].
    apply preserves_outside; try extends_side.
    apply preserves_shutdown_begin; try extends_side.
    apply preserves_cancel; extends_side.
  - case_match; [|done]. intros [= <-].
    apply preserves_outside; try extends_side.
    apply preserves_shutdown_end; extends_side.
Qed.

Arguments touches : simpl never.
Arguments runs_on : simpl never.

Lemma coalesced_apart p delay w w' :
  apart p w w' -> coalesced p delay w -> coalesced p delay w'.
Proof.
  intros (A & B & C & D & E & F & G) [Hs H]. split; [congruence|].
  rewrite E. destruct (touches p (history w)) as [|lt rest].
  - destruct H as (H1 & H2 & H3). rewrite D, C.
    split; [done|]. split; [done|].
    intros tid t' Ht' Hp'. by eapply (H3 tid t'); eauto.
  - destruct H as (tid & t & Ht & Hp & Ho & H). exists tid, t.
    split; [eauto|]. split; [done|]. split.
    + intros tid' t' Ht' Hp'. eauto.
    + unfold waiting, served in *. rewrite D, C, F. exact H.
Qed.

Lemma coalesced_same p delay w w' :
  tasks w' = tasks w -> current_tasks w' = current_tasks w ->
  history w' = history w -> now w' = now w ->
  pool_shutdown w' = pool_shutdown w ->
  coalesced p delay w -> coalesced p delay w'.
Proof.
  intros Et Er Eh En Es. apply coalesced_apart.
  repeat split; rewrite ?Et, ?Er, ?Eh; eauto.
Qed.

Lemma coalesced_outside p delay m w :
  coalesced p delay (snd (m w)) -> coalesced p delay (outside m w).
Proof.
  unfold outside. destruct (m w) as [[e|] w1]; cbn; [|done].
  by apply coalesced_same.
Qed.

Lemma coalesced_tick p delay d w :
  0 <= d -> coalesced p delay w ->
  coalesced p delay (set_now (fun t => t + d) w).
Proof.
  intros Hd [Hs H]. split; [done|]. cbn.
  destruct (touches p (history w)) as [|lt rest]; [exact H|].
  destruct H as (tid & t & Ht & Hp & Ho & H). exists tid, t.
  split; [done|]. split; [done|]. split; [exact Ho|].
  destruct H as [H|(r & H1 & H2 & H3 & H4)].
  - by left.
  - right. exists r. cbn. split; [done|]. split; [done|].
    split; [lia|done].
Qed.

Lemma touches_touched p t h : touches p (Touched p t :: h) = t :: touches p h.
Proof. unfold touches. cbn. by rewrite decide_True. Qed.

Lemma touches_invoked p tid q t h :
  touches p (Invoked tid q t :: h) = touches p h.
Proof. done. Qed.

Lemma runs_on_touched p q t h : runs_on p (Touched q t :: h) = runs_on p h.
Proof. done. Qed.

Lemma runs_on_invoked p tid t h :
  runs_on p (Invoked tid p t :: h) = t :: runs_on p h.
Proof. unfold runs_on. cbn. by rewrite decide_True. Qed.

Lemma history_touch tid w : history (snd (touch tid w)) = history w.
Proof.
  apply (preserves_touch (fun a b => history b = history a)); try done.
  intros a b c. congruence.
Qed.

Lemma history_init p w :
  history (snd (OcrTask_init p
                  (fun tid => modify (set_current_tasks (insert p tid))) w))
  = history w.
Proof.
  unfold OcrTask_init, seq, modify. cbn -[touch].
  set (w1 := set_tasks _ w).
  pose proof (history_touch (length (tasks w)) w1) as E.
  by destruct (touch _ w1) as [[e|] w2].
Qed.

Lemma coalesced_touched p delay w :
  wf w -> coalesced p delay w ->
  spaced delay (touches p (history (snd (on_file_touched p w)))) ->
  coalesced p delay (snd (on_file_touched p w)).
Proof.
  intros Hwf [Hs H]. unfold on_file_touched, seq, modify.
  cbn -[touch OcrTask_init].
  destruct (current_tasks w !! p) as [tid|] eqn:Hr.
  - destruct (wf_reg w Hwf p tid Hr) as (t & Ht & Hp & Hd).
    destruct (wf_touch (record (Touched p (now w)) w) tid t
                (wf_record _ _ Hwf) Ht Hd) as (-> & _).
    cbn [snd]. change (now (record (Touched p (now w)) w)) with (now w).
    change (history (update_task tid _ (record (Touched p (now w)) w)))
      with (Touched p (now w) :: history w).
    rewrite touches_touched. intros Hsp. split; [done|].
    change (history (update_task tid _ (record (Touched p (now w)) w)))
      with (Touched p (now w) :: history w).
    rewrite touches_touched.
    destruct (touches p (history w)) as [|lt rest].
    { destruct H as (_ & H & _). congruence. }
    destruct H as (tid0 & t0 & Ht0 & Hp0 & Ho & H).
    assert (tid0 = tid) as -> by (symmetry; by eapply Ho).
    assert (t0 = t) as -> by congruence.
    exists tid, (with_last_touch (Some (now w)) t).
    split; [by cbn; rewrite list_lookup_alter_eq, Ht|]. split; [done|].
    split.
    { intros tid' t'. cbn. rewrite list_lookup_alter. case_decide; [done|].
      apply Ho. }
    destruct H as [(H1 & H2 & H3 & H4)|(r & H1 & H2 & H3 & H4 & H5)].
    + left. by repeat split.
    + exfalso. destruct Hsp as [Hsp _]. lia.
  - destruct (touches p (history w)) as [|lt rest] eqn:Et.
    2:{ destruct H as (tid0 & t0 & Ht0 & Hp0 & Ho & H). intros Hsp.
        destruct H as [(H1 & H2 & H3 & H4)|(r & H1 & H2 & H3 & H4 & H5)];
          [congruence|].
        exfalso.
        pose proof (history_init p (record (Touched p (now w)) w)) as E.
        unfold modify in E. rewrite E in Hsp.
        change (history (record (Touched p (now w)) w))
          with (Touched p (now w) :: history w) in Hsp.
        rewrite touches_touched, Et in Hsp.
        destruct Hsp as [Hsp _]. lia. }
    destruct H as (H1 & H2 & H3). intros _.
    unfold OcrTask_init, touch, seq, modify, on_task; cbn -[enqueue].
    rewrite list_lookup_alter_eq, list_lookup_middle by done.
    cbn -[enqueue]. rewrite bool_decide_eq_true_2 by done.
    rewrite (enqueue_open _ _ (with_last_touch (Some (now w)) (OcrTask_new p)));
        [| by cbn; rewrite list_lookup_alter_eq, list_lookup_middle
         | by left | done].
    split; [done|]. cbn [snd history].
    match goal with
    | |- context [touches p (history ?w')] =>
        change (history w') with (Touched p (now w) :: history w)
    end.
    rewrite touches_touched.
    exists (length (tasks w)),
      (mkTask p (Some (now w)) (Some (length (futures w))) QUEUED).
    split; [by cbn; rewrite !list_lookup_alter_eq, list_lookup_middle|].
    split; [done|]. split.
    { intros tid' t'. cbn. rewrite !list_lookup_alter.
      case_decide; [done|]. intros Ht' Hp'.
      apply lookup_snoc_Some in Ht'. destruct Ht' as [[_ Ht']|[? _]]; [|done].
      by destruct (H3 tid' t' Ht'). }
    left. split; [done|]. split; [by cbn; rewrite lookup_insert_eq|].
    split; [done|by left].
Qed.

Lemma coalesced_own p delay w tid1 t1 :
  coalesced p delay w -> tasks w !! tid1 = Some t1 -> path t1 = p ->
  pool_shutdown w = false
  /\ exists lt rest, touches p (history w) = lt :: rest
       /\ owner p tid1 w
       /\ (waiting p lt tid1 t1 w \/ served p delay lt tid1 t1 w).
Proof.
  intros [Hs H] Ht1 Hp1. split; [done|].
  destruct (touches p (history w)) as [|lt rest].
  { destruct H as (_ & _ & H). by destruct (H tid1 t1 Ht1). }
  destruct H as (tid & t & Ht & Hp & Ho & H).
  assert (tid1 = tid) as -> by (by eapply Ho).
  assert (t1 = t) as -> by congruence. eauto.
Qed.

Lemma coalesced_done p delay lt rest tid t w :
  pool_shutdown w = false -> touches p (history w) = lt :: rest ->
  tasks w !! tid = Some t -> path t = p -> owner p tid w ->
  served p delay lt tid t w ->
  coalesced p delay (snd (done tid w)).
Proof.
  intros Hs Et Ht Hp Ho (r & H1 & H2 & H3 & H4 & H5).
  assert (E : tasks (snd (done tid w)) = alter (with_state DONE) tid (tasks w)
              /\ history (snd (done tid w)) = history w
              /\ now (snd (done tid w)) = now w
              /\ pool_shutdown (snd (done tid w)) = pool_shutdown w
              /\ current_tasks (snd (done tid w)) !! p = None).
  { rewrite (done_eq w tid t Ht), Hp.
    destruct (current_tasks w !! p) eqn:Hr; cbn; repeat split.
    - apply lookup_delete_eq.
    - done. }
  destruct E as (E1 & E2 & E3 & E4 & E5).
  split; [congruence|]. rewrite E2, Et.
  exists tid, (with_state DONE t).
  split; [by rewrite E1, list_lookup_alter_eq, Ht|]. split; [done|].
  split.
  { intros tid' t'. rewrite E1, list_lookup_alter. case_decide; [done|].
    apply Ho. }
  right. exists r. rewrite E2, E3, E5. repeat split; try done. by right.
Qed.

Lemma coalesced_loop_own p delay w fid f wake t1 :
  wf w -> coalesced p delay w ->
  futures w !! fid = Some f -> fstate f = RUNNING (AtLoop wake) ->
  tasks w !! work f = Some t1 -> path t1 = p ->
  coalesced p delay (settle fid (process_loop delay (work f) w)).
Proof.
  intros Hwf Hc Hf Hst Ht1 Hp1.
  destruct (coalesced_own p delay w _ _ Hc Ht1 Hp1)
    as (Hs & lt & rest & Et & Ho & H).
  unfold process_loop. rewrite Ht1.
  destruct H as [(H1 & H2 & H3 & H4)|Hsv].
  - rewrite H3. destruct (lt + delay - now w <=? 0) eqn:Hdue.
    + apply coalesced_same with
        (w := record (Invoked (work f) (path t1) (now w))
                (update_task (work f) (with_last_touch None)
                   (update_task (work f) (with_state ACTIVE) w)));
        try done.
      split; [done|]. cbn [history record update_task set_tasks]. rewrite touches_invoked, Et.
      exists (work f), (with_last_touch None (with_state ACTIVE t1)).
      split; [by cbn; rewrite !list_lookup_alter_eq, Ht1|].
      split; [done|]. split.
      { intros tid' t'. cbn. rewrite !list_lookup_alter.
        case_decide; [done|]. apply Ho. }
      right. exists (now w). cbn [history record update_task set_tasks]. rewrite Hp1.
      rewrite runs_on_invoked, H1. apply Z.leb_le in Hdue.
      repeat split; try done; try lia. by left.
    + apply coalesced_same with
        (w := update_task (work f) (with_state SLEEPING) w); try done.
      split; [done|]. cbn [history update_task set_tasks]. rewrite Et.
      exists (work f), (with_state SLEEPING t1).
      split; [by cbn; rewrite !list_lookup_alter_eq, Ht1|].
      split; [done|]. split.
      { intros tid' t'. cbn. rewrite !list_lookup_alter.
        case_decide; [done|]. apply Ho. }
      left. repeat split; try done. by right.
  - pose proof Hsv as (r & _ & _ & _ & H4 & _). rewrite H4.
    pose proof (coalesced_done p delay lt rest _ _ w Hs Et Ht1 Hp1 Ho Hsv)
      as Hc'.
    revert Hc'. apply coalesced_same; unfold settle;
      by destruct (done (work f) w) as [[e|] w1].
Qed.

Lemma coalesced_return_own p delay w fid f rc t1 :
  wf w -> coalesced p delay w ->
  futures w !! fid = Some f -> fstate f = RUNNING InJob ->
  tasks w !! work f = Some t1 -> path t1 = p ->
  coalesced p delay (settle fid (process_return (work f) rc w)).
Proof.
  intros Hwf Hc Hf Hst Ht1 Hp1.
  destruct (coalesced_own p delay w _ _ Hc Ht1 Hp1)
    as (Hs & lt & rest & Et & Ho & H).
  destruct (wf_fut w Hwf fid f Hf) as (t' & Ht' & Hok).
  rewrite Hst in Hok. cbn in Hok. assert (t' = t1) as -> by congruence.
  unfold process_return. destruct (decide (rc = 0)) as [Hrc|Hrc].
  2:{ revert Hc. by apply coalesced_same. }
  rewrite Ht1.
  destruct H as [(H1 & H2 & H3 & [H4|H4])|Hsv]; try congruence.
  pose proof Hsv as (r & _ & _ & _ & H4 & _). rewrite H4.
  pose proof (coalesced_done p delay lt rest _ _ w Hs Et Ht1 Hp1 Ho Hsv)
    as Hc'.
  revert Hc'. apply coalesced_same; unfold settle;
    by destruct (done (work f) w) as [[e|] w1].
Qed.

Lemma spaced_app_r delay a b : spaced delay (a ++ b) -> spaced delay b.
Proof.
  induction a as [|x a IH]; [done|]. cbn [app].
  destruct (a ++ b) as [|y l] eqn:E; cbn.
  - destruct b; [done|]. by destruct a.
  - intros [_ H]. by apply IH.
Qed.

Lemma touches_app p a b : touches p (a ++ b) = touches p a ++ touches p b.
Proof. apply omap_app. Qed.

Lemma burst_app_r p delay a b : burst p delay (a ++ b) -> burst p delay b.
Proof.
  intros [U S]. split.
  - by apply Forall_app in U as [_ U].
  - rewrite touches_app in S. by eapply spaced_app_r.
Qed.

Lemma burst_extends p delay w w' :
  extends w w' -> burst p delay (history w') -> burst p delay (history w).
Proof. intros [new E]. rewrite E. apply burst_app_r. Qed.

Lemma burst_not_deleted p delay t h : ~ burst p delay (Deleted p t :: h).
Proof. intros [U _]. by apply Forall_cons in U as [U _]. Qed.

Lemma burst_not_shutdown p delay t h : ~ burst p delay (ShuttingDown t :: h).
Proof. intros [U _]. by apply Forall_cons in U as [U _]. Qed.

Lemma extends_on_file_deleted q w :
  extends (record (Deleted q (now w)) w) (snd (on_file_deleted q w)).
Proof.
  unfold on_file_deleted, seq, modify. cbn -[cancel].
  destruct (current_tasks w !! q); [|apply extends_refl].
  apply preserves_cancel; extends_side.
Qed.

Lemma extends_on_file_touched q w :
  extends w (snd (on_file_touched q w)).
Proof. apply preserves_on_file_touched; extends_side. Qed.

Lemma extends_shutdown_begin w :
  extends (record (ShuttingDown (now w)) w) (snd (shutdown_begin w)).
Proof.
  unfold shutdown_begin, seq, modify. cbn -[for_each].
  set (w1 := match observer w with Some _ => _ | None => _ end).
  assert (Hw1 : extends (record (ShuttingDown (now w)) w) (snd w1)
                /\ fst w1 = None).
  { subst w1. destruct (observer w); split; try done; by exists []. }
  destruct w1 as [o w1]. destruct Hw1 as [E Ho]. cbn in *. subst o.
  assert (E2 : extends w1 (snd (for_each cancel
                 (map snd (map_to_list (current_tasks w1))) w1))).
  { apply preserves_for_each; try extends_side.
    intros tid. apply preserves_cancel; extends_side. }
  destruct (for_each _ _ _) as [[e|] w2]; cbn in *.
  - by eapply extends_trans.
  - eapply extends_trans; [exact E|]. eapply extends_trans; [exact E2|].
    destruct (threadpool w2); by exists [].
Qed.

Lemma history_outside m w : history (outside m w) = history (snd (m w)).
Proof. unfold outside. by destruct (m w) as [[e|] w1]. Qed.

Lemma coalesced_on_file_touched p delay q w :
  wf w -> coalesced p delay w ->
  burst p delay (history (snd (on_file_touched q w))) ->
  coalesced p delay (snd (on_file_touched q w)).
Proof.
  intros Hwf Hc [_ Hs]. destruct (decide (q = p)) as [->|Hne].
  - by apply coalesced_touched.
  - by eapply coalesced_apart; [apply apart_on_file_touched|].
Qed.

Lemma coalesced_on_file_deleted p delay q w :
  wf w -> coalesced p delay w ->
  burst p delay (history (snd (on_file_deleted q w))) ->
  coalesced p delay (snd (on_file_deleted q w)).
Proof.
  intros Hwf Hc Hb. destruct (decide (q = p)) as [->|Hne].
  - apply (burst_extends _ _ _ _ (extends_on_file_deleted p w)) in Hb.
    by destruct (burst_not_deleted _ _ _ _ Hb).
  - by eapply coalesced_apart; [apply apart_on_file_deleted|].
Qed.

Lemma coalesced_dispatch p delay e w :
  wf w -> coalesced p delay w ->
  burst p delay (history (snd (dispatch e w))) ->
  coalesced p delay (snd (dispatch e w)).
Proof.
  intros Hwf Hc. destruct e; cbn -[on_file_deleted on_file_touched];
    auto using coalesced_on_file_touched, coalesced_on_file_deleted.
  unfold seq.
  pose proof (wf_on_file_deleted w src_path Hwf) as Hwf1.
  pose proof (coalesced_on_file_deleted p delay src_path w Hwf Hc) as H1.
  destruct (on_file_deleted src_path w) as [[e|] w1]; cbn in *; [done|].
  intros Hb. apply coalesced_on_file_touched; try done.
  apply H1. eapply burst_extends; [|exact Hb].
  apply extends_on_file_touched.
Qed.

Lemma other_or_own p tid w :
  other p tid w \/ exists t, tasks w !! tid = Some t /\ path t = p.
Proof.
  destruct (tasks w !! tid) as [t|] eqn:Ht.
  - destruct (decide (path t = p)) as [E|Hne]; [right; eauto|].
    left. intros t' Ht'. congruence.
  - left. intros t' Ht'. congruence.
Qed.

Lemma coalesced_step p delay a w w' :
  wf w -> coalesced p delay w -> step delay a w = Some w' ->
  burst p delay (history w') -> coalesced p delay w'.
Proof.
  intros Hwf Hc. destruct a; cbn -[dispatch shutdown_begin shutdown_end].
  - case_match eqn:Hd; [|done]. intros [= <-] _.
    apply coalesced_tick; [lia | done].
  - destruct (observer w) as [[]|]; try done. intros [= <-].
    rewrite history_outside. intros Hb.
    by apply coalesced_outside, coalesced_dispatch.
  - case_bool_decide; [|done]. destruct (first_pending _); [|done].
    cbn. intros [= <-] _. by eapply coalesced_apart; [apply apart_futures|].
  - destruct (futures w !! fid) as [f|] eqn:Hf; [|done]. cbn.
    destruct (fstate f) as [|[wake|]| | |] eqn:Hs; try done.
    case_match; [|done]. intros [= <-] _.
    destruct (other_or_own p (work f) w) as [Ho|(t1 & Ht1 & Hp)].
    + eapply coalesced_apart; [|exact Hc].
      by apply apart_settle, apart_loop.
    + by eapply coalesced_loop_own.
  - destruct (futures w !! fid) as [f|] eqn:Hf; [|done]. cbn.
    destruct (fstate f) as [|[wake|]| | |] eqn:Hs; try done.
    intros [= <-] _.
    destruct (other_or_own p (work f) w) as [Ho|(t1 & Ht1 & Hp)].
    + eapply coalesced_apart; [|exact Hc].
      by apply apart_settle, apart_return.
    + by eapply coalesced_return_own.
  - destruct (pool_shutdown w); [done|]. intros [= <-].
    rewrite history_outside. intros Hb.
    apply (burst_extends _ _ _ _ (extends_shutdown_begin w)) in Hb.
    by destruct (burst_not_shutdown _ _ _ _ Hb).
  - destruct Hc as [Hc _]. rewrite Hc. done.
Qed.

Lemma coalesced_init p delay : coalesced p delay AutoOcrScheduler_init.
Proof.
  split; [done|]. cbn. split; [done|]. split; [done|].
  intros tid t Ht. cbn in Ht. by rewrite lookup_nil in Ht.
Qed.

Lemma coalesced_run p delay acts : forall w w',
  wf w -> coalesced p delay w -> run delay acts w = Some w' ->
  burst p delay (history w') -> coalesced p delay w'.
Proof.
  induction acts as [|a acts IH]; intros w w' Hwf Hc; cbn.
  - by intros [= <-].
  - destruct (step delay a w) as [w1|] eqn:Hst; [|done]. cbn.
    intros Hr Hb. eapply IH; [| |exact Hr|exact Hb].
    + by eapply wf_step.
    + eapply coalesced_step; [exact Hwf|exact Hc|exact Hst|].
      clear -Hr Hb. revert w1 Hr. induction acts as [|a' acts IH']; cbn.
      * by intros w1 [= <-].
      * intros w1. destruct (step delay a' w1) as [w2|] eqn:Hst; [|done]. cbn.
        intros Hr. eapply burst_extends; [by eapply extends_step|]. eauto.
Qed.

Lemma coalesced_reachable p delay w :
  reachable delay w -> burst p delay (history w) -> coalesced p delay w.
Proof.
  intros [acts Hr]. eapply coalesced_run; [apply wf_init| |exact Hr].
  apply coalesced_init.
Qed.

(** ** The pool reaches every queued work item *)

Lemma untroubled_unattended acts :
  Forall untroubled acts -> Forall unattended acts.
Proof. intros H. eapply Forall_impl; [exact H|]. by intros []. Qed.

Lemma reachable_run delay acts w w' :
  reachable delay w -> run delay acts w = Some w' -> reachable delay w'.
Proof.
  intros [a0 H0] H. exists (a0 ++ acts). rewrite run_app, H0. exact H.
Qed.

Lemma run_step delay a acts w w1 r :
  step delay a w = Some w1 -> run delay acts w1 = r ->
  run delay (a :: acts) w = r.
Proof. intros H1 H2. cbn [run]. by rewrite H1. Qed.

Lemma run_one delay a w w1 :
  step delay a w = Some w1 -> run delay [a] w = Some w1.
Proof. intros H. by eapply run_step. Qed.

Lemma ahead_app n fs new :
  (n <= length fs)%nat -> ahead n (fs ++ new) = ahead n fs.
Proof.
  revert fs. induction n as [|n IH]; intros [|f fs]; cbn; try done; [lia|].
  intros H. rewrite IH; [done|lia].
Qed.

Lemma ahead_alter g j n fs :
  (forall f, fs !! j = Some f -> is_pending (g f) = is_pending f) ->
  ahead n (alter g j fs) = ahead n fs.
Proof.
  revert j fs. induction n as [|n IH]; intros j [|f fs] H; try done.
  destruct j as [|j].
  - change (alter g 0%nat (f :: fs)) with (g f :: fs). cbn.
    by rewrite (H f eq_refl).
  - change (alter g (S j) (f :: fs)) with (f :: alter g j fs). cbn.
    rewrite IH; [done|]. intros f' Hf'. by apply H.
Qed.

Lemma first_pending_ahead fs : forall fid f,
  fs !! fid = Some f -> is_pending f = true ->
  exists j, first_pending fs = Some j /\ (j <= fid)%nat
    /\ forall st, is_pending (with_fstate st f) = false -> (j < fid)%nat ->
         (ahead fid (alter (with_fstate st) j fs) + 1)%nat = ahead fid fs.
Proof.
  induction fs as [|a fs IH]; intros fid f Hf Hp; [done|]. cbn.
  destruct (is_pending a) eqn:Ha.
  - exists 0%nat. split; [done|]. split; [lia|]. intros st Hst Hlt.
    destruct fid as [|fid]; [lia|].
    change (alter (with_fstate st) 0%nat (a :: fs))
      with (with_fstate st a :: fs). cbn. rewrite Ha.
    assert (is_pending (with_fstate st a) = false) as ->; [|lia].
    revert Hst. unfold is_pending. cbn. done.
  - destruct fid as [|fid]; cbn in Hf; [simplify_eq; congruence|].
    destruct (IH fid f Hf Hp) as (j & -> & Hle & Hal).
    exists (S j). split; [done|]. split; [lia|]. intros st Hst Hlt.
    change (alter (with_fstate st) (S j) (a :: fs))
      with (a :: alter (with_fstate st) j fs). cbn. rewrite Ha.
    rewrite <- (Hal st Hst); lia.
Qed.

Lemma running_app fs new :
  running (fs ++ new) = (running fs + running new)%nat.
Proof. unfold running. by rewrite filter_app, length_app. Qed.

Lemma running_pending new :
  Forall (fun f => fstate f = PENDING) new -> running new = 0%nat.
Proof.
  induction 1 as [|f new Hf _ IH]; [done|]. rewrite running_cons, IH.
  unfold is_running. by rewrite Hf.
Qed.

Lemma running_pos fs :
  (0 < running fs)%nat -> exists j f, fs !! j = Some f /\ is_running f = true.
Proof.
  induction fs as [|a fs IH]; [unfold running; cbn; lia|].
  rewrite running_cons. destruct (is_running a) eqn:Ha.
  - intros _. by exists 0%nat, a.
  - intros H. destruct IH as (j & f & Hf & Hr); [lia|]. by exists (S j), f.
Qed.

(** What a piece of [process] does to the queue of the pool. *)
Lemma futures_loop delay tid w :
  futures (snd (process_loop delay tid w)) = futures w.
Proof.
  unfold process_loop. destruct (tasks w !! tid) as [t|]; [|done].
  destruct (last_touch t).
  - by case_match.
  - by rewrite finish_snd, futures_done.
Qed.

Lemma futures_return tid rc w :
  exists new, futures (snd (process_return tid rc w)) = futures w ++ new
              /\ Forall (fun f => fstate f = PENDING) new.
Proof.
  unfold process_return. destruct (decide (rc = 0)) as [Hrc|Hrc];
    [|by exists []; rewrite app_nil_r].
  destruct (tasks w !! tid) as [t|] eqn:Ht.
  2:{ exists []. by rewrite app_nil_r. }
  destruct (last_touch t); rewrite finish_snd.
  - unfold enqueue, on_task. rewrite Ht. case_bool_decide.
    + unfold seq, modify, submit. cbn. destruct (pool_shutdown w); cbn.
      * exists []. by rewrite app_nil_r.
      * exists [mkFuture tid PENDING]. split; [done|]. by constructor.
    + exists []. by rewrite app_nil_r.
  - exists []. by rewrite app_nil_r, futures_done.
Qed.

Lemma return_ends tid rc w :
  fst (process_return tid rc w) = Returns
  \/ exists e, fst (process_return tid rc w) = Raises e.
Proof.
  unfold process_return. destruct (decide (rc = 0)) as [Hrc|Hrc];
    [|right; eauto].
  destruct (tasks w !! tid) as [t|]; [|by left].
  destruct (last_touch t).
  - destruct (enqueue tid w) as [[e|] w1]; cbn; eauto.
  - destruct (done tid w) as [[e|] w1]; cbn; eauto.
Qed.

(** A worker that is in the external run gets to its end. *)
Lemma drive_job delay w j f :
  futures w !! j = Some f -> fstate f = RUNNING InJob ->
  exists w' st new,
    run delay [JobExit j 0] w = Some w'
    /\ futures w' = alter (with_fstate st) j (futures w ++ new)
    /\ Forall (fun f => fstate f = PENDING) new /\ ended st.
Proof.
  intros Hf Hs. cbn. rewrite Hf. cbn. rewrite Hs.
  destruct (futures_return (work f) 0 w) as (new & Hn & Hp).
  eexists _, _, new. split; [done|]. unfold settle. cbn. rewrite Hn.
  split; [done|]. split; [done|].
  destruct (return_ends (work f) 0 w) as [->|[e ->]]; [by left|right; eauto].
Qed.

Lemma alter_twice (st st' : FutureState) j (fs new : list Future) :
  alter (with_fstate st) j (alter (with_fstate st') j fs ++ new)
  = alter (with_fstate st) j (fs ++ new).
Proof.
  revert j. induction fs as [|a fs IH]; intros j; [done|].
  destruct j as [|j]; cbn; [done|]. f_equal. apply IH.
Qed.

(** Every worker gets to the end of its call. *)
Lemma drive_untroubled delay w j f :
  futures w !! j = Some f -> is_running f = true ->
  exists acts w' st new,
    Forall untroubled acts /\ run delay acts w = Some w'
    /\ futures w' = alter (with_fstate st) j (futures w ++ new)
    /\ Forall (fun f => fstate f = PENDING) new /\ ended st.
Proof.
  intros Hf Hr. unfold is_running in Hr.
  destruct (fstate f) as [|[wake|]| | |] eqn:Hs; try done.
  2:{ destruct (drive_job delay w j f Hf Hs) as (w' & st & new & H).
      exists [JobExit j 0], w', st, new. split; [|done].
      by repeat constructor. }
  set (d := wait_for delay wake (work f) w).
  set (w1 := set_now (fun t => t + d) w).
  assert (Hd : 0 <= d) by (unfold d, wait_for; lia).
  assert (Hw : wake <= now w1) by (unfold w1, d, wait_for; cbn; lia).
  assert (Hst : step delay (Tick d) w = Some w1).
  { cbn. by rewrite (proj2 (Z.leb_le 0 d) Hd). }
  assert (Hres : step delay (Resume j) w1
                 = Some (settle j (process_loop delay (work f) w1))).
  { cbn. rewrite Hf. cbn. rewrite Hs. cbn in Hw.
    by rewrite (proj2 (Z.leb_le _ _) Hw). }
  assert (Hfu := futures_loop delay (work f) w1).
  change (futures w1) with (futures w) in Hfu.
  destruct (fst (process_loop delay (work f) w1)) as [|e|[wake'|]] eqn:He.
  - exists [Tick d; Resume j],
      (settle j (process_loop delay (work f) w1)), FINISHED, [].
    split; [by repeat constructor|].
    split; [by eapply run_step; [exact Hst|]; eapply run_step; [exact Hres|]|].
    unfold settle. rewrite He. cbn.
    rewrite Hfu, app_nil_r. split; [done|]. split; [done|by left].
  - exists [Tick d; Resume j],
      (settle j (process_loop delay (work f) w1)), (RAISED e), [].
    split; [by repeat constructor|].
    split; [by eapply run_step; [exact Hst|]; eapply run_step; [exact Hres|]|].
    unfold settle. rewrite He. cbn.
    rewrite Hfu, app_nil_r. split; [done|]. split; [done|right; eauto].
  - exfalso. revert He. unfold process_loop.
    change (tasks w1) with (tasks w). change (now w1) with (now w + d).
    unfold d, wait_for.
    destruct (tasks w !! work f) as [t|]; [|done].
    destruct (last_touch t) as [lt|].
    + case_match eqn:Hc; [done|]. apply Z.leb_gt in Hc. lia.
    + by destruct (done _ _) as [[?|] ?].
  - set (w2 := settle j (process_loop delay (work f) w1)) in *.
    assert (Hf2 : futures w2 = alter (with_fstate (RUNNING InJob)) j (futures w)).
    { unfold w2, settle. rewrite He. cbn. by rewrite Hfu. }
    destruct (drive_job delay w2 j (with_fstate (RUNNING InJob) f))
      as (w3 & st & new & Hrun & Hf3 & Hnew & Hend); [|done|].
    { by rewrite Hf2, list_lookup_alter_eq, Hf. }
    exists [Tick d; Resume j; JobExit j 0], w3, st, new.
    split; [by repeat constructor|].
    split; [by eapply run_step; [exact Hst|]; eapply run_step; [exact Hres|]|].
    split; [|done].
    by rewrite Hf3, Hf2, alter_twice.
Qed.

Lemma drive delay w j f :
  futures w !! j = Some f -> is_running f = true ->
  exists acts w' st new,
    Forall unattended acts /\ run delay acts w = Some w'
    /\ futures w' = alter (with_fstate st) j (futures w ++ new)
    /\ Forall (fun f => fstate f = PENDING) new /\ ended st.
Proof.
  intros Hf Hr.
  destruct (drive_untroubled delay w j f Hf Hr)
    as (acts & w' & st & new & Ha & H).
  exists acts, w', st, new. split; [by apply untroubled_unattended|done].
Qed.

(** The pool starts every pending work item. *)
Lemma start_ahead_untroubled delay n : forall w fid f,
  reachable delay w -> futures w !! fid = Some f -> fstate f = PENDING ->
  (2 * ahead fid (futures w) + running (futures w) <= n)%nat ->
  exists acts w' wake,
    Forall untroubled acts /\ run delay acts w = Some w'
    /\ futures w' !! fid = Some (with_fstate (RUNNING (AtLoop wake)) f).
Proof.
  induction n as [n IH] using lt_wf_ind. intros w fid f Hre Hf Hs Hn.
  destruct (pool_bounded_reachable _ _ Hre) as [Hmax Hle].
  assert (Hp : is_pending f = true) by (unfold is_pending; by rewrite Hs).
  destruct (decide (running (futures w) < max_workers w)%nat) as [Hlt|Hge].
  - destruct (first_pending_ahead _ _ _ Hf Hp) as (j & Hj & Hjle & Hal).
    set (w1 := set_futures
                 (alter (with_fstate (RUNNING (AtLoop (now w)))) j) w).
    assert (Hst : step delay Start w = Some w1).
    { cbn. change (running_count w) with (running (futures w)).
      rewrite bool_decide_eq_true_2 by done. by rewrite Hj. }
    destruct (decide (j = fid)) as [->|Hne].
    + exists [Start], w1, (now w).
      split; [by repeat constructor|].
      split; [by apply run_one|]. cbn. by rewrite list_lookup_alter_eq, Hf.
    + destruct (first_pending_Some _ _ Hj) as (g & Hg & Hgs).
      destruct (IH (n - 1)%nat) with (w := w1) (fid := fid) (f := f)
        as (acts & w' & wake & Ha & Hr & Hfin); try done.
      * destruct (ahead fid (futures w)) eqn:E; [|lia].
        specialize (Hal (RUNNING (AtLoop (now w))) eq_refl). lia.
      * eapply reachable_run; [exact Hre|]. by apply run_one.
      * cbn. by rewrite list_lookup_alter_ne.
      * cbn. rewrite running_alter, Hg.
        specialize (Hal (RUNNING (AtLoop (now w))) eq_refl).
        unfold is_running at 1 2. rewrite Hgs. cbn. lia.
      * exists (Start :: acts), w', wake. split; [by constructor|].
        split; [by eapply run_step|done].
  - destruct (running_pos (futures w)) as (j & g & Hg & Hgr); [lia|].
    destruct (drive_untroubled delay w j g Hg Hgr)
      as (acts & w1 & st & new & Ha & Hr & Hfu & Hnew & Hend).
    assert (Hne : j <> fid).
    { intros ->. unfold is_running in Hgr. simplify_eq. by rewrite Hs in Hgr. }
    assert (Hst : is_running (with_fstate st g) = false).
    { by destruct Hend as [->|[e ->]]. }
    assert (Hstp : is_pending (with_fstate st g) = is_pending g).
    { unfold is_running, is_pending in *.
      destruct (fstate g); try done; by destruct Hend as [->|[e ->]]. }
    destruct (IH (n - 1)%nat) with (w := w1) (fid := fid) (f := f)
      as (acts' & w' & wake & Ha' & Hr' & Hfin); try done.
    * pose proof (running_lookup _ _ _ Hg Hgr). lia.
    * by eapply reachable_run.
    * rewrite Hfu, list_lookup_alter_ne by done.
      by apply lookup_app_l_Some.
    * rewrite Hfu, running_alter, running_app, (running_pending new Hnew).
      rewrite ahead_alter.
      2:{ intros g' Hg'. rewrite (lookup_app_l_Some _ _ _ _ Hg) in Hg'.
          by simplify_eq. }
      rewrite ahead_app by (apply lookup_lt_Some in Hf; lia).
      rewrite (lookup_app_l_Some _ _ _ _ Hg), Hst, Hgr.
      pose proof (running_lookup _ _ _ Hg Hgr). lia.
    * exists (acts ++ acts'), w', wake. split; [by apply Forall_app|].
      split; [|done]. by rewrite run_app, Hr.
Qed.

Lemma start_ahead delay n w fid f :
  reachable delay w -> futures w !! fid = Some f -> fstate f = PENDING ->
  (2 * ahead fid (futures w) + running (futures w) <= n)%nat ->
  exists acts w' wake,
    Forall unattended acts /\ run delay acts w = Some w'
    /\ futures w' !! fid = Some (with_fstate (RUNNING (AtLoop wake)) f).
Proof.
  intros Hre Hf Hs Hn.
  destruct (start_ahead_untroubled delay n w fid f Hre Hf Hs Hn)
    as (acts & w' & wake & Ha & H).
  exists acts, w', wake. split; [by apply untroubled_unattended|done].
Qed.

(** Steps of the clock and of the workers add runs to the history, and
    nothing else. *)
Lemma history_done tid w : history (snd (done tid w)) = history w.
Proof.
  unfold done, seq, modify, on_task_done, on_task. cbn.
  destruct (alter _ _ _ !! _); [|done]. by destruct (_ !! _).
Qed.

Lemma history_enqueue tid w : history (snd (enqueue tid w)) = history w.
Proof.
  unfold enqueue, on_task. destruct (tasks w !! tid) as [t|]; [|done].
  case_bool_decide; [|done]. unfold seq, modify, submit. cbn.
  by destruct (pool_shutdown w).
Qed.

Lemma history_unattended delay a w w' :
  unattended a -> step delay a w = Some w' ->
  history w' = history w
  \/ exists tid q t, history w' = Invoked tid q t :: history w.
Proof.
  destruct a; try done; intros _; cbn.
  - case_match; [|done]. intros [= <-]. by left.
  - case_bool_decide; [|done]. destruct (first_pending _); [|done].
    cbn. intros [= <-]. by left.
  - destruct (futures w !! fid) as [f|]; [|done]. cbn.
    destruct (fstate f) as [|[wake|]| | |]; try done.
    case_match; [|done]. intros [= <-]. cbn.
    unfold process_loop. destruct (tasks w !! work f) as [t|]; [|by left].
    destruct (last_touch t).
    + case_match; cbn; [right; eauto | by left].
    + rewrite finish_snd, history_done. by left.
  - destruct (futures w !! fid) as [f|]; [|done]. cbn.
    destruct (fstate f) as [|[wake|]| | |]; try done. intros [= <-]. cbn.
    unfold process_return. destruct (decide (rc = 0)) as [Hrc|Hrc];
    [|by left]. destruct (tasks w !! work f) as [t|]; [|by left].
    destruct (last_touch t); rewrite finish_snd;
      [rewrite history_enqueue | rewrite history_done]; by left.
Qed.

Lemma burst_unattended p delay acts : forall w w',
  Forall unattended acts -> run delay acts w = Some w' ->
  burst p delay (history w) ->
  burst p delay (history w')
  /\ touches p (history w') = touches p (history w).
Proof.
  induction acts as [|a acts IH]; intros w w' Ha; cbn.
  - by intros [= <-].
  - apply Forall_cons in Ha as [Ha Hacts].
    destruct (step delay a w) as [w1|] eqn:Hst; [|done]. cbn.
    intros Hr [Hu Hs].
    assert (H1 : burst p delay (history w1)
                 /\ touches p (history w1) = touches p (history w)).
    { destruct (history_unattended _ _ _ _ Ha Hst) as [E|(tid & q & t & E)];
        rewrite E; [done|]. rewrite touches_invoked.
      split; [|done]. split; [|done]. by constructor. }
    destruct H1 as [Hb1 Ht1].
    destruct (IH w1 w' Hacts Hr Hb1) as [Hb' Ht']. split; [done|congruence].
Qed.

Lemma rooted_refl w : rooted w w.
Proof. intros tid t Ht. eauto. Qed.

Lemma rooted_trans a b c : rooted a b -> rooted b c -> rooted a c.
Proof.
  intros H1 H2 tid t Ht. destruct (H1 tid t Ht) as (t1 & Ht1 & P1).
  destruct (H2 tid t1 Ht1) as (t2 & Ht2 & P2). exists t2. split; congruence.
Qed.

Lemma rooted_update tid g w :
  (forall t, path (g t) = path t) -> rooted w (update_task tid g w).
Proof.
  intros Hg tid' t Ht. cbn. rewrite list_lookup_alter. case_decide; [|eauto].
  subst. rewrite Ht. cbn. eauto.
Qed.

Ltac rooted_side :=
  first [ apply rooted_refl | apply rooted_trans
        | by intros; apply rooted_update | by intros; intros ? ? ?; eauto ].

Lemma rooted_enqueue tid : preserves rooted (enqueue tid).
Proof. apply preserves_enqueue; rooted_side. Qed.

Lemma rooted_done tid : preserves rooted (done tid).
Proof. apply preserves_done; rooted_side. Qed.

Lemma rooted_step delay a w w' :
  unattended a -> step delay a w = Some w' -> rooted w w'.
Proof.
  destruct a; try done; intros _; cbn.
  - case_match; [|done]. intros [= <-]. by intros ? ? ?; eauto.
  - case_bool_decide; [|done]. destruct (first_pending _); [|done].
    cbn. intros [= <-]. by intros ? ? ?; eauto.
  - destruct (futures w !! fid) as [f|]; [|done]. cbn.
    destruct (fstate f) as [|[wake|]| | |]; try done.
    case_match; [|done]. intros [= <-].
    apply (rooted_trans _ (snd (process_loop delay (work f) w)));
      [|by intros ? ? ?; eauto].
    unfold process_loop.
    destruct (tasks w !! work f) as [t|]; [|apply rooted_refl].
    destruct (last_touch t).
    + case_match; cbn; [|by apply rooted_update].
      apply (rooted_trans _ (update_task (work f) (with_state ACTIVE) w));
        [by apply rooted_update|].
      apply (rooted_trans _ (update_task (work f) (with_last_touch None)
                               (update_task (work f) (with_state ACTIVE) w)));
        [by apply rooted_update | by intros ? ? ?; eauto].
    + rewrite finish_snd. apply rooted_done.
  - destruct (futures w !! fid) as [f|]; [|done]. cbn.
    destruct (fstate f) as [|[wake|]| | |]; try done. intros [= <-].
    apply (rooted_trans _ (snd (process_return (work f) rc w)));
      [|by intros ? ? ?; eauto].
    unfold process_return. destruct (decide (rc = 0)) as [Hrc|Hrc];
    [|apply rooted_refl].
    destruct (tasks w !! work f) as [t|]; [|apply rooted_refl].
    destruct (last_touch t); rewrite finish_snd;
      [apply rooted_enqueue | apply rooted_done].
Qed.

Lemma rooted_run delay acts : forall w w',
  Forall unattended acts -> run delay acts w = Some w' -> rooted w w'.
Proof.
  induction acts as [|a acts IH]; intros w w' Ha; cbn.
  - intros [= <-]. apply rooted_refl.
  - apply Forall_cons in Ha as [Ha Hacts].
    destruct (step delay a w) as [w1|] eqn:Hst; [|done]. cbn. intros Hr.
    eapply rooted_trans; [by eapply rooted_step | by eapply IH].
Qed.

(** ** Liveness: the run of a touched path is ahead *)

Lemma run_follows delay p w lt rest :
  reachable delay w -> burst p delay (history w) ->
  touches p (history w) = lt :: rest ->
  exists acts w' r,
    Forall unattended acts /\ run delay acts w = Some w'
    /\ touches p (history w') = lt :: rest
    /\ runs_on p (history w') = [r] /\ lt + delay <= r.
Proof.
  intros Hre Hb Ht.
  destruct (coalesced_reachable p delay w Hre Hb) as [Hopen Hc].
  rewrite Ht in Hc. destruct Hc as (tid & t & Htid & Hp & Ho & [Hw|Hs]).
  2:{ destruct Hs as (r & Hr & Hle & _). exists [], w, r.
      by repeat split. }
  destruct Hw as (Hr0 & Hreg & Hlt & Hst).
  assert (has_live w tid) as (fid & f & Hf & Hwk & Hlive).
  { destruct (manned_reachable _ _ Hre tid t Htid) as [A B].
    destruct Hst as [Hq|Hsl]; [by apply B|].
    destruct (A Hsl) as (fid & f & wake & Hf & Hw & Hs).
    exists fid, f. split; [done|]. split; [done|].
    unfold is_live. by rewrite Hs. }
  assert (exists acts1 w1 wake f1,
            Forall unattended acts1 /\ run delay acts1 w = Some w1
            /\ futures w1 !! fid = Some f1 /\ work f1 = tid
            /\ fstate f1 = RUNNING (AtLoop wake))
    as (acts1 & w1 & wake & f1 & Ha1 & Hr1 & Hf1 & Hwk1 & Hs1).
  { destruct (wf_fut w (wf_reachable _ _ Hre) fid f Hf) as (t0 & Ht0 & Hok).
    rewrite Hwk, Htid in Ht0. injection Ht0 as <-.
    unfold is_live in Hlive.
    destruct (fstate f) as [|[wake|]| | |] eqn:Hfs; try done.
    - destruct (start_ahead delay _ w fid f Hre Hf Hfs (Nat.le_refl _))
        as (acts1 & w1 & wake & Ha1 & Hr1 & Hf1).
      by exists acts1, w1, wake, (with_fstate (RUNNING (AtLoop wake)) f).
    - by exists [], w, wake, f.
    - cbn in Hok. destruct Hst; congruence. }
  pose proof (reachable_run _ _ _ _ Hre Hr1) as Hre1.
  destruct (burst_unattended p delay acts1 w w1 Ha1 Hr1 Hb) as [Hb1 Ht1].
  rewrite Ht in Ht1.
  destruct (coalesced_reachable p delay w1 Hre1 Hb1) as [Hopen1 Hc1].
  rewrite Ht1 in Hc1.
  destruct Hc1 as (tid1 & t1 & Htid1 & Hp1 & Ho1 & [Hw1|Hs1']).
  2:{ destruct Hs1' as (r & Hr & Hle & _). by exists acts1, w1, r. }
  destruct Hw1 as (Hr01 & Hreg1 & Hlt1 & Hst1).
  destruct (rooted_run delay acts1 w w1 Ha1 Hr1 tid t Htid)
    as (t' & Ht' & Hp').
  assert (tid = tid1) by (apply (Ho1 tid t'); congruence). subst tid1.
  set (d := wait_for delay wake tid w1).
  set (w2 := set_now (fun t => t + d) w1).
  assert (Hd : 0 <= d) by (unfold d, wait_for; lia).
  assert (Hwake : wake <= now w1 + d) by (unfold d, wait_for; lia).
  assert (Hdue : lt + delay <= now w1 + d).
  { unfold d, wait_for. rewrite Htid1, Hlt1. lia. }
  assert (Hstep1 : step delay (Tick d) w1 = Some w2).
  { cbn. by rewrite (proj2 (Z.leb_le 0 d) Hd). }
  set (w3 := record (Invoked tid p (now w1 + d))
               (update_task tid (with_last_touch None)
                  (update_task tid (with_state ACTIVE) w2))).
  assert (Hstep2 : step delay (Resume fid) w2
                   = Some (settle fid (Blocks InJob, w3))).
  { cbn. rewrite Hf1. cbn. rewrite Hs1.
    rewrite (proj2 (Z.leb_le _ _) Hwake). do 2 f_equal.
    unfold process_loop. cbn. rewrite Hwk1, Htid1, Hlt1.
    rewrite (proj2 (Z.leb_le _ 0)) by lia. by rewrite Hp1. }
  exists (acts1 ++ [Tick d; Resume fid]), (settle fid (Blocks InJob, w3)),
    (now w1 + d).
  split; [apply Forall_app; split; [done|by repeat constructor]|].
  split.
  { rewrite run_app, Hr1. cbn [mbind option_bind].
    eapply run_step; [exact Hstep1|]. by apply run_one. }
  cbn [history settle snd set_futures w3 record].
  change (history (update_task _ _ (update_task _ _ w2))) with (history w1).
  rewrite touches_invoked, runs_on_invoked, Hr01. done.
Qed.

Lemma default_delay float getenv micros :
  getenv "OCR_PROCESSING_DELAY" = None ->
  COALESCING_DELAY float getenv micros = Some 3000000.
Proof. intros H. unfold COALESCING_DELAY, try_float. by rewrite H. Qed.

(** C1 (code bug).  The delay is 3.0 seconds when OCR_PROCESSING_DELAY is
    not set.  But touches that follow each other within the delay are not
    always answered by one run after the last of them: in the run
    [rewritten] the touches of a.pdf are at 0 s, 0 s and 1 s, the second
    [done()] of the first, cancelled task has removed the registry entry
    of the second task, the touch at 1 s has made a third task, and the
    external job is invoked twice on a.pdf, at 3 s (before the last touch
    plus the delay) and at 4 s, both runs being under way at once. *)
Theorem stale_done_doubles_the_run :
  (forall float getenv micros, getenv "OCR_PROCESSING_DELAY" = None ->
     COALESCING_DELAY float getenv micros = Some 3000000)
  /\ run 3000000 rewritten AutoOcrScheduler_init
     = Some (world_after 3000000 rewritten)
  /\ touches "a.pdf" (history (world_after 3000000 rewritten))
     = [1000000; 0; 0]
  /\ spaced 3000000 [1000000; 0; 0]
  /\ runs_on "a.pdf" (history (world_after 3000000 rewritten))
     = [4000000; 3000000]
  /\ 3000000 < 1000000 + 3000000
  /\ in_job (futures (world_after 3000000 rewritten)) = 2%nat
  /\ current_tasks (world_after 3000000 rewritten) !! "a.pdf" = Some 2%nat
  /\ task_state (world_after 3000000 rewritten) 1 = Some ACTIVE
  /\ task_state (world_after 3000000 rewritten) 2 = Some ACTIVE.
Proof.
  split; [apply default_delay|].
  split; [by vm_compute|]. split; [by vm_compute|].
  split; [cbn; lia|]. split; [by vm_compute|]. split; [lia|].
  split; [by vm_compute|]. split; by vm_compute.
Qed.

(** ** The first burst of touches of a path *)

(** While a path [p] was never deleted, the service was not shut down and
    each touch of [p] came less than the delay after the one before: the
    history shows at most one run of the external job on [p], made at or
    after the last touch plus the delay; once the task of [p] has left the
    registry it shows exactly one; and from every such state the clock and
    the workers alone bring the run about, so that the history then shows
    exactly one run, not before the last touch plus the delay. *)
Theorem undisturbed_burst_runs_once (delay : Z) (p : string) (w : World)
  (lt : Z) (rest : list Z) :
  reachable delay w ->
  burst p delay (history w) ->
  touches p (history w) = lt :: rest ->
  (length (runs_on p (history w)) <= 1)%nat
  /\ (forall r, r ∈ runs_on p (history w) -> lt + delay <= r <= now w)
  /\ (current_tasks w !! p = None -> exists r, runs_on p (history w) = [r])
  /\ exists acts w' r,
       Forall unattended acts /\ run delay acts w = Some w'
       /\ touches p (history w') = lt :: rest
       /\ runs_on p (history w') = [r] /\ lt + delay <= r.
Proof.
  intros Hre Hb Ht.
  destruct (coalesced_reachable p delay w Hre Hb) as [Hopen Hc].
  rewrite Ht in Hc. destruct Hc as (tid & t & Htid & Hp & Ho & Hc).
  split; [|split; [|split]].
  - destruct Hc as [(-> & _)|(r & -> & _)]; cbn; lia.
  - intros r Hr. destruct Hc as [(E & _)|(r' & E & Hle & Hnow & _)];
      rewrite E in Hr.
    + by apply elem_of_nil in Hr.
    + apply list_elem_of_singleton in Hr. subst r'. lia.
  - intros Hnone. destruct Hc as [(_ & Hreg & _)|(r & E & _)]; [|eauto].
    congruence.
  - by apply run_follows.
Qed.

Lemma undisturbed_burst_runs_once_witness :
  let w := world_after 3000000 written_twice in
  (length (runs_on "a.pdf" (history w)) <= 1)%nat
  /\ (forall r, r ∈ runs_on "a.pdf" (history w) ->
        1000000 + 3000000 <= r <= now w)
  /\ (current_tasks w !! "a.pdf" = None ->
        exists r, runs_on "a.pdf" (history w) = [r])
  /\ exists acts w' r,
       Forall unattended acts /\ run 3000000 acts w = Some w'
       /\ touches "a.pdf" (history w') = [1000000; 0]
       /\ runs_on "a.pdf" (history w') = [r] /\ 1000000 + 3000000 <= r.
Proof.
  intros w.
  apply (undisturbed_burst_runs_once 3000000 "a.pdf" w 1000000 [0]).
  - apply reachable_world_after. vm_compute. eauto.
  - split; [by repeat constructor|]. vm_compute. split; [done|exact I].
  - reflexivity.
Defined.

(** ** While the observer watches, the pool takes work *)

Lemma same_service_trans a b c :
  same_service a b -> same_service b c -> same_service a c.
Proof. intros [] []. split; congruence. Qed.

Ltac same_service_side := first [ done | apply same_service_trans ].

Lemma same_service_outside m w :
  preserves same_service m -> same_service w (outside m w).
Proof.
  intros H. unfold outside. specialize (H w).
  by destruct (m w) as [[e|] w1].
Qed.

Lemma same_service_loop delay tid w :
  same_service w (snd (process_loop delay tid w)).
Proof.
  unfold process_loop. destruct (tasks w !! tid) as [t|]; [|done].
  destruct (last_touch t) as [lt|]; [by case_match|].
  rewrite finish_snd. apply preserves_done; same_service_side.
Qed.

Lemma same_service_return tid rc w :
  same_service w (snd (process_return tid rc w)).
Proof.
  unfold process_return. destruct (decide (rc = 0)) as [Hrc|Hrc];
    [|done]. destruct (tasks w !! tid) as [t|]; [|done].
  destruct (last_touch t) as [lt|]; rewrite finish_snd.
  - apply preserves_enqueue; same_service_side.
  - apply preserves_done; same_service_side.
Qed.

Lemma attended_next w w' : same_service w w' -> attended w -> attended w'.
Proof. intros [E1 E2] H. unfold attended. rewrite E1, E2. exact H. Qed.

Lemma observer_shutdown_begin w :
  observer (snd (shutdown_begin w)) <> Some Watching.
Proof.
  unfold shutdown_begin, seq, modify. cbn -[for_each].
  set (w1 := match observer w with Some _ => _ | None => _ end).
  assert (Hw1 : observer (snd w1) <> Some Watching /\ fst w1 = None).
  { subst w1. destruct (observer w) eqn:E; cbn; rewrite ?E; by split. }
  destruct w1 as [o w1]. destruct Hw1 as [E1 Ho]. cbn in *. subst o.
  assert (H : same_service w1 (snd (for_each cancel
              (map snd (map_to_list (current_tasks w1))) w1))).
  { apply preserves_for_each; try same_service_side.
    intros tid. apply preserves_cancel; same_service_side. }
  destruct (for_each _ _ _) as [[e|] w2]; destruct H as [E3 E4]; cbn in *.
  - congruence.
  - destruct (threadpool w2); cbn; congruence.
Qed.

Lemma attended_step delay a w w' :
  attended w -> step delay a w = Some w' -> attended w'.
Proof.
  intros Hg. destruct a; cbn -[dispatch shutdown_begin shutdown_end].
  - case_match; [|done]. intros [= <-]. by revert Hg; apply attended_next.
  - destruct (observer w) as [[]|] eqn:Ho; try done. intros [= <-].
    revert Hg. apply attended_next.
    apply same_service_outside. apply preserves_dispatch; same_service_side.
  - case_bool_decide; [|done]. destruct (first_pending _); [|done].
    cbn. intros [= <-]. by revert Hg; apply attended_next.
  - destruct (futures w !! fid) as [f|]; [|done]. cbn.
    destruct (fstate f) as [|[wake|]| | |]; try done.
    case_match; [|done]. intros [= <-]. revert Hg. apply attended_next.
    apply (same_service_loop delay (work f) w).
  - destruct (futures w !! fid) as [f|]; [|done]. cbn.
    destruct (fstate f) as [|[wake|]| | |]; try done.
    intros [= <-]. revert Hg. apply attended_next.
    apply (same_service_return (work f) rc w).
  - destruct (pool_shutdown w); [done|]. intros [= <-]. intros Ho.
    pose proof (observer_shutdown_begin w) as H. unfold outside in Ho.
    by destruct (shutdown_begin w) as [[e|] w1].
  - case_match; [|done]. intros [= <-]. intros Ho. exfalso. revert Ho.
    unfold outside, shutdown_end, seq, modify.
    destruct (threadpool w); cbn; destruct (observer w) as [[]|] eqn:E; cbn;
      rewrite ?E; done.
Qed.

Lemma attended_reachable delay w : reachable delay w -> attended w.
Proof.
  intros [acts H]. revert H.
  assert (Hi : attended AutoOcrScheduler_init) by done.
  revert Hi. generalize AutoOcrScheduler_init.
  induction acts as [|a acts IH]; intros w0 Hi; cbn.
  - by intros [= <-].
  - destruct (step delay a w0) as [w1|] eqn:Hs; [|done]. cbn.
    eauto using attended_step.
Qed.

(** A delete that finds the worker of the task asleep: the worker wakes,
    sees no touch and ends the task. *)
Lemma delete_while_sleeping delay w p tid t :
  reachable delay w -> pool_shutdown w = false ->
  current_tasks w !! p = Some tid -> tasks w !! tid = Some t ->
  state t = SLEEPING ->
  exists fid d w2 w3,
    step delay (Tick d) (outside (on_file_deleted p) w) = Some w2
    /\ step delay (Resume fid) w2 = Some w3
    /\ task_state w3 tid = Some DONE
    /\ current_tasks w3 !! p = None
    /\ invocations tid (history w3) = invocations tid (history w).
Proof.
  intros Hre Hopen Hreg Ht Hsl.
  pose proof (wf_reachable _ _ Hre) as Hwf.
  destruct (wf_reg w Hwf p tid Hreg) as (t0 & Ht0 & Hp & _).
  assert (t0 = t) as -> by congruence.
  destruct (proj1 (manned_reachable _ _ Hre tid t Ht) Hsl)
    as (fid & f & wake & Hf & Hwk & Hfs).
  assert (E : outside (on_file_deleted p) w
              = update_task tid (with_last_touch None)
                  (record (Deleted p (now w)) w)).
  { unfold outside, on_file_deleted, seq, modify. cbn -[cancel].
    rewrite Hreg. unfold cancel, seq, modify, on_task. cbn.
    rewrite list_lookup_alter_eq, Ht. cbn.
    rewrite bool_decide_eq_false_2; [done|]. cbn. congruence. }
  rewrite E. set (w1 := update_task _ _ _).
  set (d := Z.max 0 (wake - now w)).
  set (w2 := set_now (fun t => t + d) w1).
  exists fid, d, w2. eexists.
  split; [cbn; by rewrite (proj2 (Z.leb_le 0 d)) by lia|].
  split.
  { cbn. rewrite Hf. cbn. rewrite Hfs.
    rewrite (proj2 (Z.leb_le _ _)) by lia. reflexivity. }
  unfold process_loop, task_state. cbn. rewrite Hwk.
  rewrite list_lookup_alter_eq, Ht. cbn.
  unfold done, seq, modify, on_task_done, on_task. cbn.
  rewrite !list_lookup_alter_eq, Ht. cbn. rewrite Hp, Hreg. cbn.
  rewrite !list_lookup_alter_eq, Ht. cbn.
  split; [done|]. split; [apply lookup_delete_eq|done].
Qed.

(** C4: a delete that reaches the task of a path before its job has
    started (the task is QUEUED or SLEEPING, not ACTIVE) clears its
    last_touch; a QUEUED task is DONE and out of the registry at once; the
    sleeping worker of a SLEEPING task wakes, runs nothing and ends the
    task as DONE, out of the registry; and in every continuation in which
    the path is not touched again the external job is never run for the
    task, and a waking worker of the task ends it as DONE. *)
Theorem delete_before_due_never_runs (delay : Z) (w : World) (p : string)
  (tid : nat) (t : OcrTask) :
  reachable delay w -> observer w = Some Watching ->
  current_tasks w !! p = Some tid -> tasks w !! tid = Some t ->
  state t <> ACTIVE ->
  exists w1,
    step delay (Deliver (FileDeleted p)) w = Some w1
    /\ (last_touch <$> tasks w1 !! tid) = Some None
    /\ (state t = QUEUED \/ state t = SLEEPING)
    /\ (state t = QUEUED ->
        task_state w1 tid = Some DONE /\ current_tasks w1 !! p = None)
    /\ (state t = SLEEPING ->
        exists fid d w2 w3,
          step delay (Tick d) w1 = Some w2
          /\ step delay (Resume fid) w2 = Some w3
          /\ task_state w3 tid = Some DONE
          /\ current_tasks w3 !! p = None
          /\ invocations tid (history w3) = invocations tid (history w))
    /\ forall acts w2,
         Forall (avoids p) acts -> run delay acts w1 = Some w2 ->
         invocations tid (history w2) = invocations tid (history w)
         /\ (last_touch <$> tasks w2 !! tid) = Some None
         /\ forall fid f w3,
              futures w2 !! fid = Some f -> work f = tid ->
              step delay (Resume fid) w2 = Some w3 ->
              task_state w3 tid = Some DONE
              /\ invocations tid (history w3) = invocations tid (history w).
Proof.
  intros Hre Hobs Hreg Ht Hna.
  destruct (delete_before_due_frame delay w p tid t Hre Hobs Hreg Ht Hna)
    as (w1 & Hs & Hl & Hq & Hrest).
  exists w1. split; [done|]. split; [done|].
  pose proof (wf_reachable _ _ Hre) as Hwf.
  split.
  { destruct (wf_reg w Hwf p tid Hreg) as (t0 & Ht0 & _ & Hnd).
    assert (t0 = t) as -> by congruence.
    pose proof (wf_new w Hwf tid t Ht). destruct (state t); auto; done. }
  split; [done|]. split; [|done].
  intros Hsl.
  assert (w1 = outside (on_file_deleted p) w) as ->.
  { revert Hs. cbn -[on_file_deleted]. rewrite Hobs. by intros [= <-]. }
  apply (delete_while_sleeping delay w p tid t); try done.
  by apply (attended_reachable delay).
Qed.

Lemma delete_before_due_never_runs_witness :
  let w := world_after 3000000 deleted_early in
  exists w1,
    step 3000000 (Deliver (FileDeleted "b.pdf")) w = Some w1
    /\ (last_touch <$> tasks w1 !! 0%nat) = Some None
    /\ (SLEEPING = QUEUED \/ SLEEPING = SLEEPING)
    /\ (SLEEPING = QUEUED ->
        task_state w1 0 = Some DONE /\ current_tasks w1 !! "b.pdf" = None)
    /\ (SLEEPING = SLEEPING ->
        exists fid d w2 w3,
          step 3000000 (Tick d) w1 = Some w2
          /\ step 3000000 (Resume fid) w2 = Some w3
          /\ task_state w3 0 = Some DONE
          /\ current_tasks w3 !! "b.pdf" = None
          /\ invocations 0 (history w3) = invocations 0 (history w))
    /\ forall acts w2,
         Forall (avoids "b.pdf") acts -> run 3000000 acts w1 = Some w2 ->
         invocations 0 (history w2) = invocations 0 (history w)
         /\ (last_touch <$> tasks w2 !! 0%nat) = Some None
         /\ forall fid f w3,
              futures w2 !! fid = Some f -> work f = 0%nat ->
              step 3000000 (Resume fid) w2 = Some w3 ->
              task_state w3 0 = Some DONE
              /\ invocations 0 (history w3) = invocations 0 (history w).
Proof.
  intros w.
  apply (delete_before_due_never_runs 3000000 w "b.pdf" 0
           (mkTask "b.pdf" (Some 0) (Some 0%nat) SLEEPING));
    try reflexivity; try done.
  apply reachable_world_after. vm_compute. eauto.
Defined.

(** ** A task whose worker has raised *)

Lemma stranded_same s k w w' :
  tasks w' = tasks w -> futures w' = futures w ->
  invocations s (history w') = invocations s (history w) ->
  stranded s k w -> stranded s k w'.
Proof. unfold stranded, task_state. by intros -> -> ->. Qed.

Lemma stranded_update s k tid g w :
  (tid = s -> forall t, state t = ACTIVE -> state (g t) = ACTIVE) ->
  stranded s k w -> stranded s k (update_task tid g w).
Proof.
  intros Hg (Hs & Hf & Hk). split; [|done].
  unfold task_state in *. cbn. rewrite list_lookup_alter.
  case_decide; [|done]. subst.
  destruct (tasks w !! s) as [t|]; [|done]. cbn in *. f_equal.
  apply Hg; [done|congruence].
Qed.

Lemma stranded_new s k t w :
  stranded s k w -> stranded s k (set_tasks (fun ts => ts ++ [t]) w).
Proof.
  intros (Hs & Hf & Hk). split; [|done].
  unfold task_state in *. cbn.
  destruct (tasks w !! s) as [t0|] eqn:E; [|done].
  by rewrite (lookup_app_l_Some _ _ _ _ E).
Qed.

Lemma stranded_submit s k tid w :
  tid <> s -> stranded s k w ->
  stranded s k (set_futures (fun fs => fs ++ [mkFuture tid PENDING]) w).
Proof.
  intros Hne (Hs & Hf & Hk). split; [done|]. split; [|done].
  intros fid f. cbn.
  intros [[_ H]|[_ <-]]%lookup_snoc_Some; [by apply (Hf fid)|]. cbn.
  congruence.
Qed.

Lemma stranded_alter s k g fid w :
  (forall f, futures w !! fid = Some f ->
     work (g f) = work f
     /\ (work f = s -> is_live f = false -> is_live (g f) = false)) ->
  stranded s k w -> stranded s k (set_futures (alter g fid) w).
Proof.
  intros Hg (Hs & Hf & Hk). split; [done|]. split; [|done].
  intros fid' f'. cbn. rewrite list_lookup_alter.
  case_decide; [|apply Hf]. subst.
  destruct (futures w !! fid') as [f|] eqn:E; [|done]. cbn.
  intros [= <-] Hw. destruct (Hg f eq_refl) as [H1 H2].
  rewrite H1 in Hw. apply H2; [done|]. by apply (Hf fid' f E).
Qed.

Lemma stranded_settle s k fid r :
  (forall f pos, fst r = Blocks pos -> futures (snd r) !! fid = Some f ->
     work f <> s) ->
  stranded s k (snd r) -> stranded s k (settle fid r).
Proof.
  intros Hw H. unfold settle. apply stranded_alter; [|done].
  intros f Hf. split; [done|]. intros E _.
  destruct (fst r) as [|e|pos] eqn:Hr; try done.
  by destruct (Hw f pos eq_refl Hf).
Qed.

Lemma finish_ends r pos : fst (finish r) <> Blocks pos.
Proof. by destruct r as [[e|] w]. Qed.

Lemma return_ends_call tid rc w pos :
  fst (process_return tid rc w) <> Blocks pos.
Proof.
  unfold process_return. destruct (decide (rc = 0)); [|done].
  destruct (tasks w !! tid) as [t|]; [|done].
  destruct (last_touch t); apply finish_ends.
Qed.

Lemma stranded_done s k tid w :
  tid <> s -> stranded s k w -> stranded s k (snd (done tid w)).
Proof.
  intros Hne H. unfold done, seq, modify, on_task_done, on_task. cbn.
  assert (H1 : stranded s k (update_task tid (with_state DONE) w)).
  { apply stranded_update; [|done]. intros E. by destruct Hne. }
  destruct (alter _ _ _ !! _); [|done].
  destruct (_ !! _); cbn; [|done]. by eapply stranded_same; [..|exact H1].
Qed.

Lemma stranded_enqueue s k tid w :
  tid <> s -> stranded s k w -> stranded s k (snd (enqueue tid w)).
Proof.
  intros Hne H. unfold enqueue, on_task.
  destruct (tasks w !! tid) as [t|]; [|done].
  case_bool_decide; [|done]. unfold seq, modify, submit. cbn.
  assert (H1 : stranded s k (update_task tid (with_state QUEUED) w)).
  { apply stranded_update; [|done]. intros E. by destruct Hne. }
  destruct (pool_shutdown w); cbn; [done|].
  apply stranded_update; [intros E; by destruct Hne|].
  by apply stranded_submit.
Qed.

(** The state of the task [tid] after an update that keeps states. *)
Lemma stranded_state s k tid g w t :
  (forall t, state (g t) = state t) -> stranded s k w ->
  tasks (update_task tid g w) !! tid = Some t -> tid = s ->
  state t = ACTIVE.
Proof.
  intros Hg (Hs & _) Ht ->. unfold task_state in Hs. cbn in Ht.
  rewrite list_lookup_alter_eq in Ht.
  destruct (tasks w !! s) as [t0|]; [|done]. cbn in *.
  injection Ht as <-. rewrite Hg. congruence.
Qed.

Lemma stranded_touch s k tid w :
  stranded s k w -> stranded s k (snd (touch tid w)).
Proof.
  intros H. unfold touch, seq, modify, on_task. cbn -[update_task].
  set (w1 := update_task tid _ w).
  assert (H1 : stranded s k w1) by (by apply stranded_update).
  destruct (tasks w1 !! tid) as [t|] eqn:Ht; [|done].
  case_bool_decide as Hn; [|done].
  destruct (decide (tid = s)) as [E|Hne]; [|by apply stranded_enqueue].
  pose proof (stranded_state s k tid (with_last_touch (Some (now w))) w t
                (fun _ => eq_refl) H Ht E).
  congruence.
Qed.

Lemma stranded_cancel s k tid w :
  stranded s k w -> stranded s k (snd (cancel tid w)).
Proof.
  intros H. unfold cancel, seq, modify, on_task. cbn -[update_task done].
  set (w1 := update_task tid _ w).
  assert (H1 : stranded s k w1) by (by apply stranded_update).
  destruct (tasks w1 !! tid) as [t|] eqn:Ht; [|done].
  case_bool_decide as Hq; [|done].
  destruct (decide (tid = s)) as [E|Hne].
  { pose proof (stranded_state s k tid (with_last_touch None) w t
                  (fun _ => eq_refl) H Ht E).
    congruence. }
  destruct (future t) as [fid|]; [|done].
  unfold future_cancel, modify. cbn -[update_task done].
  apply stranded_done; [done|]. apply stranded_alter; [|done].
  intros f _. unfold is_live. destruct f as [x []]; cbn; done.
Qed.

Lemma stranded_on_file_touched s k p w :
  stranded s k w -> stranded s k (snd (on_file_touched p w)).
Proof.
  intros H. unfold on_file_touched, seq, modify.
  cbn -[touch OcrTask_init].
  assert (H0 : stranded s k (record (Touched p (now w)) w))
    by (by eapply stranded_same; [..|exact H]).
  destruct (current_tasks w !! p) as [tid|]; [by apply stranded_touch|].
  unfold OcrTask_init, seq, modify. cbn -[touch].
  set (w1 := set_tasks _ _).
  assert (H1 : stranded s k w1) by (by apply stranded_new).
  pose proof (stranded_touch s k (length (tasks w)) w1 H1) as H2.
  destruct (touch (length (tasks w)) w1) as [[e|] w2]; cbn in *; [done|].
  by eapply stranded_same; [..|exact H2].
Qed.

Lemma stranded_on_file_deleted s k p w :
  stranded s k w -> stranded s k (snd (on_file_deleted p w)).
Proof.
  intros H. unfold on_file_deleted, seq, modify. cbn -[cancel].
  assert (H0 : stranded s k (record (Deleted p (now w)) w))
    by (by eapply stranded_same; [..|exact H]).
  destruct (current_tasks w !! p) as [tid|]; [by apply stranded_cancel|done].
Qed.

Lemma stranded_dispatch s k e w :
  stranded s k w -> stranded s k (snd (dispatch e w)).
Proof.
  intros H.
  destruct e; cbn -[on_file_deleted on_file_touched];
    auto using stranded_on_file_touched, stranded_on_file_deleted.
  unfold seq.
  pose proof (stranded_on_file_deleted s k src_path w H) as H1.
  destruct (on_file_deleted src_path w) as [[e|] w1]; cbn in *; [done|].
  by apply stranded_on_file_touched.
Qed.

Lemma stranded_outside s k m w :
  stranded s k (snd (m w)) -> stranded s k (outside m w).
Proof.
  unfold outside. destruct (m w) as [[e|] w1]; cbn; [|done].
  intros H. by eapply stranded_same; [..|exact H].
Qed.

Lemma stranded_for_each_cancel s k l : forall w,
  stranded s k w -> stranded s k (snd (for_each cancel l w)).
Proof.
  induction l as [|tid l IH]; intros w H; [done|].
  change (for_each cancel (tid :: l))
    with (seq (cancel tid) (for_each cancel l)).
  unfold seq. pose proof (stranded_cancel s k tid w H) as H1.
  destruct (cancel tid w) as [[e|] w1]; cbn in *; [done|]. by apply IH.
Qed.

Lemma stranded_shutdown_begin s k w :
  stranded s k w -> stranded s k (snd (shutdown_begin w)).
Proof.
  intros H. unfold shutdown_begin, seq, modify. cbn -[for_each].
  set (r1 := match observer w with Some _ => _ | None => _ end).
  assert (Hr : fst r1 = None /\ stranded s k (snd r1)).
  { subst r1. destruct (observer w); cbn; (split; [done|]);
      by eapply stranded_same; [..|exact H]. }
  destruct r1 as [o w1]. destruct Hr as [Ho H1]. cbn in *. subst o.
  pose proof (stranded_for_each_cancel s k
                (map snd (map_to_list (current_tasks w1))) w1 H1) as H2.
  destruct (for_each cancel _ w1) as [[e|] w2]; cbn in *; [done|].
  destruct (threadpool w2); cbn; [|done].
  by eapply stranded_same; [..|exact H2].
Qed.

Lemma stranded_shutdown_end s k w :
  stranded s k w -> stranded s k (snd (shutdown_end w)).
Proof.
  intros H. unfold shutdown_end, seq, modify.
  destruct (threadpool w); cbn; destruct (observer w); cbn;
    by eapply stranded_same; [..|exact H].
Qed.

Lemma stranded_loop delay s k tid w :
  tid <> s -> stranded s k w ->
  stranded s k (snd (process_loop delay tid w)).
Proof.
  intros Hne H. unfold process_loop.
  destruct (tasks w !! tid) as [t|]; [|done].
  destruct (last_touch t) as [lt|].
  - case_match; cbn -[update_task].
    + eapply (stranded_same _ _
                (update_task tid (with_last_touch None)
                   (update_task tid (with_state ACTIVE) w))); try done.
      * unfold invocations. cbn. by case_decide.
      * apply stranded_update; [intros E; by destruct Hne|].
        apply stranded_update; [intros E; by destruct Hne|done].
    + apply stranded_update; [intros E; by destruct Hne|done].
  - rewrite finish_snd. by apply stranded_done.
Qed.

Lemma stranded_return s k tid rc w :
  tid <> s -> stranded s k w ->
  stranded s k (snd (process_return tid rc w)).
Proof.
  intros Hne H. unfold process_return.
  destruct (decide (rc = 0)); [|done].
  destruct (tasks w !! tid) as [t|]; [|done].
  destruct (last_touch t); rewrite finish_snd.
  - by apply stranded_enqueue.
  - by apply stranded_done.
Qed.

(** A worker that runs does not work for a stranded task. *)
Lemma stranded_worker s k w fid f :
  stranded s k w -> futures w !! fid = Some f -> is_live f = true ->
  work f <> s.
Proof. intros (_ & Hf & _) Hl Hlive E. rewrite (Hf fid f Hl E) in Hlive. done. Qed.

(** No step of the service gets a stranded task going again. *)
Lemma stranded_step delay s k a w w' :
  stranded s k w -> step delay a w = Some w' -> stranded s k w'.
Proof.
  intros H.
  destruct a; cbn -[dispatch shutdown_begin shutdown_end settle].
  - case_match; [|done]. intros [= <-].
    by eapply stranded_same; [..|exact H].
  - destruct (observer w) as [[]|]; try done. intros [= <-].
    by apply stranded_outside, stranded_dispatch.
  - case_bool_decide; [|done].
    destruct (first_pending _) as [fid|] eqn:E; [|done].
    cbn. intros [= <-]. apply first_pending_Some in E as (f & Hf & Hp).
    apply stranded_alter; [|done]. intros f0 Hf0.
    assert (f0 = f) as -> by congruence. split; [done|].
    intros _. unfold is_live. by rewrite Hp.
  - destruct (futures w !! fid) as [f|] eqn:Hf; [|done]. cbn -[settle].
    destruct (fstate f) as [|[wake|]| | |] eqn:Hs; try done.
    case_match; [|done]. intros [= <-].
    assert (Hne : work f <> s).
    { eapply stranded_worker; eauto. unfold is_live. by rewrite Hs. }
    pose proof (stranded_loop delay s k (work f) w Hne H) as H1.
    apply stranded_settle; [|done]. intros f0 pos _.
    rewrite futures_loop, Hf. by intros [= <-].
  - destruct (futures w !! fid) as [f|] eqn:Hf; [|done]. cbn -[settle].
    destruct (fstate f) as [|[wake|]| | |] eqn:Hs; try done.
    intros [= <-].
    assert (Hne : work f <> s).
    { eapply stranded_worker; eauto. unfold is_live. by rewrite Hs. }
    apply stranded_settle; [|by apply stranded_return].
    intros f0 pos E. by destruct (return_ends_call (work f) rc w pos).
  - destruct (pool_shutdown w); [done|]. intros [= <-].
    by apply stranded_outside, stranded_shutdown_begin.
  - case_match; [|done]. intros [= <-].
    by apply stranded_outside, stranded_shutdown_end.
Qed.

Lemma stranded_run delay s k acts : forall w w',
  stranded s k w -> run delay acts w = Some w' -> stranded s k w'.
Proof.
  induction acts as [|a acts IH]; intros w w' H; cbn.
  - by intros [= <-].
  - destruct (step delay a w) as [w1|] eqn:Hs; [|done]. cbn.
    apply IH. by eapply stranded_step.
Qed.

Lemma failed_step delay w fid f rc :
  futures w !! fid = Some f -> fstate f = RUNNING InJob -> rc <> 0 ->
  step delay (JobExit fid rc) w = Some (failed_world fid w).
Proof.
  intros Hf Hs Hrc. cbn. rewrite Hf. cbn. rewrite Hs.
  unfold process_return. by destruct (decide (rc = 0)).
Qed.

(** After a run that has raised, the task of the worker is stranded. *)
Lemma stranded_failed w fid f :
  wf w -> futures w !! fid = Some f -> fstate f = RUNNING InJob ->
  stranded (work f) (invocations (work f) (history w)) (failed_world fid w).
Proof.
  intros Hwf Hf Hs.
  destruct (wf_fut w Hwf fid f Hf) as (t & Ht & Hok).
  rewrite Hs in Hok. cbn in Hok.
  split; [|split; [|done]].
  - unfold task_state. cbn. by rewrite Ht, <- Hok.
  - intros fid' f'. cbn. rewrite list_lookup_alter.
    case_decide as E.
    + subst. rewrite Hf. cbn. by intros [= <-].
    + intros Hf' Hw. destruct (is_live f') eqn:Hl; [|done].
      destruct E. symmetry.
      apply (wf_one w Hwf fid' fid f' f Hf' Hf Hl); [|done].
      unfold is_live. by rewrite Hs.
Qed.

Lemma stranded_no_live s k w : stranded s k w -> ~ has_live w s.
Proof.
  intros (_ & Hf & _) (fid & f & Hl & Hw & Hlive).
  rewrite (Hf fid f Hl Hw) in Hlive. done.
Qed.

(** What becomes of the task of a worker whose run has raised. *)
Lemma failed_for_good delay w fid f acts w' :
  wf w -> futures w !! fid = Some f -> fstate f = RUNNING InJob ->
  run delay acts (failed_world fid w) = Some w' ->
  task_state w' (work f) = Some ACTIVE /\ ~ has_live w' (work f)
  /\ invocations (work f) (history w') = invocations (work f) (history w).
Proof.
  intros Hwf Hf Hs Hr.
  pose proof (stranded_run delay _ _ acts _ w'
                (stranded_failed w fid f Hwf Hf Hs) Hr) as H.
  split; [apply H|]. split; [by eapply stranded_no_live|apply H].
Qed.

Lemma finished_step delay w fid f t :
  futures w !! fid = Some f -> fstate f = RUNNING InJob ->
  tasks w !! work f = Some t -> last_touch t = None ->
  step delay (JobExit fid 0) w = Some (finished_world fid t (work f) w).
Proof.
  intros Hf Hst Ht Hlt. cbn. rewrite Hf. cbn. rewrite Hst. f_equal.
  unfold process_return. rewrite decide_True by done.
  rewrite Ht, Hlt, (done_eq w (work f) t Ht).
  unfold finished_world.
  destruct (current_tasks w !! path t) eqn:Hr; cbn; [done|].
  unfold settle. cbn. apply world_eq; cbn; try done.
  by rewrite delete_id.
Qed.

(** C2 (code bug).  When the external job exits with a status other than
    0, [run()] raises ProcessExecutionError inside [process] (line 174):
    the call ends there and the exception is kept in the future of the
    worker.  The task does not go to DONE and the completion callback is
    not called: tasks, registry and history are as before the exit, the
    task of the worker is ACTIVE, and in whatever follows it stays ACTIVE
    and is never run again.  Of what the claim says only this holds:
    nothing is submitted again and no exception leaves the worker.  After
    a status 0, with no touch waiting, the task does go to DONE and its
    path leaves the registry. *)
Theorem failed_job_leaves_task_active (delay : Z) (w : World) (fid : nat)
  (f : Future) (rc : Z) :
  reachable delay w ->
  futures w !! fid = Some f -> fstate f = RUNNING InJob -> rc <> 0 ->
  step delay (JobExit fid rc) w = Some (failed_world fid w)
  /\ future_state (failed_world fid w) fid
     = Some (RAISED ProcessExecutionError)
  /\ tasks (failed_world fid w) = tasks w
  /\ task_state (failed_world fid w) (work f) = Some ACTIVE
  /\ current_tasks (failed_world fid w) = current_tasks w
  /\ length (futures (failed_world fid w)) = length (futures w)
  /\ uncaught (failed_world fid w) = uncaught w
  /\ history (failed_world fid w) = history w
  /\ (forall acts w', run delay acts (failed_world fid w) = Some w' ->
        task_state w' (work f) = Some ACTIVE
        /\ invocations (work f) (history w')
           = invocations (work f) (history w))
  /\ (forall t, tasks w !! work f = Some t -> last_touch t = None ->
        step delay (JobExit fid 0) w
        = Some (finished_world fid t (work f) w)
        /\ task_state (finished_world fid t (work f) w) (work f)
           = Some DONE
        /\ current_tasks (finished_world fid t (work f) w) !! path t
           = None).
Proof.
  intros Hre Hf Hs Hrc. pose proof (wf_reachable _ _ Hre) as Hwf.
  split; [by eapply failed_step|].
  split. { unfold future_state. cbn. by rewrite list_lookup_alter_eq, Hf. }
  split; [done|].
  split. { apply (stranded_failed w fid f Hwf Hf Hs). }
  split; [done|]. split; [apply length_alter|]. split; [done|].
  split; [done|]. split.
  - intros acts w' Hr.
    destruct (failed_for_good delay w fid f acts w' Hwf Hf Hs Hr)
      as (H1 & _ & H2). done.
  - intros t Ht Hlt. split; [by apply finished_step|].
    unfold finished_world, task_state. cbn.
    rewrite list_lookup_alter_eq, Ht. split; [done|apply lookup_delete_eq].
Qed.

Lemma failed_job_leaves_task_active_witness :
  let w := world_after 3000000 job_running in
  step 3000000 (JobExit 0 1) w = Some (failed_world 0 w)
  /\ future_state (failed_world 0 w) 0 = Some (RAISED ProcessExecutionError)
  /\ tasks (failed_world 0 w) = tasks w
  /\ task_state (failed_world 0 w) 0 = Some ACTIVE
  /\ current_tasks (failed_world 0 w) = current_tasks w
  /\ length (futures (failed_world 0 w)) = length (futures w)
  /\ uncaught (failed_world 0 w) = uncaught w
  /\ history (failed_world 0 w) = history w
  /\ (forall acts w', run 3000000 acts (failed_world 0 w) = Some w' ->
        task_state w' 0 = Some ACTIVE
        /\ invocations 0 (history w') = invocations 0 (history w))
  /\ (forall t, tasks w !! 0%nat = Some t -> last_touch t = None ->
        step 3000000 (JobExit 0 0) w = Some (finished_world 0 t 0 w)
        /\ task_state (finished_world 0 t 0 w) 0 = Some DONE
        /\ current_tasks (finished_world 0 t 0 w) !! path t = None).
Proof.
  intros w.
  apply (failed_job_leaves_task_active 3000000 w 0
           (mkFuture 0 (RUNNING InJob)) 1); try reflexivity; [|lia].
  apply reachable_world_after. vm_compute. eauto.
Defined.

(** C5 (code bug, the defect of C2).  When the external run returns with
    status 0 and the task was touched meanwhile (last_touch is not None),
    the task is not finished: it goes back to QUEUED, keeps the time of
    that touch, stays registered, and exactly one new pending future for
    it is appended to the pool; this holds in every world the service
    reaches while its pool takes work, so also for touches during the
    follow-up run.  But when the job exits with another status, [run()]
    raises and [enqueue()] is not called: the task stays ACTIVE holding
    the touch, no work item of the pool is for it, and in whatever follows
    it is never run again, so that touch and every later touch of the
    task are dropped. *)
Theorem failed_job_drops_the_touch (delay : Z) (w : World) (fid : nat)
  (f : Future) (t : OcrTask) (lt rc : Z) :
  reachable delay w -> pool_shutdown w = false ->
  futures w !! fid = Some f -> fstate f = RUNNING InJob ->
  tasks w !! work f = Some t -> last_touch t = Some lt -> rc <> 0 ->
  (step delay (JobExit fid 0) w = Some (chained_world fid (work f) w)
   /\ tasks (chained_world fid (work f) w) !! work f
      = Some (mkTask (path t) (Some lt) (Some (length (futures w))) QUEUED)
   /\ futures (chained_world fid (work f) w)
      = alter (with_fstate FINISHED) fid (futures w)
        ++ [mkFuture (work f) PENDING]
   /\ current_tasks (chained_world fid (work f) w) = current_tasks w
   /\ history (chained_world fid (work f) w) = history w)
  /\ (step delay (JobExit fid rc) w = Some (failed_world fid w)
      /\ tasks (failed_world fid w) !! work f = Some t
      /\ state t = ACTIVE
      /\ ~ has_live (failed_world fid w) (work f)
      /\ forall acts w', run delay acts (failed_world fid w) = Some w' ->
           task_state w' (work f) = Some ACTIVE
           /\ ~ has_live w' (work f)
           /\ invocations (work f) (history w')
              = invocations (work f) (history w)).
Proof.
  intros Hr Hp Hl Hst Ht Hlt Hrc.
  pose proof (wf_reachable delay w Hr) as Hwf.
  destruct (wf_fut w Hwf fid f Hl) as (t' & Ht' & Hok).
  rewrite Hst in Hok. cbn in Hok. assert (t' = t) as -> by congruence.
  split; [repeat split|repeat split].
  - cbn. rewrite Hl. cbn. rewrite Hst. f_equal.
    unfold process_return. rewrite decide_True by done. rewrite Ht, Hlt.
    by rewrite (enqueue_open w (work f) t) by auto.
  - unfold chained_world, enqueued_world. cbn.
    rewrite !list_lookup_alter_eq, Ht. destruct t; cbn in *. by subst.
  - unfold chained_world, enqueued_world. cbn.
    apply lookup_lt_Some in Hl.
    apply list_eq. intros i. rewrite list_lookup_alter, !lookup_app.
    rewrite list_lookup_alter, length_alter. case_decide; [|done]. subst.
    destruct (lookup_lt_is_Some_2 _ _ Hl) as [g Hg]. by rewrite Hg.
  - by eapply failed_step.
  - done.
  - done.
  - eapply stranded_no_live. by apply stranded_failed.
  - by eapply failed_for_good.
  - by eapply failed_for_good.
  - by eapply failed_for_good.
Qed.

Lemma failed_job_drops_the_touch_witness :
  let w := world_after 3000000 touched_while_running in
  let t := mkTask "a.pdf" (Some 4000000) (Some 0%nat) ACTIVE in
  (step 3000000 (JobExit 0 0) w = Some (chained_world 0 0 w)
   /\ tasks (chained_world 0 0 w) !! 0%nat
      = Some (mkTask "a.pdf" (Some 4000000) (Some 1%nat) QUEUED)
   /\ futures (chained_world 0 0 w)
      = alter (with_fstate FINISHED) 0%nat (futures w)
        ++ [mkFuture 0 PENDING]
   /\ current_tasks (chained_world 0 0 w) = current_tasks w
   /\ history (chained_world 0 0 w) = history w)
  /\ (step 3000000 (JobExit 0 1) w = Some (failed_world 0 w)
      /\ tasks (failed_world 0 w) !! 0%nat = Some t
      /\ state t = ACTIVE
      /\ ~ has_live (failed_world 0 w) 0
      /\ forall acts w', run 3000000 acts (failed_world 0 w) = Some w' ->
           task_state w' 0 = Some ACTIVE
           /\ ~ has_live w' 0
           /\ invocations 0 (history w') = invocations 0 (history w)).
Proof.
  intros w t.
  apply (failed_job_drops_the_touch 3000000 w 0
           (mkFuture 0 (RUNNING InJob)) t 4000000 1);
    try reflexivity; [|lia].
  apply reachable_world_after. vm_compute. eauto.
Defined.

(** ** OcrmypdfConfig.__init__ and set_default_options *)

(** ** The default options of ocrmypdf *)

Lemma sublistb_sound l2 : forall l1, sublistb l1 l2 = true -> sublist l1 l2.
Proof.
  induction l2 as [|y l2 IH]; intros [|x l1]; cbn; try done.
  - intros _. apply sublist_nil_l.
  - destruct (String.eqb x y) eqn:E.
    + apply String.eqb_eq in E as ->. intros H. by apply sublist_skip, IH.
    + intros H. by apply sublist_cons, IH.
Qed.

Lemma memb_elem_of x l : memb x l = true <-> x ∈ l.
Proof.
  unfold memb. rewrite existsb_exists, list_elem_of_In. split.
  - by intros (y & Hy & ->%String.eqb_eq).
  - intros H. exists x. split; [done|apply String.eqb_refl].
Qed.

Lemma keys_ok_sound ks :
  keys_ok ks = true ->
  sublist ks option_keys
  /\ ~ ("--clean" ∈ ks /\ "--clean-final" ∈ ks)
  /\ ("--rotate-pages-threshold" ∈ ks -> "--rotate-pages" ∈ ks).
Proof.
  unfold keys_ok. rewrite !andb_true_iff, orb_true_iff, !negb_true_iff.
  rewrite andb_false_iff. rewrite <- !memb_elem_of.
  intros [[H1 H2] H3]. split; [by apply sublistb_sound|].
  split.
  - intros [A B]. destruct H2; congruence.
  - intros A. destruct H3; congruence.
Qed.

Lemma set_item_in {V} k (v : V) o : (k, v) ∈ set_item k v o.
Proof.
  induction o as [|[k' v'] o IH]; cbn; [apply list_elem_of_here|].
  case_decide; [apply list_elem_of_here | by apply list_elem_of_further].
Qed.

Lemma set_item_other {V} k (v : V) e o :
  e.1 <> k -> e ∈ o -> e ∈ set_item k v o.
Proof.
  intros Hne. induction o as [|[k' v'] o IH]; cbn; [by intros ?%elem_of_nil|].
  intros [->|H]%elem_of_cons.
  - case_decide; [done|apply list_elem_of_here].
  - case_decide; apply list_elem_of_further; auto.
Qed.

Ltac kept_item :=
  intros; repeat case_match; repeat (apply set_item_other; [done|]); done.

Lemma default_keys_ok (float : string -> option Q)
  (getenv : string -> option string) (with_suffix : string -> string -> string)
  (output_path : string) :
  keys_ok ((set_default_options float getenv with_suffix output_path []).*1)
  = true.
Proof.
  unfold set_default_options, set_skip_text, set_clean, set_deskew,
    set_rotate, set_jobs, set_sidecar, set_language.
  generalize (getenv_or getenv "OCR_CPUS_PER_JOB" "1"). intros jobs.
  destruct (getenv "OCR_LANGUAGES");
    destruct (looks_like_yes (Some (getenv_or getenv "OCR_GENERATE_SIDECAR" "0")));
    destruct (looks_like_yes (Some (getenv_or getenv "OCR_ROTATE" "0")));
    destruct (try_float float (getenv "OCR_ROTATE_CONFIDENCE") None);
    destruct (looks_like_yes (Some (getenv_or getenv "OCR_DESKEW" "0")));
    destruct (looks_like_yes (Some (getenv_or getenv "OCR_CLEAN" "0")));
    destruct (contains "final" (lower (getenv_or getenv "OCR_CLEAN" "0")));
    destruct (looks_like_yes (Some (getenv_or getenv "OCR_SKIP_TEXT" "0")));
    reflexivity.
Qed.

(** The options that a new [OcrmypdfConfig] holds are some of the nine
    keys, each once and in the order of the assignments; --jobs is always
    among them, with OCR_CPUS_PER_JOB or "1" as its value; --clean and
    --clean-final never come together, and --rotate-pages-threshold comes
    only with --rotate-pages. *)
Theorem default_options_shape (float : string -> option Q)
  (getenv : string -> option string) (with_suffix : string -> string -> string)
  (output_path : string) :
  let o := set_default_options float getenv with_suffix output_path [] in
  sublist (o.*1) option_keys
  /\ NoDup (o.*1)
  /\ ("--jobs", Some (Str (getenv_or getenv "OCR_CPUS_PER_JOB" "1"))) ∈ o
  /\ ~ ("--clean" ∈ o.*1 /\ "--clean-final" ∈ o.*1)
  /\ ("--rotate-pages-threshold" ∈ o.*1 -> "--rotate-pages" ∈ o.*1).
Proof.
  intros o.
  assert (Hk : NoDup option_keys).
  { unfold option_keys. repeat (apply NoDup_cons; split);
      [..|apply NoDup_nil_2];
      rewrite <- memb_elem_of; by intros [=]. }
  assert (Hj : ("--jobs", Some (Str (getenv_or getenv "OCR_CPUS_PER_JOB" "1")))
               ∈ o).
  { subst o. unfold set_default_options.
    set (e := ("--jobs", _)).
    assert (forall o, e ∈ o -> e ∈ set_rotate float getenv o) as Hr
      by (unfold set_rotate; kept_item).
    assert (forall o, e ∈ o -> e ∈ set_deskew getenv o) as Hd
      by (unfold set_deskew; kept_item).
    assert (forall o, e ∈ o -> e ∈ set_clean getenv o) as Hc
      by (unfold set_clean; kept_item).
    assert (forall o, e ∈ o -> e ∈ set_skip_text getenv o) as Ht
      by (unfold set_skip_text; kept_item).
    apply Ht, Hc, Hd, Hr. subst e. apply set_item_in. }
  destruct (keys_ok_sound _
              (default_keys_ok float getenv with_suffix output_path))
    as (H1 & H2 & H3).
  split; [done|]. split; [by eapply sublist_NoDup|done].
Qed.

(** With no variable of the environment set, ocrmypdf is called with
    --jobs 1 and the two paths, and nothing else. *)
Theorem arguments_without_environment (float : string -> option Q)
  (getenv : string -> option string) (with_suffix : string -> string -> string)
  (input_path output_path : string) :
  (forall name, getenv name = None) ->
  ocrmypdf_arguments float getenv with_suffix input_path output_path
  = [Config.Opt "--jobs"; Config.Val (Str "1");
     Config.Path input_path; Config.Path output_path].
Proof.
  intros H.
  unfold ocrmypdf_arguments, OcrmypdfConfig_init, set_default_options,
    set_skip_text, set_clean, set_deskew, set_rotate, set_jobs, set_sidecar,
    set_language, getenv_or.
  by rewrite !H.
Qed.

Lemma arguments_without_environment_witness :
  ocrmypdf_arguments (fun _ => None) (fun _ => None) (fun p _ => p)
    "/input/a.pdf" "/output/a.pdf"
  = [Config.Opt "--jobs"; Config.Val (Str "1");
     Config.Path "/input/a.pdf"; Config.Path "/output/a.pdf"].
Proof. by apply arguments_without_environment. Defined.

Lemma yes_not_in_final s :
  contains "final" (lower s) = true -> looks_like_yes (Some s) = false.
Proof.
  intros H. unfold looks_like_yes. apply bool_decide_eq_false_2.
  intros Hin. repeat (apply elem_of_cons in Hin as [E|Hin];
                      [rewrite E in H; discriminate H|]).
  by apply elem_of_nil in Hin.
Qed.

(** [clean.lower() in ('final')] tests a substring: every value of
    OCR_CLEAN whose lower case occurs in "final" (the empty string, "f",
    "Fin", "NAL", ...) switches on --clean-final, and --clean stays off. *)
Theorem clean_final_on_substring (float : string -> option Q)
  (getenv : string -> option string) (with_suffix : string -> string -> string)
  (output_path clean : string) :
  getenv "OCR_CLEAN" = Some clean ->
  contains "final" (lower clean) = true ->
  let o := set_default_options float getenv with_suffix output_path [] in
  ("--clean-final", None) ∈ o /\ "--clean" ∉ o.*1.
Proof.
  intros Hc Hin o.
  destruct (keys_ok_sound _
              (default_keys_ok float getenv with_suffix output_path))
    as (_ & Hex & _). fold o in Hex.
  assert (Hf : ("--clean-final", None) ∈ o).
  { subst o. unfold set_default_options.
    set (e := ("--clean-final", None)).
    assert (forall o, e ∈ o -> e ∈ set_skip_text getenv o) as Ht
      by (unfold set_skip_text; kept_item).
    apply Ht. unfold set_clean, getenv_or. rewrite Hc.
    change (default "0" (Some clean)) with clean.
    rewrite (yes_not_in_final clean Hin), Hin. apply set_item_in. }
  split; [done|]. intros Hcl. apply Hex. split; [done|].
  by apply (list_elem_of_fmap_2 fst) in Hf.
Qed.

Lemma clean_final_on_substring_witness :
  let getenv := fun name => if String.eqb name "OCR_CLEAN" then Some ""
                            else None in
  let o := set_default_options (fun _ => None) getenv (fun p _ => p)
             "/output/a.pdf" [] in
  ("--clean-final", None) ∈ o /\ "--clean" ∉ o.*1.
Proof.
  intros getenv.
  by apply (clean_final_on_substring _ getenv _ "/output/a.pdf" "").
Defined.

(** ** Invariants of the scheduler *)

(** In every state that the service reaches, a path of the registry names
    a stored task of that very path; the task is QUEUED, SLEEPING or ACTIVE
    and holds the handle of a work item of its own; and no other path
    names the same task. *)
Theorem registry_names_live_tasks (delay : Z) (w : World) (p : string)
  (tid : nat) :
  reachable delay w -> current_tasks w !! p = Some tid ->
  exists t fid f,
    tasks w !! tid = Some t /\ path t = p
    /\ (state t = QUEUED \/ state t = SLEEPING \/ state t = ACTIVE)
    /\ future t = Some fid /\ futures w !! fid = Some f /\ work f = tid
    /\ forall q, current_tasks w !! q = Some tid -> q = p.
Proof.
  intros Hre Hreg. pose proof (wf_reachable _ _ Hre) as Hwf.
  destruct (wf_reg w Hwf p tid Hreg) as (t & Ht & Hp & Hnd).
  destruct (handled_reachable _ _ Hre p tid t Hreg Ht) as [fid Hfid].
  destruct (wf_own w Hwf tid t fid Ht Hfid) as (f & Hf & Hwk).
  exists t, fid, f. repeat split; try done.
  - pose proof (wf_new w Hwf tid t Ht). destruct (state t); auto; done.
  - intros q Hq. destruct (wf_reg w Hwf q tid Hq) as (t' & Ht' & Hp' & _).
    congruence.
Qed.

Lemma registry_names_live_tasks_witness :
  let w := world_after 3000000 written_twice in
  exists t fid f,
    tasks w !! 0%nat = Some t /\ path t = "a.pdf"
    /\ (state t = QUEUED \/ state t = SLEEPING \/ state t = ACTIVE)
    /\ future t = Some fid /\ futures w !! fid = Some f /\ work f = 0%nat
    /\ forall q, current_tasks w !! q = Some 0%nat -> q = "a.pdf".
Proof.
  intros w. apply (registry_names_live_tasks 3000000 w "a.pdf" 0).
  - apply reachable_world_after. vm_compute. eauto.
  - reflexivity.
Defined.

(** A task never has two work items that are queued or running; a queued
    work item belongs to a QUEUED task that holds its handle, and a work
    item inside the external run to an ACTIVE task. *)
Theorem one_work_item_per_task (delay : Z) (w : World) (fid : nat)
  (f : Future) :
  reachable delay w -> futures w !! fid = Some f -> is_live f = true ->
  (forall fid' f', futures w !! fid' = Some f' -> is_live f' = true ->
     work f' = work f -> fid' = fid)
  /\ exists t, tasks w !! work f = Some t
       /\ (fstate f = PENDING -> state t = QUEUED /\ future t = Some fid)
       /\ (fstate f = RUNNING InJob -> state t = ACTIVE)
       /\ (forall wake, fstate f = RUNNING (AtLoop wake) ->
             state t = QUEUED \/ state t = SLEEPING
             \/ (state t = DONE /\ last_touch t = None)).
Proof.
  intros Hre Hf Hl. pose proof (wf_reachable _ _ Hre) as Hwf. split.
  - intros fid' f' Hf' Hl' Hw. by eapply (wf_one w Hwf).
  - destruct (wf_fut w Hwf fid f Hf) as (t & Ht & Hok). exists t.
    split; [done|]. split; [|split].
    + intros E. by rewrite E in Hok.
    + intros E. by rewrite E in Hok.
    + intros wake E. by rewrite E in Hok.
Qed.

Lemma one_work_item_per_task_witness :
  let w := world_after 3000000 written_twice in
  (forall fid' f', futures w !! fid' = Some f' -> is_live f' = true ->
     work f' = 0%nat -> fid' = 0%nat)
  /\ exists t, tasks w !! 0%nat = Some t
       /\ (PENDING = PENDING -> state t = QUEUED /\ future t = Some 0%nat)
       /\ (PENDING = RUNNING InJob -> state t = ACTIVE)
       /\ (forall wake, PENDING = RUNNING (AtLoop wake) ->
             state t = QUEUED \/ state t = SLEEPING
             \/ (state t = DONE /\ last_touch t = None)).
Proof.
  intros w.
  apply (one_work_item_per_task 3000000 w 0 (mkFuture 0 PENDING));
    try reflexivity.
  apply reachable_world_after. vm_compute. eauto.
Defined.

(** ** Progress of the pool *)

(** The pool starves no work item: from every state that the service
    reaches, steps of the clock and of the workers alone get a queued work
    item started. *)
Theorem pool_starts_every_work_item (delay : Z) (w : World) (fid : nat)
  (f : Future) :
  reachable delay w -> futures w !! fid = Some f -> fstate f = PENDING ->
  exists acts w' wake,
    Forall unattended acts /\ run delay acts w = Some w'
    /\ futures w' !! fid = Some (mkFuture (work f) (RUNNING (AtLoop wake))).
Proof.
  intros Hre Hf Hs.
  destruct (start_ahead delay _ w fid f Hre Hf Hs (Nat.le_refl _))
    as (acts & w' & wake & H). by exists acts, w', wake.
Qed.

(** Four files at once: the pool has three workers, the fourth work item
    waits. *)
Lemma pool_starts_every_work_item_witness :
  let w := world_after 3000000 four_files in
  exists acts w' wake,
    Forall unattended acts /\ run 3000000 acts w = Some w'
    /\ futures w' !! 3%nat = Some (mkFuture 3 (RUNNING (AtLoop wake))).
Proof.
  intros w.
  apply (pool_starts_every_work_item 3000000 w 3 (mkFuture 3 PENDING));
    try reflexivity.
  apply reachable_world_after. vm_compute. eauto.
Defined.

(** Every call of [process] ends: a worker that sleeps or is inside the
    external run gets, by the clock and its own steps alone, to the end of
    its call (it returns or raises); the other work items stay as they
    are, and what the call queues comes behind them. *)
Theorem worker_call_ends (delay : Z) (w : World) (fid : nat) (f : Future) :
  futures w !! fid = Some f -> is_running f = true ->
  exists acts w' st new,
    Forall unattended acts /\ run delay acts w = Some w'
    /\ futures w' = alter (with_fstate st) fid (futures w ++ new)
    /\ Forall (fun f => fstate f = PENDING) new
    /\ (st = FINISHED \/ exists e, st = RAISED e).
Proof. apply drive. Qed.

Lemma worker_call_ends_witness :
  let w := world_after 3000000 deleted_early in
  exists acts w' st new,
    Forall unattended acts /\ run 3000000 acts w = Some w'
    /\ futures w' = alter (with_fstate st) 0%nat (futures w ++ new)
    /\ Forall (fun f => fstate f = PENDING) new
    /\ (st = FINISHED \/ exists e, st = RAISED e).
Proof.
  intros w.
  by apply (worker_call_ends 3000000 w 0
              (mkFuture 0 (RUNNING (AtLoop 3000000)))).
Defined.

(** ** No exception leaves a callback *)

Ltac same_uncaught_side :=
  first [ done | unfold same_uncaught; intros; congruence ].

Lemma touch_returns tid t w :
  tasks w !! tid = Some t -> state t <> NEW -> fst (touch tid w) = None.
Proof.
  intros Ht Hn. unfold touch, seq, modify, on_task. cbn.
  rewrite list_lookup_alter_eq, Ht. cbn.
  by rewrite bool_decide_eq_false_2.
Qed.

Lemma OcrTask_init_returns p w :
  pool_shutdown w = false ->
  fst (OcrTask_init p
         (fun tid => modify (set_current_tasks (insert p tid))) w) = None.
Proof.
  intros Hopen. unfold OcrTask_init, touch, seq, modify, on_task.
  cbn -[enqueue].
  rewrite list_lookup_alter_eq, list_lookup_middle by done.
  cbn -[enqueue]. rewrite bool_decide_eq_true_2 by done.
  by rewrite (enqueue_open _ _ (with_last_touch (Some (now w)) (OcrTask_new p)));
    [| by cbn; rewrite list_lookup_alter_eq, list_lookup_middle
     | by left | done].
Qed.

Lemma on_file_touched_returns p w :
  wf w -> pool_shutdown w = false -> fst (on_file_touched p w) = None.
Proof.
  intros Hwf Hopen. unfold on_file_touched, seq, modify.
  cbn -[touch OcrTask_init].
  destruct (current_tasks w !! p) as [tid|] eqn:Hr.
  - destruct (wf_reg w Hwf p tid Hr) as (t & Ht & _ & _).
    apply (touch_returns tid t); [done|]. by apply (wf_new w Hwf tid).
  - by apply OcrTask_init_returns.
Qed.

Lemma on_file_deleted_returns p w :
  wf w -> handled w -> fst (on_file_deleted p w) = None.
Proof.
  intros Hwf Hh. unfold on_file_deleted, seq, modify. cbn -[cancel].
  destruct (current_tasks w !! p) as [tid|] eqn:Hr; [|done].
  apply cancel_returns.
  destruct (registered_cancellable w p tid Hwf Hh Hr) as (t & Ht & Hq).
  by exists t.
Qed.

Lemma dispatch_returns e w :
  wf w -> handled w -> pool_shutdown w = false -> fst (dispatch e w) = None.
Proof.
  intros Hwf Hh Hopen.
  destruct e; cbn -[on_file_deleted on_file_touched];
    auto using on_file_touched_returns, on_file_deleted_returns.
  unfold seq.
  pose proof (on_file_deleted_returns src_path w Hwf Hh) as H1.
  pose proof (wf_on_file_deleted w src_path Hwf) as Hwf1.
  assert (Hs : same_service w (snd (on_file_deleted src_path w)))
    by (apply preserves_on_file_deleted; same_service_side).
  destruct (on_file_deleted src_path w) as [[e|] w1]; cbn in *; [done|].
  apply on_file_touched_returns; [done|]. destruct Hs. congruence.
Qed.

Lemma for_each_cancel_returns l : forall w,
  Forall (cancellable w) l -> fst (for_each cancel l w) = None.
Proof.
  induction l as [|tid l IH]; intros w Hl; [done|].
  apply Forall_cons in Hl as [Hx Hl].
  change (for_each cancel (tid :: l)) with (seq (cancel tid) (for_each cancel l)).
  unfold seq. destruct (cancel_returns tid w Hx) as [H1 H2].
  destruct (cancel tid w) as [[e|] w1]; cbn in *; [done|].
  apply IH. eapply Forall_impl; [exact Hl|]. auto.
Qed.

Lemma shutdown_begin_returns w :
  wf w -> handled w -> fst (shutdown_begin w) = None.
Proof.
  intros Hwf Hh. unfold shutdown_begin, seq, modify. cbn -[for_each].
  set (w1 := match observer w with Some _ => _ | None => _ end).
  assert (Hw1 : fst w1 = None /\ tasks (snd w1) = tasks w
                /\ current_tasks (snd w1) = current_tasks w).
  { subst w1. by destruct (observer w). }
  destruct w1 as [o w1]. destruct Hw1 as (Ho & Et & Ec). cbn in *. subst o.
  assert (Hl : Forall (cancellable w1)
                 (map snd (map_to_list (current_tasks w1)))).
  { apply Forall_forall. intros tid Hin.
    apply list_elem_of_fmap in Hin as ([p tid'] & -> & Hin).
    apply elem_of_map_to_list in Hin. cbn. rewrite Ec in Hin.
    destruct (registered_cancellable w p tid' Hwf Hh Hin) as (t & Ht & Hq).
    exists t. rewrite Et, Ec. done. }
  pose proof (for_each_cancel_returns _ w1 Hl) as H.
  destruct (for_each cancel _ w1) as [[e|] w2]; cbn in *; [done|].
  by destruct (threadpool w2).
Qed.

Lemma shutdown_end_returns w : fst (shutdown_end w) = None.
Proof.
  unfold shutdown_end, seq, modify.
  destruct (threadpool w); cbn; by destruct (observer w).
Qed.

Lemma outside_returns m w :
  fst (m w) = None -> preserves same_uncaught m ->
  uncaught (outside m w) = uncaught w.
Proof.
  intros H1 H2. unfold outside. specialize (H2 w).
  destruct (m w) as [[e|] w1]; cbn in *; done.
Qed.

Lemma uncaught_step delay a w w' :
  reachable delay w -> step delay a w = Some w' -> uncaught w' = uncaught w.
Proof.
  intros Hre. pose proof (wf_reachable _ _ Hre) as Hwf.
  pose proof (handled_reachable _ _ Hre) as Hh.
  destruct a; cbn -[dispatch shutdown_begin shutdown_end].
  - case_match; [|done]. by intros [= <-].
  - destruct (observer w) as [[]|] eqn:Ho; try done. intros [= <-].
    apply outside_returns.
    + apply dispatch_returns; try done.
      by apply (attended_reachable delay).
    + apply preserves_dispatch; same_uncaught_side.
  - case_bool_decide; [|done]. destruct (first_pending _); [|done].
    cbn. by intros [= <-].
  - destruct (futures w !! fid) as [f|]; [|done]. cbn.
    destruct (fstate f) as [|[wake|]| | |]; try done.
    case_match; [|done]. intros [= <-]. cbn.
    unfold process_loop. destruct (tasks w !! work f) as [t|]; [|done].
    destruct (last_touch t); [by case_match|].
    rewrite finish_snd. apply preserves_done; same_uncaught_side.
  - destruct (futures w !! fid) as [f|]; [|done]. cbn.
    destruct (fstate f) as [|[wake|]| | |]; try done. intros [= <-]. cbn.
    unfold process_return. destruct (decide (rc = 0)) as [Hrc|Hrc];
    [|done]. destruct (tasks w !! work f) as [t|]; [|done].
    destruct (last_touch t); rewrite finish_snd;
      [apply preserves_enqueue | apply preserves_done]; same_uncaught_side.
  - destruct (pool_shutdown w); [done|]. intros [= <-].
    apply outside_returns; [by apply shutdown_begin_returns|].
    apply preserves_shutdown_begin; try same_uncaught_side.
    intros tid. apply preserves_cancel; same_uncaught_side.
  - case_match; [|done]. intros [= <-].
    apply outside_returns; [apply shutdown_end_returns|].
    apply preserves_shutdown_end; same_uncaught_side.
Qed.

Lemma uncaught_run delay acts : forall w w',
  reachable delay w -> run delay acts w = Some w' ->
  uncaught w' = uncaught w.
Proof.
  induction acts as [|a acts IH]; intros w w' Hre; cbn.
  - by intros [= <-].
  - destruct (step delay a w) as [w1|] eqn:Hs; [|done]. cbn. intros Hr.
    rewrite (IH w1 w'); [by eapply uncaught_step| |done].
    eapply reachable_run; [exact Hre|]. by apply run_one.
Qed.

(** No exception leaves a callback of the watchdog thread or [shutdown]:
    in every state that the service reaches, each of the four event
    handlers returns (while the observer runs), both halves of [shutdown]
    return, and no exception has ever left one of them. *)
Theorem callbacks_never_raise (delay : Z) (w : World) :
  reachable delay w ->
  uncaught w = []
  /\ (observer w = Some Watching -> forall e, fst (dispatch e w) = None)
  /\ fst (shutdown_begin w) = None
  /\ fst (shutdown_end w) = None.
Proof.
  intros Hre. pose proof (wf_reachable _ _ Hre) as Hwf.
  pose proof (handled_reachable _ _ Hre) as Hh.
  split; [|split; [|split]].
  - destruct Hre as [acts Hr].
    apply (uncaught_run delay acts AutoOcrScheduler_init w); [|done].
    by exists [].
  - intros Ho e. apply dispatch_returns; try done.
    by apply (attended_reachable delay).
  - by apply shutdown_begin_returns.
  - apply shutdown_end_returns.
Qed.

Lemma callbacks_never_raise_witness :
  let w := world_after 3000000 stale_done in
  uncaught w = []
  /\ (observer w = Some Watching -> forall e, fst (dispatch e w) = None)
  /\ fst (shutdown_begin w) = None
  /\ fst (shutdown_end w) = None.
Proof.
  intros w. apply (callbacks_never_raise 3000000).
  apply reachable_world_after. vm_compute. eauto.
Defined.

(** ** What a touch and a delete do to the store *)

(** A touch of a path that is in the registry only moves the last_touch
    of its task: no task, no work item and no registry entry is added, and
    the state of the task stays. *)
Theorem touch_of_known_path (delay : Z) (w : World) (p : string)
  (tid : nat) :
  reachable delay w -> current_tasks w !! p = Some tid ->
  on_file_touched p w
  = (None, update_task tid (with_last_touch (Some (now w)))
             (record (Touched p (now w)) w)).
Proof.
  intros Hre Hr. pose proof (wf_reachable _ _ Hre) as Hwf.
  destruct (wf_reg w Hwf p tid Hr) as (t & Ht & _ & _).
  pose proof (wf_new w Hwf tid t Ht) as Hn.
  unfold on_file_touched, seq, modify. cbn -[touch]. rewrite Hr.
  unfold touch, seq, modify, on_task. cbn.
  rewrite list_lookup_alter_eq, Ht. cbn.
  by rewrite bool_decide_eq_false_2.
Qed.

Lemma touch_of_known_path_witness :
  let w := world_after 3000000 deleted_early in
  on_file_touched "b.pdf" w
  = (None, update_task 0 (with_last_touch (Some (now w)))
             (record (Touched "b.pdf" (now w)) w)).
Proof.
  intros w. apply (touch_of_known_path 3000000 w "b.pdf" 0).
  - apply reachable_world_after. vm_compute. eauto.
  - reflexivity.
Defined.

(** A touch of a path that is not in the registry, while the pool takes
    work: one task is added, QUEUED, touched now; one pending work item
    for it is added at the end of the queue; the path is registered for
    the task; nothing else changes. *)
Theorem touch_of_new_path (w : World) (p : string) :
  pool_shutdown w = false -> current_tasks w !! p = None ->
  let w' := snd (on_file_touched p w) in
  fst (on_file_touched p w) = None
  /\ tasks w'
     = tasks w ++ [mkTask p (Some (now w)) (Some (length (futures w))) QUEUED]
  /\ futures w' = futures w ++ [mkFuture (length (tasks w)) PENDING]
  /\ current_tasks w' = <[p := length (tasks w)]> (current_tasks w)
  /\ history w' = Touched p (now w) :: history w.
Proof.
  intros Hopen Hr. unfold on_file_touched, seq, modify.
  cbn -[touch OcrTask_init]. rewrite Hr.
  unfold OcrTask_init, touch, seq, modify, on_task. cbn -[enqueue].
  rewrite list_lookup_alter_eq, list_lookup_middle by done.
  cbn -[enqueue]. rewrite bool_decide_eq_true_2 by done.
  rewrite (enqueue_open _ _ (with_last_touch (Some (now w)) (OcrTask_new p)));
    [| by cbn; rewrite list_lookup_alter_eq, list_lookup_middle
     | by left | done].
  cbn. repeat split.
  apply list_eq. intros i.
  destruct (decide (i = length (tasks w))) as [->|Hne].
  - by rewrite !list_lookup_alter_eq, !(list_lookup_middle (tasks w) []).
  - rewrite !list_lookup_alter_ne by done.
    destruct (decide (i < length (tasks w))%nat).
    + by rewrite !lookup_app_l.
    + rewrite !lookup_ge_None_2; [done|rewrite length_app; cbn; lia..].
Qed.

Lemma touch_of_new_path_witness :
  let w := world_after 3000000 deleted_early in
  let w' := snd (on_file_touched "c.pdf" w) in
  fst (on_file_touched "c.pdf" w) = None
  /\ tasks w'
     = tasks w
       ++ [mkTask "c.pdf" (Some (now w)) (Some (length (futures w))) QUEUED]
  /\ futures w' = futures w ++ [mkFuture (length (tasks w)) PENDING]
  /\ current_tasks w' = <["c.pdf" := length (tasks w)]> (current_tasks w)
  /\ history w' = Touched "c.pdf" (now w) :: history w.
Proof. intros w. by apply (touch_of_new_path w "c.pdf"). Defined.

Lemma alter_same {A} (f : A -> A) i x (l : list A) :
  l !! i = Some x -> f x = x -> alter f i l = l.
Proof.
  intros Hl Hf. apply list_eq. intros j. rewrite list_lookup_alter.
  case_decide; [|done]. subst. rewrite Hl. cbn. by rewrite Hf.
Qed.

Lemma untouch_same tid t w :
  tasks w !! tid = Some t -> last_touch t = None ->
  update_task tid (with_last_touch None) w = w.
Proof.
  intros Ht Hl. unfold update_task, set_tasks.
  rewrite (alter_same _ tid t); [by destruct w|done|].
  destruct t; cbn in *. by subst.
Qed.

(** [cancel] is idempotent on a task of the registry: a second cancel
    returns and leaves the store as the first one left it. *)
Theorem cancel_is_idempotent (delay : Z) (w : World) (p : string)
  (tid : nat) :
  reachable delay w -> current_tasks w !! p = Some tid ->
  fst (cancel tid w) = None
  /\ cancel tid (snd (cancel tid w)) = (None, snd (cancel tid w)).
Proof.
  intros Hre Hr. pose proof (wf_reachable _ _ Hre) as Hwf.
  pose proof (handled_reachable _ _ Hre) as Hh.
  destruct (registered_cancellable w p tid Hwf Hh Hr) as (t & Ht & Hq).
  destruct (decide (state t = QUEUED)) as [E|Hne].
  - destruct (Hq E) as [[fid Hf] Hreg].
    rewrite (cancel_queued tid t fid w Ht E Hf) by eauto.
    split; [done|]. cbn [snd].
    set (w1 := set_current_tasks _ _).
    assert (Ht1 : tasks w1 !! tid
                  = Some (with_state DONE (with_last_touch None t))).
    { subst w1. cbn. by rewrite !list_lookup_alter_eq, Ht. }
    rewrite (cancel_other tid _ w1 Ht1) by done.
    by rewrite (untouch_same tid _ w1 Ht1).
  - rewrite (cancel_other tid t w Ht Hne). split; [done|]. cbn [snd].
    set (w1 := update_task _ _ _).
    assert (Ht1 : tasks w1 !! tid = Some (with_last_touch None t)).
    { subst w1. cbn. by rewrite list_lookup_alter_eq, Ht. }
    rewrite (cancel_other tid _ w1 Ht1) by done.
    by rewrite (untouch_same tid _ w1 Ht1).
Qed.

Lemma cancel_is_idempotent_witness :
  let w := world_after 3000000 deleted_early in
  fst (cancel 0 w) = None
  /\ cancel 0 (snd (cancel 0 w)) = (None, snd (cancel 0 w)).
Proof.
  intros w. apply (cancel_is_idempotent 3000000 w "b.pdf" 0).
  - apply reachable_world_after. vm_compute. eauto.
  - reflexivity.
Defined.

(** ** A work item that has ended stays as it is *)

Lemma settled_refl w : settled w w.
Proof. by intros fid f. Qed.

Lemma settled_trans a b c : settled a b -> settled b c -> settled a c.
Proof. intros H1 H2 fid f Hf Hl. eauto. Qed.

Lemma settled_submit tid w :
  settled w (set_futures (fun fs => fs ++ [mkFuture tid PENDING]) w).
Proof. intros fid f Hf _. cbn. by apply lookup_app_l_Some. Qed.

Lemma settled_alter g fid w :
  (forall f, is_live f = false -> g f = f) ->
  settled w (set_futures (alter g fid) w).
Proof.
  intros Hg fid' f Hf Hl. cbn. rewrite list_lookup_alter.
  case_decide; [|done]. subst. rewrite Hf. cbn. by rewrite Hg.
Qed.

Ltac settled_side :=
  first [ apply settled_refl | apply settled_trans | apply settled_submit
        | by intros; apply settled_alter; intros [? []]
        | by intros; intros ? ? ?; cbn; eauto ].

Lemma settled_settle fid f r w :
  futures w !! fid = Some f -> is_live f = true ->
  settled w (snd r) -> settled w (settle fid r).
Proof.
  intros Hf Hl H fid' f' Hf' Hl'. unfold settle. cbn.
  rewrite list_lookup_alter_ne; [by apply H|]. intros ->. congruence.
Qed.

(** A work item that was cancelled, has returned or has raised is never
    started or changed again: whatever happens next, its future keeps its
    state. *)
Theorem ended_work_item_stays (delay : Z) (a : action) (w w' : World)
  (fid : nat) (f : Future) :
  step delay a w = Some w' ->
  futures w !! fid = Some f -> is_live f = false ->
  futures w' !! fid = Some f.
Proof.
  intros Hs Hf Hl. revert fid f Hf Hl. change (settled w w').
  revert Hs. destruct a; cbn -[dispatch shutdown_begin shutdown_end].
  - case_match; [|done]. intros [= <-]. by intros ? ? ?.
  - destruct (observer w) as [[]|]; try done. intros [= <-].
    apply preserves_outside; try settled_side.
    apply preserves_dispatch; settled_side.
  - case_bool_decide; [|done].
    destruct (first_pending _) as [fid|] eqn:Hfp; [|done].
    cbn. intros [= <-]. intros fid' f' Hf' Hl'. cbn.
    destruct (first_pending_Some _ _ Hfp) as (g & Hg & Hgs).
    rewrite list_lookup_alter_ne; [done|]. intros ->.
    unfold is_live in Hl'. simplify_eq. by rewrite Hgs in Hl'.
  - destruct (futures w !! fid) as [f|] eqn:Hf; [|done]. cbn.
    destruct (fstate f) as [|[wake|]| | |] eqn:Hst; try done.
    case_match; [|done]. intros [= <-].
    apply (settled_settle fid f); [done|unfold is_live; by rewrite Hst|].
    unfold process_loop.
    destruct (tasks w !! work f) as [t|]; [|apply settled_refl].
    destruct (last_touch t).
    + case_match; cbn; by intros ? ? ?; cbn; eauto.
    + rewrite finish_snd. apply preserves_done; settled_side.
  - destruct (futures w !! fid) as [f|] eqn:Hf; [|done]. cbn.
    destruct (fstate f) as [|[wake|]| | |] eqn:Hst; try done.
    intros [= <-].
    apply (settled_settle fid f); [done|unfold is_live; by rewrite Hst|].
    unfold process_return. destruct (decide (rc = 0)) as [Hrc|Hrc];
    [|apply settled_refl].
    destruct (tasks w !! work f) as [t|]; [|apply settled_refl].
    destruct (last_touch t); rewrite finish_snd;
      [apply preserves_enqueue | apply preserves_done]; settled_side.
  - destruct (pool_shutdown w); [done|]. intros [= <-].
    apply preserves_outside; try settled_side.
    apply preserves_shutdown_begin; try settled_side.
    intros tid. apply preserves_cancel; settled_side.
  - case_match; [|done]. intros [= <-].
    apply preserves_outside; try settled_side.
    apply preserves_shutdown_end; settled_side.
Qed.

Lemma ended_work_item_stays_witness :
  let w := world_after 3000000 deleted_at_once in
  step 3000000 (Deliver (FileCreated "a.pdf")) w
  = Some (outside (dispatch (FileCreated "a.pdf")) w)
  /\ futures (outside (dispatch (FileCreated "a.pdf")) w) !! 0%nat
     = Some (mkFuture 0 CANCELLED).
Proof.
  intros w. split; [reflexivity|].
  by apply (ended_work_item_stays 3000000 (Deliver (FileCreated "a.pdf")) w).
Defined.

(** ** Every registered file gets finished *)

(** What [done] leaves behind, whether or not it raises. *)
Lemma done_leaves tid t w :
  tasks w !! tid = Some t ->
  task_state (snd (done tid w)) tid = Some DONE
  /\ current_tasks (snd (done tid w)) !! path t = None.
Proof.
  intros Ht. rewrite (done_eq w tid t Ht). unfold task_state.
  destruct (current_tasks w !! path t) eqn:Hr; cbn;
    rewrite list_lookup_alter_eq, Ht; cbn;
    (split; [done|]); [apply lookup_delete_eq | done].
Qed.

Lemma settle_leaves fid r tid p :
  task_state (snd r) tid = Some DONE /\ current_tasks (snd r) !! p = None ->
  task_state (settle fid r) tid = Some DONE
  /\ current_tasks (settle fid r) !! p = None.
Proof. done. Qed.

(** The worker is inside the external run and no touch is waiting. *)
Lemma finish_from_job delay w fid f t :
  futures w !! fid = Some f -> fstate f = RUNNING InJob ->
  tasks w !! work f = Some t -> last_touch t = None ->
  exists w', step delay (JobExit fid 0) w = Some w'
    /\ task_state w' (work f) = Some DONE
    /\ current_tasks w' !! path t = None.
Proof.
  intros Hf Hs Ht Hl. eexists. split.
  { cbn. rewrite Hf. cbn. rewrite Hs. reflexivity. }
  apply settle_leaves. unfold process_return.
  rewrite decide_True by done. rewrite Ht, Hl, finish_snd.
  by apply done_leaves.
Qed.

(** The worker is in its loop. *)
Lemma finish_from_loop delay w fid f wake t :
  futures w !! fid = Some f -> fstate f = RUNNING (AtLoop wake) ->
  tasks w !! work f = Some t ->
  exists acts w', Forall untroubled acts /\ run delay acts w = Some w'
    /\ task_state w' (work f) = Some DONE
    /\ current_tasks w' !! path t = None.
Proof.
  intros Hf Hs Ht.
  set (d := wait_for delay wake (work f) w).
  set (w1 := set_now (fun t => t + d) w).
  assert (Hd : 0 <= d) by (unfold d, wait_for; lia).
  assert (Hwake : wake <= now w + d) by (unfold d, wait_for; lia).
  assert (Hst : step delay (Tick d) w = Some w1).
  { cbn. by rewrite (proj2 (Z.leb_le 0 d) Hd). }
  assert (Hres : step delay (Resume fid) w1
                 = Some (settle fid (process_loop delay (work f) w1))).
  { cbn. rewrite Hf. cbn. rewrite Hs.
    by rewrite (proj2 (Z.leb_le _ _) Hwake). }
  destruct (last_touch t) as [lt|] eqn:Hl.
  - assert (Hdue : lt + delay <= now w + d).
    { unfold d, wait_for. rewrite Ht, Hl. lia. }
    set (w2 := record (Invoked (work f) (path t) (now w + d))
                 (update_task (work f) (with_last_touch None)
                    (update_task (work f) (with_state ACTIVE) w1))).
    assert (E : process_loop delay (work f) w1 = (Blocks InJob, w2)).
    { unfold process_loop. cbn. rewrite Ht, Hl.
      by rewrite (proj2 (Z.leb_le _ 0)) by lia. }
    rewrite E in Hres.
    destruct (finish_from_job delay (settle fid (Blocks InJob, w2)) fid
                (with_fstate (RUNNING InJob) f)
                (with_last_touch None (with_state ACTIVE t)))
      as (w3 & Hs3 & Hd3 & Hr3); try done.
    { cbn. by rewrite list_lookup_alter_eq, Hf. }
    { cbn. by rewrite !list_lookup_alter_eq, Ht. }
    exists [Tick d; Resume fid; JobExit fid 0], w3.
    split; [by repeat constructor|]. split; [|done].
    eapply run_step; [exact Hst|]. eapply run_step; [exact Hres|].
    by apply run_one.
  - exists [Tick d; Resume fid], (settle fid (process_loop delay (work f) w1)).
    split; [by repeat constructor|].
    split; [eapply run_step; [exact Hst|]; by apply run_one|].
    apply settle_leaves. unfold process_loop. cbn. rewrite Ht, Hl, finish_snd.
    by apply (done_leaves (work f) t w1).
Qed.

(** The work item is still in the queue. *)
Lemma finish_from_queue delay w fid f t :
  reachable delay w -> futures w !! fid = Some f -> fstate f = PENDING ->
  tasks w !! work f = Some t ->
  exists acts w', Forall untroubled acts /\ run delay acts w = Some w'
    /\ task_state w' (work f) = Some DONE
    /\ current_tasks w' !! path t = None.
Proof.
  intros Hre Hf Hs Ht.
  destruct (start_ahead_untroubled delay _ w fid f Hre Hf Hs (Nat.le_refl _))
    as (acts1 & w1 & wake & Ha1 & Hr1 & Hf1).
  destruct (rooted_run delay acts1 w w1 (untroubled_unattended _ Ha1) Hr1
              (work f) t Ht)
    as (t1 & Ht1 & Hp1).
  destruct (finish_from_loop delay w1 fid _ wake t1 Hf1 eq_refl Ht1)
    as (acts2 & w2 & Ha2 & Hr2 & Hd2 & Hc2).
  exists (acts1 ++ acts2), w2. split; [by apply Forall_app|].
  split; [by rewrite run_app, Hr1|]. split; [done|congruence].
Qed.

(** When no more events arrive and the external jobs exit with status 0,
    every file of the registry is finished: from every state that the
    service reaches while its pool takes work, steps of the clock and of
    the workers, the jobs that end exiting with status 0, bring the task
    of a registered path to DONE and the path out of the registry,
    provided that the task, if it is ACTIVE, still has its worker (no
    earlier job of it has failed). *)
Theorem registered_path_gets_finished (delay : Z) (w : World) (p : string)
  (tid : nat) :
  reachable delay w -> pool_shutdown w = false ->
  current_tasks w !! p = Some tid ->
  (task_state w tid = Some ACTIVE -> has_live w tid) ->
  exists acts w',
    Forall untroubled acts /\ run delay acts w = Some w'
    /\ task_state w' tid = Some DONE
    /\ current_tasks w' !! p = None.
Proof.
  intros Hre Hopen Hreg Hact. pose proof (wf_reachable _ _ Hre) as Hwf.
  destruct (wf_reg w Hwf p tid Hreg) as (t & Ht & Hp & Hnd).
  pose proof (wf_new w Hwf tid t Ht) as Hnn.
  assert (has_live w tid) as (fid & f & Hf & Hwk & Hlive).
  { destruct (manned_reachable _ _ Hre tid t Ht) as [A B].
    destruct (state t) eqn:Hst; try done.
    - by apply B.
    - destruct (A eq_refl) as (fid & f & wake & Hf & Hw & Hs).
      exists fid, f. split; [done|]. split; [done|].
      unfold is_live. by rewrite Hs.
    - apply Hact. unfold task_state. by rewrite Ht, <- Hst. }
  subst tid p. unfold is_live in Hlive.
  destruct (fstate f) as [|[wake|]| | |] eqn:Hfs; try done.
  - by eapply finish_from_queue.
  - by eapply finish_from_loop.
  - destruct (last_touch t) as [lt|] eqn:Hl.
    2:{ destruct (finish_from_job delay w fid f t Hf Hfs Ht Hl)
          as (w' & Hs & Hd & Hc).
        exists [JobExit fid 0], w'. split; [by repeat constructor|].
        split; [by apply run_one|done]. }
    destruct (wf_fut w Hwf fid f Hf) as (t0 & Ht0 & Hok).
    assert (t0 = t) as -> by congruence. rewrite Hfs in Hok. cbn in Hok.
    set (w1 := update_task (work f) (with_future (Some (length (futures w))))
                 (set_futures (fun fs => fs ++ [mkFuture (work f) PENDING])
                    (update_task (work f) (with_state QUEUED) w))).
    assert (Hs1 : step delay (JobExit fid 0) w
                  = Some (settle fid (Returns, w1))).
    { cbn. rewrite Hf. cbn. rewrite Hfs. do 2 f_equal.
      unfold process_return. rewrite decide_True by done. rewrite Ht, Hl.
      by rewrite (enqueue_open w (work f) t) by auto. }
    set (w2 := settle fid (Returns, w1)) in *.
    apply lookup_lt_Some in Hf as Hlt.
    destruct (finish_from_queue delay w2 (length (futures w))
                (mkFuture (work f) PENDING)
                (with_future (Some (length (futures w)))
                   (with_state QUEUED t)))
      as (acts & w3 & Ha & Hr & Hd & Hc); try done.
    { eapply reachable_run; [exact Hre|]. by apply run_one. }
    { subst w2 w1. unfold settle. cbn.
      rewrite list_lookup_alter_ne by lia.
      by rewrite (list_lookup_middle (futures w) []). }
    { subst w2 w1. unfold settle. cbn.
      by rewrite !list_lookup_alter_eq, Ht. }
    exists (JobExit fid 0 :: acts), w3. split; [by constructor|].
    split; [by eapply run_step|done].
Qed.

Lemma registered_path_gets_finished_witness :
  let w := world_after 3000000 touched_while_running in
  exists acts w',
    Forall untroubled acts /\ run 3000000 acts w = Some w'
    /\ task_state w' 0 = Some DONE
    /\ current_tasks w' !! "a.pdf" = None.
Proof.
  intros w. apply (registered_path_gets_finished 3000000 w "a.pdf" 0).
  - apply reachable_world_after. vm_compute. eauto.
  - reflexivity.
  - reflexivity.
  - intros _. exists 0%nat, (mkFuture 0 (RUNNING InJob)). by vm_compute.
Defined.

(** ** DONE is final *)

Lemma still_refl w : still w w.
Proof. split; [done|]. by intros tid t. Qed.

Lemma still_trans a b c : still a b -> still b c -> still a c.
Proof.
  intros [S1 G1] [S2 G2]. split; [auto|]. intros tid t Ht Hs Hl. eauto.
Qed.

Lemma still_same w w' : tasks w' = tasks w -> still w w'.
Proof.
  intros E. split.
  - intros H tid t. rewrite E. apply H.
  - intros tid t. by rewrite E.
Qed.

Lemma still_update tid g w :
  (forall t, tasks w !! tid = Some t ->
     (state t = DONE -> last_touch t = None -> g t = t)
     /\ (state (g t) = DONE -> (state t = DONE -> last_touch t = None) ->
         last_touch (g t) = None)) ->
  still w (update_task tid g w).
Proof.
  intros Hg. split.
  - intros Hsp tid' t'. cbn. rewrite list_lookup_alter.
    case_decide; [|apply Hsp]. subst.
    destruct (tasks w !! tid') as [t|] eqn:Ht; [|done]. cbn.
    intros [= <-] Hd. destruct (Hg t eq_refl) as [_ H2]. apply H2; [done|].
    by apply (Hsp tid').
  - intros tid' t Ht Hs Hl. cbn. rewrite list_lookup_alter.
    case_decide; [|done]. subst. rewrite Ht. cbn.
    destruct (Hg t Ht) as [H1 _]. by rewrite H1.
Qed.

Lemma still_new t w :
  state t <> DONE -> still w (set_tasks (fun ts => ts ++ [t]) w).
Proof.
  intros Hn. split.
  - intros Hsp tid' t'. cbn. intros [[_ H]|[_ <-]]%lookup_snoc_Some;
      [exact (Hsp tid' t' H) | done].
  - intros tid' t' Ht _ _. cbn. by apply lookup_app_l_Some.
Qed.

Lemma untouch_fix t : last_touch t = None -> with_last_touch None t = t.
Proof. destruct t; cbn. by intros ->. Qed.

Lemma done_fix t : state t = DONE -> with_state DONE t = t.
Proof. destruct t; cbn. by intros ->. Qed.

Lemma still_done tid t w :
  tasks w !! tid = Some t -> last_touch t = None ->
  still w (snd (done tid w)).
Proof.
  intros Ht Hl. rewrite (done_eq w tid t Ht).
  apply (still_trans _ (update_task tid (with_state DONE) w)).
  - apply still_update. intros t0 Ht0. assert (t0 = t) as -> by congruence.
    split; [intros; by apply done_fix | done].
  - by destruct (current_tasks w !! path t); apply still_same.
Qed.

Lemma still_enqueue tid w : still w (snd (enqueue tid w)).
Proof.
  unfold enqueue, on_task. destruct (tasks w !! tid) as [t|] eqn:Ht;
    [|apply still_refl].
  case_bool_decide as Hs; [|apply still_refl].
  unfold seq, modify, submit. cbn.
  assert (H1 : still w (update_task tid (with_state QUEUED) w)).
  { apply still_update. intros t0 Ht0. assert (t0 = t) as -> by congruence.
    split; [|done]. intros Hd. destruct Hs; congruence. }
  destruct (pool_shutdown w); cbn; [done|].
  eapply still_trans; [exact H1|].
  apply (still_trans _ (set_futures (fun fs => fs ++ [mkFuture tid PENDING])
                          (update_task tid (with_state QUEUED) w)));
    [by apply still_same|].
  apply still_update. intros t0. cbn. rewrite list_lookup_alter_eq, Ht. cbn.
  intros [= <-]. done.
Qed.

Lemma still_touch tid t w :
  tasks w !! tid = Some t -> state t <> DONE -> still w (snd (touch tid w)).
Proof.
  intros Ht Hn. unfold touch, seq, modify, on_task. cbn.
  rewrite list_lookup_alter_eq, Ht. cbn.
  assert (H1 : still w (update_task tid (with_last_touch (Some (now w))) w)).
  { apply still_update. intros t0 Ht0. assert (t0 = t) as -> by congruence.
    done. }
  case_bool_decide; [|done].
  eapply still_trans; [exact H1 | apply still_enqueue].
Qed.

Lemma still_cancel tid w : cancellable w tid -> still w (snd (cancel tid w)).
Proof.
  intros (t & Ht & Hq).
  assert (H1 : still w (update_task tid (with_last_touch None) w)).
  { apply still_update. intros t0 Ht0. assert (t0 = t) as -> by congruence.
    split; [intros; by apply untouch_fix | done]. }
  destruct (decide (state t = QUEUED)) as [E|Hne].
  - destruct (Hq E) as [[fid Hf] Hreg].
    rewrite (cancel_queued tid t fid w Ht E Hf) by eauto. cbn [snd].
    eapply still_trans; [exact H1|].
    apply (still_trans _ (set_futures (alter cancel_pending fid)
                            (update_task tid (with_last_touch None) w)));
      [by apply still_same|].
    eapply still_trans; [|by apply still_same].
    apply still_update. intros t0. cbn. rewrite list_lookup_alter_eq, Ht.
    cbn. intros [= <-]. cbn. split; [intros; congruence | done].
  - by rewrite (cancel_other tid t w Ht Hne).
Qed.

Lemma still_for_each_cancel l : forall w,
  Forall (cancellable w) l -> still w (snd (for_each cancel l w)).
Proof.
  induction l as [|tid l IH]; intros w Hl; [apply still_refl|].
  apply Forall_cons in Hl as [Hx Hl].
  change (for_each cancel (tid :: l)) with (seq (cancel tid) (for_each cancel l)).
  unfold seq. destruct (cancel_returns tid w Hx) as [H1 H2].
  pose proof (still_cancel tid w Hx) as H3.
  destruct (cancel tid w) as [[e|] w1]; cbn in *; [done|].
  eapply still_trans; [exact H3|]. apply IH.
  eapply Forall_impl; [exact Hl|]. auto.
Qed.

Lemma still_on_file_touched p w :
  wf w -> still w (snd (on_file_touched p w)).
Proof.
  intros Hwf. unfold on_file_touched, seq, modify.
  cbn -[touch OcrTask_init].
  apply (still_trans _ (record (Touched p (now w)) w)); [by apply still_same|].
  destruct (current_tasks w !! p) as [tid|] eqn:Hr.
  - destruct (wf_reg w Hwf p tid Hr) as (t & Ht & _ & Hnd).
    by apply (still_touch tid t).
  - unfold OcrTask_init, seq, modify. cbn -[touch].
    set (w1 := set_tasks _ _).
    assert (H1 : still (record (Touched p (now w)) w) w1)
      by (by apply still_new).
    assert (H2 : still w1 (snd (touch (length (tasks w)) w1))).
    { apply (still_touch _ (OcrTask_new p)); [|done].
      subst w1. cbn. by rewrite (list_lookup_middle (tasks w) []). }
    destruct (touch (length (tasks w)) w1) as [[e|] w2]; cbn in *.
    + by eapply still_trans.
    + eapply still_trans; [exact H1|]. eapply still_trans; [exact H2|].
      by apply still_same.
Qed.

Lemma still_on_file_deleted p w :
  wf w -> handled w -> still w (snd (on_file_deleted p w)).
Proof.
  intros Hwf Hh. unfold on_file_deleted, seq, modify. cbn -[cancel].
  apply (still_trans _ (record (Deleted p (now w)) w)); [by apply still_same|].
  destruct (current_tasks w !! p) as [tid|] eqn:Hr; [|apply still_refl].
  apply still_cancel.
  destruct (registered_cancellable w p tid Hwf Hh Hr) as (t & Ht & Hq).
  by exists t.
Qed.

Lemma still_dispatch e w :
  wf w -> handled w -> still w (snd (dispatch e w)).
Proof.
  intros Hwf Hh.
  destruct e; cbn -[on_file_deleted on_file_touched];
    auto using still_on_file_touched, still_on_file_deleted.
  unfold seq.
  pose proof (still_on_file_deleted src_path w Hwf Hh) as H1.
  pose proof (wf_on_file_deleted w src_path Hwf) as Hwf1.
  destruct (on_file_deleted src_path w) as [[e|] w1]; cbn in *; [done|].
  eapply still_trans; [exact H1|]. by apply still_on_file_touched.
Qed.

Lemma still_outside m w : still w (snd (m w)) -> still w (outside m w).
Proof.
  unfold outside. destruct (m w) as [[e|] w1]; cbn; [|done].
  intros H. eapply still_trans; [exact H|]. by apply still_same.
Qed.

Lemma still_shutdown_begin w :
  wf w -> handled w -> still w (snd (shutdown_begin w)).
Proof.
  intros Hwf Hh. unfold shutdown_begin, seq, modify. cbn -[for_each].
  set (w1 := match observer w with Some _ => _ | None => _ end).
  assert (Hw1 : fst w1 = None /\ tasks (snd w1) = tasks w
                /\ current_tasks (snd w1) = current_tasks w).
  { subst w1. by destruct (observer w). }
  destruct w1 as [o w1]. destruct Hw1 as (Ho & Et & Ec). cbn in *. subst o.
  assert (Hl : Forall (cancellable w1)
                 (map snd (map_to_list (current_tasks w1)))).
  { apply Forall_forall. intros tid Hin.
    apply list_elem_of_fmap in Hin as ([p tid'] & -> & Hin).
    apply elem_of_map_to_list in Hin. cbn. rewrite Ec in Hin.
    destruct (registered_cancellable w p tid' Hwf Hh Hin) as (t & Ht & Hq).
    exists t. rewrite Et, Ec. done. }
  pose proof (still_for_each_cancel _ w1 Hl) as H.
  apply (still_trans _ w1); [by apply still_same|].
  destruct (for_each cancel _ w1) as [[e|] w2]; cbn in *; [done|].
  eapply still_trans; [exact H|]. destruct (threadpool w2); by apply still_same.
Qed.

Lemma still_loop delay tid w : still w (snd (process_loop delay tid w)).
Proof.
  unfold process_loop. destruct (tasks w !! tid) as [t|] eqn:Ht;
    [|apply still_refl].
  destruct (last_touch t) as [lt|] eqn:Hl.
  - case_match; cbn.
    + apply (still_trans _ (update_task tid (with_state ACTIVE) w)).
      { apply still_update. intros t0 Ht0.
        assert (t0 = t) as -> by congruence. split; [congruence|done]. }
      eapply still_trans; [|by apply still_same].
      apply still_update. intros t0. cbn. rewrite list_lookup_alter_eq, Ht.
      cbn. intros [= <-]. done.
    + apply still_update. intros t0 Ht0.
      assert (t0 = t) as -> by congruence. split; [congruence|done].
  - rewrite finish_snd. by apply (still_done tid t).
Qed.

Lemma still_return tid rc w : still w (snd (process_return tid rc w)).
Proof.
  unfold process_return. destruct (decide (rc = 0)) as [Hrc|Hrc];
    [|apply still_refl]. destruct (tasks w !! tid) as [t|] eqn:Ht;
    [|apply still_refl].
  destruct (last_touch t) as [lt|] eqn:Hl; rewrite finish_snd.
  - apply still_enqueue.
  - by apply (still_done tid t).
Qed.

Lemma still_step delay a w w' :
  reachable delay w -> step delay a w = Some w' -> still w w'.
Proof.
  intros Hre. pose proof (wf_reachable _ _ Hre) as Hwf.
  pose proof (handled_reachable _ _ Hre) as Hh.
  destruct a; cbn -[dispatch shutdown_begin shutdown_end].
  - case_match; [|done]. intros [= <-]. by apply still_same.
  - destruct (observer w) as [[]|]; try done. intros [= <-].
    by apply still_outside, still_dispatch.
  - case_bool_decide; [|done]. destruct (first_pending _); [|done].
    cbn. intros [= <-]. by apply still_same.
  - destruct (futures w !! fid) as [f|]; [|done]. cbn.
    destruct (fstate f) as [|[wake|]| | |]; try done.
    case_match; [|done]. intros [= <-].
    eapply still_trans; [apply (still_loop delay (work f))|].
    by apply still_same.
  - destruct (futures w !! fid) as [f|]; [|done]. cbn.
    destruct (fstate f) as [|[wake|]| | |]; try done. intros [= <-].
    eapply still_trans; [apply (still_return (work f) rc)|].
    by apply still_same.
  - destruct (pool_shutdown w); [done|]. intros [= <-].
    by apply still_outside, still_shutdown_begin.
  - case_match; [|done]. intros [= <-]. apply still_same.
    unfold outside, shutdown_end, seq, modify.
    destruct (threadpool w); cbn; by destruct (observer w).
Qed.

Lemma spent_reachable delay w : reachable delay w -> spent w.
Proof.
  intros [acts Hr].
  assert (H : forall w0, reachable delay w0 -> spent w0 ->
              run delay acts w0 = Some w -> spent w).
  { clear Hr. induction acts as [|a acts IH]; intros w0 Hre Hsp; cbn.
    - by intros [= <-].
    - destruct (step delay a w0) as [w1|] eqn:Hs; [|done]. cbn.
      apply IH.
      + eapply reachable_run; [exact Hre|]. by apply run_one.
      + by apply (still_step delay a w0 w1 Hre Hs). }
  apply (H AutoOcrScheduler_init); [by exists []| |done].
  intros tid t. cbn. by rewrite lookup_nil.
Qed.

(** DONE is final: a task that is DONE holds no touch, and no event, no
    worker and no shutdown changes it any more. *)
Theorem done_is_final (delay : Z) (a : action) (w w' : World) (tid : nat)
  (t : OcrTask) :
  reachable delay w -> tasks w !! tid = Some t -> state t = DONE ->
  step delay a w = Some w' ->
  last_touch t = None /\ tasks w' !! tid = Some t.
Proof.
  intros Hre Ht Hd Hs.
  pose proof (spent_reachable delay w Hre tid t Ht Hd) as Hl.
  split; [done|]. by apply (still_step delay a w w' Hre Hs).
Qed.

Lemma done_is_final_witness :
  let w := world_after 3000000 deleted_at_once in
  let t := mkTask "a.pdf" None (Some 0%nat) DONE in
  last_touch t = None
  /\ tasks (outside (dispatch (FileCreated "a.pdf")) w) !! 0%nat = Some t.
Proof.
  intros w t.
  apply (done_is_final 3000000 (Deliver (FileCreated "a.pdf")) w); try done.
  apply reachable_world_after. vm_compute. eauto.
Defined.
